(** * LACONEU 2025 NEST notebooks: parameter bookkeeping

    A shallow embedding of the arithmetic that the notebooks own.

    - [Np]: the numpy operations the cells use, on arrays as lists.
    - [Mesocircuit]: the cells of
      [2_ReducedMesocircuit/reduced_mesocircuit.ipynb] that compensate the
      external in-degree of L6E and L6I for the populations that are not
      simulated ([indegree_modifications]) and round the result ([K_ext_L6E],
      [K_ext_L6I]), as functions of the values of the parameter table
      [net_dict].
    - [Heap]: the cells that derive quantities from [net_dict], from the
      scaling of the neuron numbers to the new external in-degrees, over a
      store of numpy buffers in which the rows read from the table are views
      of its buffers.
    - [ShortTermPlasticity]: the DC amplitude [I0] of the short-term
      plasticity notebook.
    - [MesoPost]: the cells of the mesocircuit notebook that evaluate the
      simulation: the firing rates, the positions of the spiking neurons and
      the frame drawn around the thalamic pulse.
    - [ClopathInput] and [ClopathWeights]: the rates of the Poisson
      generators of the Clopath notebook, and the cell that rebuilds the
      matrix of the excitatory weights from the list of connections.

    Numbers.  The notebooks compute with numpy [float64].  In [Mesocircuit],
    [Heap], [MesoPost] and [ClopathWeights] a float is modelled by an exact
    rational ([Q]): every operation is the exact one, so the rounding of
    intermediate results and the values [inf] and [nan] are outside the
    model, and [astype(int)] is the cast of a number inside the range of
    [int64].  [np.round] of a float is round-half-to-even, which is exact on
    floats and is modelled as such.  Where a theorem states the value, the
    sign or the order of a result of the compensation, it names the runs on
    which the cells compute what the model computes: nonzero divisors, a
    rounded total in the range of [int64] ([Np.in_int64]), binary64
    arithmetic that is exact ([Mesocircuit.exact_run]) or that neither
    overflows nor underflows ([Mesocircuit.moderate_run]).  In
    [ShortTermPlasticity] and [ClopathInput] the formulas contain [np.exp]
    and are read over the real numbers.

    The theory follows the definitions: [NpFacts] and [MesocircuitFacts] for
    the compensation, [HeapFacts] for the frame of the cells, [HeapRefinement]
    for the agreement of the two models of the cells,
    [ShortTermPlasticityFacts] and [AmplitudeFacts] for the amplitude,
    [MesoPostFacts] and [HeapCellsFacts] for the other cells of the
    mesocircuit notebook, and [ClopathInputFacts] and [ClopathWeightsFacts]
    for the Clopath notebook. *)

From Stdlib Require Import QArith Qpower Qround Qabs ZArith Lia Reals Psatz.
From stdpp Require Import base option list gmap sorting.

(** ** Exceptions *)

(** The two exceptions numpy can raise in the modelled cells: an index out of
    bounds, and operands that cannot be broadcast together. *)
Inductive error : Set :=
  | IndexError
  | ValueError.

Inductive result (A : Type) : Type :=
  | Ok (a : A)
  | Raise (e : error).
Arguments Ok {A} a.
Arguments Raise {A} e.

#[global] Instance result_ret : MRet result := λ A a, Ok a.
#[global] Instance result_bind : MBind result := λ A B f m,
  match m with
  | Ok a => f a
  | Raise e => Raise e
  end.

Definition is_Ok {A} (r : result A) : Prop := ∃ a, r = Ok a.

(** A [for] loop whose body may raise: the state is threaded through the
    iterations and the first exception ends the loop. *)
Fixpoint for_each {A S : Type} (body : A → S → result S) (xs : list A) (s : S)
  : result S :=
  match xs with
  | [] => Ok s
  | x :: xs' => s' ← body x s; for_each body xs' s'
  end.

(** ** The numpy operations the cells use, on one-dimensional arrays *)

Module Np.

Open Scope Q_scope.

(** [a[i]] for an index [i >= 0] (the cells index with non-negative
    literals only). *)
Definition getitem {A} (a : list A) (i : nat) : result A :=
  match a !! i with
  | Some x => Ok x
  | None => Raise IndexError
  end.

(** [a[:-1]]: a slice never raises. *)
Definition slice_to_last {A} (a : list A) : list A :=
  take (length a - 1) a.

(** [a[js]] for a list of indices [js] (integer-array indexing). *)
Fixpoint take_indices {A} (a : list A) (js : list nat) : result (list A) :=
  match js with
  | [] => Ok []
  | j :: js' => x ← getitem a j; xs ← take_indices a js'; Ok (x :: xs)
  end.

(** Elementwise binary operation with numpy's broadcasting of two
    one-dimensional operands: equal lengths, or one operand of length 1. *)
Definition broadcast (op : Q → Q → Q) (a b : list Q) : result (list Q) :=
  if decide (length a = length b) then Ok (zip_with op a b)
  else match a, b with
       | [x], _ => Ok (op x <$> b)
       | _, [y] => Ok ((λ x, op x y) <$> a)
       | _, _ => Raise ValueError
       end.

(** [a / s] for a scalar [s] that is not zero.  For a zero divisor numpy
    returns [inf] or [nan] (with a warning) where the quotient of [Q] is 0;
    the theorems on values assume nonzero divisors. *)
Definition div_scalar (a : list Q) (s : Q) : list Q := (λ x, x / s) <$> a.

(** [np.zeros(n)] *)
Definition zeros (n : nat) : list Q := replicate n 0.

(** [np.sum(a)] *)
Definition sum (a : list Q) : Q := foldl Qplus 0 a.

(** [a[i] += v] *)
Definition iadd_item (a : list Q) (i : nat) (v : Q) : result (list Q) :=
  x ← getitem a i; Ok (<[i := x + v]> a).

(** [enumerate(xs)] *)
Definition enumerate {A} (xs : list A) : list (nat * A) :=
  imap (λ i x, (i, x)) xs.

(** [np.round(x)]: to the nearest integer, a tie to the even neighbour.
    The value is still a float. *)
Definition round_half_even (x : Q) : Z :=
  let f := Qfloor x in
  match Qcompare (x - inject_Z f) (1 # 2) with
  | Lt => f
  | Gt => (f + 1)%Z
  | Eq => if Z.even f then f else (f + 1)%Z
  end.

Definition round (x : Q) : Q := inject_Z (round_half_even x).

(** [x.astype(int)]: truncation toward zero (within the range of int64). *)
Definition astype_int (x : Q) : Z := Z.quot (Qnum x) (Zpos (Qden x)).

(** *** The limits of the machine numbers *)

(** The range of [int64], the type that [astype(int)] casts to. *)
Definition int64_min : Z := (- 2 ^ 63)%Z.
Definition int64_max : Z := (2 ^ 63 - 1)%Z.
Definition in_int64 (z : Z) : Prop := (int64_min <= z <= int64_max)%Z.

#[global] Instance in_int64_dec z : Decision (in_int64 z).
Proof. unfold in_int64. apply _. Defined.

(** The cast as the machine performs it.  Inside the range of [int64] it is
    [astype_int]; for a number outside the range the cast does not return
    the number: on x86-64 the result is the smallest [int64]. *)
Definition astype_int64 (x : Q) : Z :=
  if decide (in_int64 (astype_int x)) then astype_int x else int64_min.

(** [k] is the integer nearest to [x], the even one of the two when [x]
    lies halfway between two integers. *)
Definition nearest_even (k : Z) (x : Q) : Prop :=
  Qabs (inject_Z k - x) <= 1 # 2 ∧
  (Qabs (inject_Z k - x) == 1 # 2 → Z.even k = true).

(** [x] is a finite binary64 number: an integer of at most 53 bits times a
    power of two between [2^-1074] and [2^971].  When the exact result of an
    addition, a multiplication or a division of two binary64 numbers is a
    binary64 number, the operation of the machine returns it. *)
Definition binary64 (x : Q) : Prop :=
  ∃ m e : Z, (Z.abs m < 2 ^ 53)%Z ∧ (-1074 <= e <= 971)%Z ∧
             x == inject_Z m * 2 ^ e.

(** A check for [binary64] with a given exponent: [x / 2^e] is an integer of
    at most 53 bits. *)
Definition binary64_at (e : Z) (x : Q) : bool :=
  let y := Qred (x * 2 ^ (- e)) in
  (Qden y =? 1)%positive && (Z.abs (Qnum y) <? 2 ^ 53)%Z.


#[global] Instance Qeq_decision (x y : Q) : Decision (x == y) := Qeq_dec x y.
#[global] Instance Qle_decision (x y : Q) : Decision (x <= y) :=
  decide (Qnum x * QDen y <= Qnum y * QDen x)%Z.

(** [x] is zero or of moderate size: far from the overflow and the underflow
    of binary64, and inside the range of [int64]. *)
Definition moderate (x : Q) : Prop :=
  x == 0 ∨ (2 ^ (-62) <= Qabs x ∧ Qabs x <= 2 ^ 62).

#[global] Instance moderate_dec x : Decision (moderate x).
Proof. unfold moderate. apply _. Defined.

End Np.

(** ** The reduced mesocircuit notebook *)

Module Mesocircuit.

Open Scope Q_scope.

(** The loaded parameter table [net_dict], with the fields the notebook
    reads.  A two-dimensional array is the list of its rows. *)
Record NetDict : Type := {
  num_neurons : list Q;
  extent : Q;
  indegrees : list (list Q);
  beta : list (list Q);
  mask_scaling : Q;
  weight_matrix_mean : list (list Q);
  weight_rel_std : Q;
  delay_offset_exc_inh : list Q;
  prop_speed_exc_inh : list Q;
  bg_rate : Q;
  weight_ext : Q;
  ext_indegrees : list Q
}.

(** The dictionary [neuron_params]. *)
Record NeuronParams : Type := {
  C_m : Q;
  tau_m : Q;
  E_L : Q;
  V_th : Q;
  V_reset : Q;
  t_ref : Q;
  tau_syn_ex : Q;
  tau_syn_in : Q
}.

Definition neuron_params : NeuronParams := {|
  C_m := 250; tau_m := 10; E_L := -65; V_th := -50; V_reset := -65;
  t_ref := 2; tau_syn_ex := 2; tau_syn_in := 8
|}.

(** [rates_meso]: firing rates of the eight cortical populations in the
    full model. *)
Definition rates_meso : list Q :=
  [376 # 1000; 1415 # 1000; 1211 # 1000; 2824 # 1000;
   2300 # 1000; 3767 # 1000; 1146 # 1000; 3518 # 1000].

(** [np.array([[tau_syn_ex, tau_syn_in] for i in np.arange(4)]).flatten()] *)
Definition make_tau_syn (np : NeuronParams) : list Q :=
  concat (map (λ _ : nat, [tau_syn_ex np; tau_syn_in np]) (seq 0 4)).

Definition included_popids : list nat := [6; 7]%nat.
Definition excluded_popids : list nat := [0; 1; 2; 3; 4; 5]%nat.

Section Compensation.

Variable net_dict : NetDict.
Variable np : NeuronParams.
Variables rates tau_syn : list Q.

(** The array [rec_input] of one iteration of the outer loop.  Every
    product and quotient is the exact one, where the cell rounds each result
    to binary64; [exact_run] and [moderate_run] below name the runs on which
    the two agree, exactly and up to that rounding. *)
Definition rec_input (ipopid : nat) : result (list Q) :=
  wrow ← Np.getitem (weight_matrix_mean net_dict) ipopid;
  weights_tau_syn_rec ← Np.broadcast Qmult (Np.slice_to_last wrow) tau_syn;
  let weight_tau_syn_ext := weight_ext net_dict * tau_syn_ex np in
  let frac_weights_tau_syn :=
    Np.div_scalar weights_tau_syn_rec weight_tau_syn_ext in
  let frac_rates := Np.div_scalar rates (bg_rate net_dict) in
  t ← Np.broadcast Qmult frac_rates frac_weights_tau_syn;
  krow ← Np.getitem (indegrees net_dict) ipopid;
  Np.broadcast Qmult t (Np.slice_to_last krow).

(** The inner loop [for jpopid in [excluded_popids]]: the list that is
    iterated has ONE element, the whole list of excluded populations,
    which then indexes [rec_input] as an integer array. *)
Definition add_excluded (excluded : list nat) (i : nat) (rec : list Q)
    (mods : list Q) : result (list Q) :=
  for_each
    (λ jpopid mods,
       picked ← Np.take_indices rec jpopid;
       Np.iadd_item mods i (Np.sum picked))
    [excluded] mods.

Definition loop_body (excluded : list nat) (ix : nat * nat)
    (mods : list Q) : result (list Q) :=
  let '(i, ipopid) := ix in
  rec ← rec_input ipopid;
  add_excluded excluded i rec mods.

(** The cell that computes [indegree_modifications]. *)
Definition indegree_modifications_for (included excluded : list nat)
  : result (list Q) :=
  for_each (loop_body excluded) (Np.enumerate included)
           (Np.zeros (length included)).

Definition indegree_modifications : result (list Q) :=
  indegree_modifications_for included_popids excluded_popids.

(** [np.round(net_dict['ext_indegrees'][popid] + indegree_modifications[i]).astype(int)] *)
Definition K_ext (mods : list Q) (popid i : nat) : result Z :=
  base ← Np.getitem (ext_indegrees net_dict) popid;
  m ← Np.getitem mods i;
  Ok (Np.astype_int (Np.round (base + m))).

Definition K_ext_L6E (mods : list Q) : result Z := K_ext mods 6 0.
Definition K_ext_L6I (mods : list Q) : result Z := K_ext mods 7 1.

(** The compensation cell followed by the rounding cell. *)
Definition new_ext_indegrees (included excluded : list nat)
  : result (list Q * Z * Z) :=
  mods ← indegree_modifications_for included excluded;
  k6 ← K_ext_L6E mods;
  k7 ← K_ext_L6I mods;
  Ok (mods, k6, k7).

End Compensation.

(** *** The quantities of the specification *)

(** Entry [j] of a vector and entry [(i, j)] of a matrix, [0] where the
    array has no such entry. *)
Definition at0 (a : list Q) (j : nat) : Q := default 0 (a !! j).
Definition at00 (m : list (list Q)) (i j : nat) : Q :=
  at0 (default [] (m !! i)) j.

(** The contribution of one excluded population, in the words of the
    specification: (mean weight × synaptic time constant) / (external weight
    × external synaptic time constant), scaled by reference rate /
    background rate, scaled by the recurrent in-degree. *)
Definition spec_contribution (w tau w_ext tau_ext rate bg K : Q) : Q :=
  (w * tau) / (w_ext * tau_ext) * (rate / bg) * K.

Definition sum_over (js : list nat) (f : nat → Q) : Q :=
  foldr (λ j acc, f j + acc) 0 js.

Definition spec_modification (nd : NetDict) (np : NeuronParams)
    (rates tau_syn : list Q) (excluded : list nat) (ipopid : nat) : Q :=
  sum_over excluded (λ j,
    spec_contribution (at00 (weight_matrix_mean nd) ipopid j) (at0 tau_syn j)
      (weight_ext nd) (tau_syn_ex np) (at0 rates j) (bg_rate nd)
      (at00 (indegrees nd) ipopid j)).


(** The entry of [rec_input] for source population [j], as the cell
    computes it. *)
Definition code_term (nd : NetDict) (np : NeuronParams)
    (rates tau_syn : list Q) (ipopid j : nat) : Q :=
  at0 rates j / bg_rate nd
  * (at00 (weight_matrix_mean nd) ipopid j * at0 tau_syn j
     / (weight_ext nd * tau_syn_ex np))
  * at00 (indegrees nd) ipopid j.

(** *** Runs in which the machine computes what the rationals compute *)

(** The results of the operations by which the cell computes the entry of
    [rec_input] for source population [j], in the order in which it computes
    them: the product of weight and time constant, the product of external
    weight and time constant, their quotient, the quotient of the rates, and
    the two products of the last line. *)
Definition term_steps (nd : NetDict) (np : NeuronParams)
    (rates tau_syn : list Q) (ipopid j : nat) : list Q :=
  let a := at00 (weight_matrix_mean nd) ipopid j * at0 tau_syn j in
  let c := weight_ext nd * tau_syn_ex np in
  let f := a / c in
  let r := at0 rates j / bg_rate nd in
  [a; c; f; r; r * f; r * f * at00 (indegrees nd) ipopid j].

(** The entries of [rec_input] that [np.sum] adds. *)
Definition picked_terms (nd : NetDict) (np : NeuronParams)
    (rates tau_syn : list Q) (excluded : list nat) (ipopid : nat) : list Q :=
  code_term nd np rates tau_syn ipopid <$> excluded.


(** No operation of the two cells for the included population [ipopid]
    overflows or underflows, and the total stays inside the range of
    [int64], also after the rounding of the floats: every intermediate
    result for the excluded populations is zero or of moderate size, and the
    old in-degree and the terms add up to at most [2^62] in absolute
    value.  On such a run the floats of the cells are the rationals of this
    model up to the rounding of binary64. *)
Definition moderate_run (nd : NetDict) (np : NeuronParams)
    (rates tau_syn : list Q) (excluded : list nat) (ipopid : nat) : Prop :=
  Forall (λ j, Forall Np.moderate (term_steps nd np rates tau_syn ipopid j))
         excluded ∧
  Qabs (at0 (ext_indegrees nd) ipopid)
  + Np.sum (Qabs <$> picked_terms nd np rates tau_syn excluded ipopid)
  <= 2 ^ 62.

#[global] Instance moderate_run_dec nd np rates tau_syn excluded ipopid :
  Decision (moderate_run nd np rates tau_syn excluded ipopid).
Proof. unfold moderate_run. apply _. Defined.

(** *** Shapes *)

Definition row_length (m : list (list Q)) (i : nat) : option nat :=
  length <$> m !! i.

(** The shapes of the mesocircuit model: eight cortical populations, and a
    ninth column for the thalamocortical population in the matrices. *)
Definition well_shaped (nd : NetDict) (rates tau_syn : list Q) : Prop :=
  length rates = 8%nat ∧ length tau_syn = 8%nat ∧
  Forall (λ ipopid,
            row_length (weight_matrix_mean nd) ipopid = Some 9%nat ∧
            row_length (indegrees nd) ipopid = Some 9%nat)
         included_popids.

(** *** Concrete tables *)

(** A table with the shapes of the mesocircuit model in which only the
    given rows of populations 6 and 7 are filled in. *)
Definition table (w6 w7 k6 k7 : list Q) (w_ext bg : Q) (ext : list Q)
  : NetDict := {|
  num_neurons := [0; 0; 0; 0; 0; 0; 1000; 200; 10];
  extent := 4;
  indegrees := replicate 6 (replicate 9 0) ++ [k6; k7];
  beta := replicate 8 (replicate 9 1);
  mask_scaling := 1;
  weight_matrix_mean := replicate 6 (replicate 9 0) ++ [w6; w7];
  weight_rel_std := 1 # 10;
  delay_offset_exc_inh := [1 # 2; 1 # 2];
  prop_speed_exc_inh := [3 # 10; 3 # 10];
  bg_rate := bg;
  weight_ext := w_ext;
  ext_indegrees := ext
|}.

(** The example of the specification: population 0 sends to L6E with mean
    weight 10 and in-degree 100, external weight 1, background rate 1. *)
Definition example_table : NetDict :=
  table [10; 0; 0; 0; 0; 0; 0; 0; 0] (replicate 9 0)
        [100; 0; 0; 0; 0; 0; 0; 0; 0] (replicate 9 0)
        1 1 [0; 0; 0; 0; 0; 0; 7; 7].

Definition example_rates : list Q := replicate 8 2.


(** A table whose stored external in-degree of L6E is not an integer. *)
Definition fractional_table : NetDict :=
  table (replicate 9 0) (replicate 9 0) (replicate 9 0) (replicate 9 0)
        1 1 [0; 0; 0; 0; 0; 0; 5 # 2; 3].

(** A table in which the inhibitory population 1 (L2/3I) sends to L6E with
    mean weight -1 and in-degree 1, and L6E has no external input. *)
Definition inhibitory_table : NetDict :=
  table [0; -1; 0; 0; 0; 0; 0; 0; 0] (replicate 9 0)
        [0; 1; 0; 0; 0; 0; 0; 0; 0] (replicate 9 0)
        1 1 [0; 0; 0; 0; 0; 0; 0; 0].

Definition unit_rates : list Q := replicate 8 1.

(** The example table without the rows of L6E and L6I in the weight
    matrix. *)
Definition short_table : NetDict := {|
  num_neurons := num_neurons example_table;
  extent := extent example_table;
  indegrees := indegrees example_table;
  beta := beta example_table;
  mask_scaling := mask_scaling example_table;
  weight_matrix_mean := replicate 6 (replicate 9 0);
  weight_rel_std := weight_rel_std example_table;
  delay_offset_exc_inh := delay_offset_exc_inh example_table;
  prop_speed_exc_inh := prop_speed_exc_inh example_table;
  bg_rate := bg_rate example_table;
  weight_ext := weight_ext example_table;
  ext_indegrees := ext_indegrees example_table
|}.

(** The example table with other weights and in-degrees from L6E, L6I and
    the thalamus, and rates that differ for L6E and L6I. *)
Definition example_table_variant : NetDict :=
  table [10; 0; 0; 0; 0; 0; 5; -3; 9] [0; 0; 0; 0; 0; 0; 1; -1; 4]
        [100; 0; 0; 0; 0; 0; 30; 20; 10] [0; 0; 0; 0; 0; 0; 3; 2; 1]
        1 1 [0; 0; 0; 0; 0; 0; 7; 7].

Definition example_rates_variant : list Q := [2; 2; 2; 2; 2; 2; 7; 9].

(** *** Two runs that agree on the excluded populations *)

(** Two vectors of the same length with the same entries 0..5. *)
Definition agree_on_excluded (a b : list Q) : Prop :=
  length a = length b ∧ take 6 a = take 6 b.

Definition rows_agree (m1 m2 : list (list Q)) (ipopid : nat) : Prop :=
  match m1 !! ipopid, m2 !! ipopid with
  | Some r1, Some r2 => agree_on_excluded r1 r2
  | None, None => True
  | _, _ => False
  end.

(** The inputs of two runs agree on everything but the reference rates of
    populations 6 and 7, columns 6 to 8 of the rows of L6E and L6I in the
    two matrices, and the rows of the other populations. *)
Record agree_outside_included (nd1 nd2 : NetDict) (np1 np2 : NeuronParams)
    (rates1 rates2 : list Q) : Prop := {
  agree_bg : bg_rate nd1 = bg_rate nd2;
  agree_weight_ext : weight_ext nd1 = weight_ext nd2;
  agree_tau_syn_ex : tau_syn_ex np1 = tau_syn_ex np2;
  agree_ext_indegrees : ext_indegrees nd1 = ext_indegrees nd2;
  agree_rates : agree_on_excluded rates1 rates2;
  agree_weights : Forall (rows_agree (weight_matrix_mean nd1)
                                     (weight_matrix_mean nd2)) included_popids;
  agree_indegrees : Forall (rows_agree (indegrees nd1) (indegrees nd2))
                           included_popids
}.

(** Two results are related when both raise the same exception or both
    return related values. *)
Definition result_rel {A} (R : A → A → Prop) (r1 r2 : result A) : Prop :=
  match r1, r2 with
  | Ok a, Ok b => R a b
  | Raise e1, Raise e2 => e1 = e2
  | _, _ => False
  end.

End Mesocircuit.

(** ** The cells over a store of numpy buffers *)

(** In the notebook [net_dict] holds numpy arrays, and indexing a row or
    slicing it gives a view that shares the buffer of the array.  Here the
    buffers live in a heap, an array is a reference into it, and each numpy
    operation says whether it reads a buffer, allocates a fresh one, or writes
    into an existing one.  The arithmetic on the entries is that of [Np]. *)

Module Heap.

Open Scope Q_scope.

(** Locations are numbers, and the heap maps a location to its buffer. *)
Abbreviation loc := nat (only parsing).
Abbreviation heap := (gmap nat (list Q)) (only parsing).

(** A computation reads and updates the heap and may raise; the heap it
    leaves behind is kept also when it raises. *)
Definition M (A : Type) : Type := heap → result A * heap.

Definition ret {A} (a : A) : M A := λ h, (Ok a, h).
Definition raise {A} (e : error) : M A := λ h, (Raise e, h).
Definition bind {A B} (m : M A) (f : A → M B) : M B := λ h,
  match m h with
  | (Ok a, h') => f a h'
  | (Raise e, h') => (Raise e, h')
  end.
Definition lift {A} (r : result A) : M A := λ h, (r, h).

#[global] Instance M_ret : MRet M := @ret.
#[global] Instance M_bind : MBind M := λ A B f m, bind m f.

(** A one-dimensional array or view: [size] entries of the buffer at [base],
    from position [offset] on. *)
Record ndarray : Type := {
  base : loc;
  offset : nat;
  size : nat
}.

(** A two-dimensional array in row-major order. *)
Record ndarray2 : Type := {
  base2 : loc;
  nrows : nat;
  ncols : nat
}.

Definition buffer (h : heap) (l : loc) : list Q := default [] (h !! l).

Definition contents (h : heap) (a : ndarray) : list Q :=
  take (size a) (drop (offset a) (buffer h (base a))).

Definition contents2 (h : heap) (a : ndarray2) : list (list Q) :=
  (λ i, take (ncols a) (drop (i * ncols a) (buffer h (base2 a))))
    <$> seq 0 (nrows a).

(** A new array owns a buffer that no array refers to yet. *)
Definition alloc (data : list Q) : M ndarray := λ h,
  let l := fresh (dom h) in
  (Ok {| base := l; offset := 0; size := length data |}, <[l := data]> h).

Definition read (a : ndarray) : M (list Q) := λ h, (Ok (contents h a), h).

(** [a[i]] on a two-dimensional array: a view of row [i]. *)
Definition getrow (a : ndarray2) (i : nat) : M ndarray :=
  if decide (i < nrows a)%nat
  then ret {| base := base2 a; offset := i * ncols a; size := ncols a |}
  else raise IndexError.

(** [a[i]] on a one-dimensional array: a number. *)
Definition getitem (a : ndarray) (i : nat) : M Q :=
  xs ← read a; lift (Np.getitem xs i).

(** [a[i, j]] *)
Definition getitem2 (a : ndarray2) (i j : nat) : M Q :=
  if decide (i < nrows a)%nat
  then getitem {| base := base2 a; offset := i * ncols a; size := ncols a |} j
  else raise IndexError.

(** [a[:-1]]: a view of the same buffer. *)
Definition slice_to_last (a : ndarray) : ndarray :=
  {| base := base a; offset := offset a; size := size a - 1 |}.

(** The arithmetic operations allocate their result. *)
Definition broadcast (op : Q → Q → Q) (a b : ndarray) : M ndarray :=
  xs ← read a; ys ← read b; zs ← lift (Np.broadcast op xs ys); alloc zs.

Definition div_scalar (a : ndarray) (s : Q) : M ndarray :=
  xs ← read a; alloc (Np.div_scalar xs s).

(** Indexing with a list of integers copies the selected entries. *)
Definition take_indices (a : ndarray) (js : list nat) : M ndarray :=
  xs ← read a; ys ← lift (Np.take_indices xs js); alloc ys.

Definition sum (a : ndarray) : M Q := xs ← read a; ret (Np.sum xs).

Definition zeros (n : nat) : M ndarray := alloc (Np.zeros n).

(** Storing a number at position [i] of [a] changes the buffer of [a]. *)
Definition write (a : ndarray) (i : nat) (x : Q) : M unit := λ h,
  (Ok (), <[base a := <[(offset a + i)%nat := x]> (buffer h (base a))]> h).

(** [a[i] += v] *)
Definition iadd_item (a : ndarray) (i : nat) (v : Q) : M unit :=
  x ← getitem a i; write a i (x + v).

(** A [for] loop in the monad. *)
Fixpoint for_each_ {A} (body : A → M unit) (xs : list A) : M unit :=
  match xs with
  | [] => ret ()
  | x :: xs' => _ ← body x; for_each_ body xs'
  end.

(** The loaded parameter table: its arrays are references into the heap. *)
Record NetDict : Type := {
  num_neurons : ndarray;
  extent : Q;
  indegrees : ndarray2;
  beta : ndarray2;
  mask_scaling : Q;
  weight_matrix_mean : ndarray2;
  weight_rel_std : Q;
  delay_offset_exc_inh : ndarray;
  prop_speed_exc_inh : ndarray;
  bg_rate : Q;
  weight_ext : Q;
  ext_indegrees : ndarray
}.

(** The values of the table in a heap. *)
Definition read_table (h : heap) (nd : NetDict) : Mesocircuit.NetDict := {|
  Mesocircuit.num_neurons := contents h (num_neurons nd);
  Mesocircuit.extent := extent nd;
  Mesocircuit.indegrees := contents2 h (indegrees nd);
  Mesocircuit.beta := contents2 h (beta nd);
  Mesocircuit.mask_scaling := mask_scaling nd;
  Mesocircuit.weight_matrix_mean := contents2 h (weight_matrix_mean nd);
  Mesocircuit.weight_rel_std := weight_rel_std nd;
  Mesocircuit.delay_offset_exc_inh := contents h (delay_offset_exc_inh nd);
  Mesocircuit.prop_speed_exc_inh := contents h (prop_speed_exc_inh nd);
  Mesocircuit.bg_rate := bg_rate nd;
  Mesocircuit.weight_ext := weight_ext nd;
  Mesocircuit.ext_indegrees := contents h (ext_indegrees nd)
|}.

(** [pickle.load]: every array of the table gets a buffer of its own.  The
    rows of a matrix are stored one after the other. *)
Definition alloc2 (rows : list (list Q)) : M ndarray2 :=
  a ← alloc (concat rows);
  ret {| base2 := base a; nrows := length rows;
         ncols := length (default [] (head rows)) |}.

Definition load (nd : Mesocircuit.NetDict) : M NetDict :=
  n ← alloc (Mesocircuit.num_neurons nd);
  K ← alloc2 (Mesocircuit.indegrees nd);
  b ← alloc2 (Mesocircuit.beta nd);
  W ← alloc2 (Mesocircuit.weight_matrix_mean nd);
  d ← alloc (Mesocircuit.delay_offset_exc_inh nd);
  v ← alloc (Mesocircuit.prop_speed_exc_inh nd);
  e ← alloc (Mesocircuit.ext_indegrees nd);
  ret {| num_neurons := n; extent := Mesocircuit.extent nd; indegrees := K;
         beta := b; mask_scaling := Mesocircuit.mask_scaling nd;
         weight_matrix_mean := W;
         weight_rel_std := Mesocircuit.weight_rel_std nd;
         delay_offset_exc_inh := d; prop_speed_exc_inh := v;
         bg_rate := Mesocircuit.bg_rate nd;
         weight_ext := Mesocircuit.weight_ext nd; ext_indegrees := e |}.

(** The buffers of the table exist in the heap. *)
Definition table_in_heap (h : heap) (nd : NetDict) : Prop :=
  Forall (λ l, is_Some (h !! l))
    [base (num_neurons nd); base2 (indegrees nd); base2 (beta nd);
     base2 (weight_matrix_mean nd); base (delay_offset_exc_inh nd);
     base (prop_speed_exc_inh nd); base (ext_indegrees nd)].

(** [keeps h0 m post]: run in any heap that extends [h0], the computation [m]
    leaves every buffer of [h0] as it is, also when it raises, and a value it
    returns satisfies [post]. *)
Definition keeps {A} (h0 : heap) (m : M A) (post : A → Prop) : Prop :=
  ∀ h, h0 ⊆ h →
    h0 ⊆ (m h).2 ∧
    match (m h).1 with
    | Ok a => post a
    | Raise _ => True
    end.

(** The array was allocated after [h0]. *)
Definition new_in (h0 : heap) (a : ndarray) : Prop := h0 !! base a = None.

(** [holds h a xs]: the array [a] lies within an existing buffer of [h] and
    has the entries [xs]. *)
Definition holds (h : heap) (a : ndarray) (xs : list Q) : Prop :=
  is_Some (h !! base a) ∧ contents h a = xs ∧ length xs = size a.

Definition holds2 (h : heap) (a : ndarray2) (rows : list (list Q)) : Prop :=
  is_Some (h !! base2 a) ∧ contents2 h a = rows ∧
  (nrows a * ncols a ≤ length (buffer h (base2 a)))%nat.

(** Every buffer of [h] other than the one at [l] is the same in [h']. *)
Definition same_except (l : loc) (h h' : heap) : Prop :=
  ∀ l' buf, l' ≠ l → h !! l' = Some buf → h' !! l' = Some buf.

(** [refines F h m r R]: run in [h], the computation [m] over the heap does
    what the computation [r] over values does: it raises the same exception,
    or returns a value related by [R] to that of [r]; the heap it leaves is
    related to [h] by [F]. *)
Definition refines {A B} (F : heap → heap → Prop) (h : heap) (m : M A)
    (r : result B) (R : heap → A → B → Prop) : Prop :=
  F h (m h).2 ∧
  match (m h).1, r with
  | Ok a, Ok b => R (m h).2 a b
  | Raise e, Raise e' => e = e'
  | _, _ => False
  end.

(** The table [nd] in the heap [h] has the values of the table [t], and its
    arrays lie within their buffers. *)
Record represents (h : heap) (nd : NetDict) (t : Mesocircuit.NetDict)
  : Prop := {
  rep_num_neurons : holds h (num_neurons nd) (Mesocircuit.num_neurons t);
  rep_indegrees : holds2 h (indegrees nd) (Mesocircuit.indegrees t);
  rep_beta : holds2 h (beta nd) (Mesocircuit.beta t);
  rep_weight_matrix_mean :
    holds2 h (weight_matrix_mean nd) (Mesocircuit.weight_matrix_mean t);
  rep_delay_offset :
    holds h (delay_offset_exc_inh nd) (Mesocircuit.delay_offset_exc_inh t);
  rep_prop_speed :
    holds h (prop_speed_exc_inh nd) (Mesocircuit.prop_speed_exc_inh t);
  rep_ext_indegrees :
    holds h (ext_indegrees nd) (Mesocircuit.ext_indegrees t);
  rep_bg_rate : bg_rate nd = Mesocircuit.bg_rate t;
  rep_weight_ext : weight_ext nd = Mesocircuit.weight_ext t
}.

(** A computation that leaves the heap as it found it. *)
Definition readonly {A} (m : M A) : Prop := ∀ h, (m h).2 = h.

(** What the compensation cell reads: the two matrices and the two scalars
    of the table [nd], with the values they have in [t], and the arrays
    [rates] and [tau_syn]. *)
Record inputs (nd : NetDict) (t : Mesocircuit.NetDict) (rates tau_syn : ndarray)
    (rs ts : list Q) (h : heap) : Prop := {
  in_weights :
    holds2 h (weight_matrix_mean nd) (Mesocircuit.weight_matrix_mean t);
  in_indegrees : holds2 h (indegrees nd) (Mesocircuit.indegrees t);
  in_ext_indegrees : holds h (ext_indegrees nd) (Mesocircuit.ext_indegrees t);
  in_rates : holds h rates rs;
  in_tau_syn : holds h tau_syn ts;
  in_bg_rate : bg_rate nd = Mesocircuit.bg_rate t;
  in_weight_ext : weight_ext nd = Mesocircuit.weight_ext t
}.

Section Cells.

Variable net_dict : NetDict.
Variable np : Mesocircuit.NeuronParams.

(** [N_scaling = 0.045] *)
Definition N_scaling : Q := 45 # 1000.

(** The neuron numbers [N_L6E] and [N_L6I]:
    [np.round(net_dict['num_neurons'][6] * N_scaling).astype(int)]. *)
Definition scale_neurons : M (Z * Z) :=
  n6 ← getitem (num_neurons net_dict) 6;
  let N6 := Np.astype_int (Np.round (n6 * N_scaling)) in
  n7 ← getitem (num_neurons net_dict) 7;
  let N7 := Np.astype_int (Np.round (n7 * N_scaling)) in
  ret (N6, N7).

(** The four entries of a matrix for the connections within layer 6:
    [m[6, 6]], [m[7, 6]], [m[6, 7]], [m[7, 7]]. *)
Definition layer6 (m : ndarray2) : M (Q * Q * Q * Q) :=
  ee ← getitem2 m 6 6;
  ei ← getitem2 m 7 6;
  ie ← getitem2 m 6 7;
  ii ← getitem2 m 7 7;
  ret (ee, ei, ie, ii).

(** Mean and standard deviation of the excitatory and of the inhibitory
    weights: [w_mean_ex, w_std_ex, w_mean_in, w_std_in]. *)
Definition weights : M (Q * Q * Q * Q) :=
  mean_ex ← getitem2 (weight_matrix_mean net_dict) 6 6;
  let std_ex := mean_ex * weight_rel_std net_dict in
  mean_in ← getitem2 (weight_matrix_mean net_dict) 7 7;
  let std_in := - mean_in * weight_rel_std net_dict in
  ret (mean_ex, std_ex, mean_in, std_in).

(** [delay_offset, prop_speed] *)
Definition delays : M (Q * Q) :=
  offset_exc ← getitem (delay_offset_exc_inh net_dict) 0;
  speed_exc ← getitem (prop_speed_exc_inh net_dict) 0;
  ret (offset_exc, speed_exc).

(** The array [rec_input] of one iteration of the outer loop: the rows of
    the table are views, every quotient and product is a new array. *)
Definition rec_input (rates tau_syn : ndarray) (ipopid : nat) : M ndarray :=
  wrow ← getrow (weight_matrix_mean net_dict) ipopid;
  weights_tau_syn_rec ← broadcast Qmult (slice_to_last wrow) tau_syn;
  let weight_tau_syn_ext := weight_ext net_dict * Mesocircuit.tau_syn_ex np in
  frac_weights_tau_syn ← div_scalar weights_tau_syn_rec weight_tau_syn_ext;
  frac_rates ← div_scalar rates (bg_rate net_dict);
  t ← broadcast Qmult frac_rates frac_weights_tau_syn;
  krow ← getrow (indegrees net_dict) ipopid;
  broadcast Qmult t (slice_to_last krow).

(** The inner loop [for jpopid in [excluded_popids]]. *)
Definition add_excluded (mods : ndarray) (excluded : list nat) (i : nat)
    (rec : ndarray) : M unit :=
  for_each_
    (λ jpopid,
       picked ← take_indices rec jpopid;
       v ← sum picked;
       iadd_item mods i v)
    [excluded].

(** One iteration of the outer loop of the compensation cell. *)
Definition loop_body (rates tau_syn mods : ndarray) (excluded : list nat)
    (ix : nat * nat) : M unit :=
  let '(i, ipopid) := ix in
  rec ← rec_input rates tau_syn ipopid;
  add_excluded mods excluded i rec.

Definition indegree_modifications_for (rates tau_syn : ndarray)
    (included excluded : list nat) : M ndarray :=
  mods ← zeros (length included);
  _ ← for_each_ (loop_body rates tau_syn mods excluded) (Np.enumerate included);
  ret mods.

Definition K_ext (mods : ndarray) (popid i : nat) : M Z :=
  base ← getitem (ext_indegrees net_dict) popid;
  m ← getitem mods i;
  ret (Np.astype_int (Np.round (base + m))).

(** The compensation cell followed by the rounding cell. *)
Definition new_ext_indegrees (rates tau_syn : ndarray)
    (included excluded : list nat) : M (list Q * Z * Z) :=
  mods ← indegree_modifications_for rates tau_syn included excluded;
  k6 ← K_ext mods 6 0;
  k7 ← K_ext mods 7 1;
  ms ← read mods;
  ret (ms, k6, k7).

(** What the cells of the notebook derive from the table, under the names
    of the notebook. *)
Record Derived : Type := {
  N_L6E : Z;
  N_L6I : Z;
  K_L6E_L6E : Q;
  K_L6E_L6I : Q;
  K_L6I_L6E : Q;
  K_L6I_L6I : Q;
  beta_L6E_L6E : Q;
  beta_L6E_L6I : Q;
  beta_L6I_L6E : Q;
  beta_L6I_L6I : Q;
  w_mean_ex : Q;
  w_std_ex : Q;
  w_mean_in : Q;
  w_std_in : Q;
  delay_offset : Q;
  prop_speed : Q;
  indegree_modifications : list Q;
  K_ext_L6E : Z;
  K_ext_L6I : Z
}.

(** The cells in the order of the notebook, from the scaling of the neuron
    numbers to the new external in-degrees. *)
Definition derived_quantities : M Derived :=
  '(N6, N7) ← scale_neurons;
  '(K66, K76, K67, K77) ← layer6 (indegrees net_dict);
  '(b66, b76, b67, b77) ← layer6 (beta net_dict);
  '(wex, sex, win, sin) ← weights;
  '(d, v) ← delays;
  rates_meso ← alloc Mesocircuit.rates_meso;
  tau_syn ← alloc (Mesocircuit.make_tau_syn np);
  '(ms, k6, k7) ← new_ext_indegrees rates_meso tau_syn
                     Mesocircuit.included_popids Mesocircuit.excluded_popids;
  ret {| N_L6E := N6; N_L6I := N7;
         K_L6E_L6E := K66; K_L6E_L6I := K76; K_L6I_L6E := K67; K_L6I_L6I := K77;
         beta_L6E_L6E := b66; beta_L6E_L6I := b76;
         beta_L6I_L6E := b67; beta_L6I_L6I := b77;
         w_mean_ex := wex; w_std_ex := sex; w_mean_in := win; w_std_in := sin;
         delay_offset := d; prop_speed := v;
         indegree_modifications := ms; K_ext_L6E := k6; K_ext_L6I := k7 |}.

End Cells.

(** The example table after [pickle.load] into an empty heap. *)
Definition example_heap : heap := (load Mesocircuit.example_table ∅).2.

Definition example_net_dict : NetDict := {|
  num_neurons := {| base := 0%nat; offset := 0%nat; size := 9%nat |};
  extent := 4;
  indegrees := {| base2 := 1%nat; nrows := 8%nat; ncols := 9%nat |};
  beta := {| base2 := 2%nat; nrows := 8%nat; ncols := 9%nat |};
  mask_scaling := 1;
  weight_matrix_mean := {| base2 := 3%nat; nrows := 8%nat; ncols := 9%nat |};
  weight_rel_std := 1 # 10;
  delay_offset_exc_inh := {| base := 4%nat; offset := 0%nat; size := 2%nat |};
  prop_speed_exc_inh := {| base := 5%nat; offset := 0%nat; size := 2%nat |};
  bg_rate := 1;
  weight_ext := 1;
  ext_indegrees := {| base := 6%nat; offset := 0%nat; size := 8%nat |}
|}.

End Heap.

(** ** The short-term plasticity notebook *)

Module ShortTermPlasticity.

Open Scope R_scope.

(** The dictionary [nrn_params]. *)
Record NrnParams : Type := {
  tau_m : R;
  t_ref : R;
  tau_syn_ex : R;
  tau_syn_in : R;
  C_m : R;
  V_reset : R;
  E_L : R;
  V_m : R;
  V_th : R
}.

Definition tau_syn : R := 3.

Definition nrn_params : NrnParams := {|
  tau_m := 40; t_ref := 2; tau_syn_ex := tau_syn; tau_syn_in := tau_syn;
  C_m := 400; V_reset := 0; E_L := 0; V_m := 0; V_th := 15
|}.

(** [f = 0.02], the target frequency in kHz. *)
Definition f : R := 2 / 100.

(** [p['V_th'] * p['C_m'] / p['tau_m']
     / (1 - np.exp(-(1 / f - p['t_ref']) / p['tau_m']))] *)
Definition I0_for (p : NrnParams) (f : R) : R :=
  V_th p * C_m p / tau_m p / (1 - exp (- (1 / f - t_ref p) / tau_m p)).

Definition I0 : R := I0_for nrn_params f.

(** Modelled from the spec: the neuron itself is simulated by the engine,
    which is not part of the repository.  This is the leaky integrator the
    claim describes: membrane time constant [tau_m], capacitance [C_m],
    potential 0 at time 0, constant input current [I]; its potential at time
    [t] is the solution of [C_m V' = - C_m V / tau_m + I] with [V 0 = 0]. *)
Definition membrane_potential (p : NrnParams) (I t : R) : R :=
  I * tau_m p / C_m p * (1 - exp (- t / tau_m p)).

End ShortTermPlasticity.

(** ** The analysis cells of the reduced mesocircuit notebook *)

Module MesoPost.

Open Scope Q_scope.

(** [t_sim = 1000.0] and [t_transient = 100.0] *)
Definition t_sim : Q := 1000.
Definition t_transient : Q := 100.

(** [sum(t > t_transient for t in spike_times)] *)
Fixpoint spike_count (spike_times : list Q) : nat :=
  match spike_times with
  | [] => 0
  | t :: ts =>
      ((if Qlt_le_dec t_transient t then 1 else 0) + spike_count ts)%nat
  end.

(** [spike_count / (t_sim - t_transient) * 1e3 / N] *)
Definition rate (spike_times : list Q) (N : Z) : Q :=
  inject_Z (Z.of_nat (spike_count spike_times)) / (t_sim - t_transient)
  * 1000 / inject_Z N.


(** The variant of the example table after [pickle.load] into an empty
    heap; its arrays are at the places of [Heap.example_net_dict]. *)
Definition variant_heap : gmap nat (list Q) :=
  (Heap.load Mesocircuit.example_table_variant ∅).2.

(** [a[i]] for an integer [i] of either sign: a negative index counts from
    the end of the array. *)
Definition getitem_signed {A} (a : list A) (i : Z) : result A :=
  let n := Z.of_nat (length a) in
  if decide (0 ≤ i)%Z then Np.getitem a (Z.to_nat i)
  else if decide (- n ≤ i)%Z then Np.getitem a (Z.to_nat (n + i))
  else Raise IndexError.

(** A list comprehension [[f(x) for x in xs]] whose body may raise. *)
Fixpoint comprehension {A B} (f : A → result B) (xs : list A)
  : result (list B) :=
  match xs with
  | [] => Ok []
  | x :: xs' => y ← f x; ys ← comprehension f xs'; Ok (y :: ys)
  end.

(** [[x_positions_L6E[nid-1] for nid in spike_senders_L6E]] *)
Definition spike_senders_pos_L6E (x_positions_L6E : list Q)
    (spike_senders_L6E : list Z) : result (list Q) :=
  comprehension (λ nid, getitem_signed x_positions_L6E (nid - 1))
                spike_senders_L6E.

(** [[x_positions_L6I[nid-1-N_L6E] for nid in spike_senders_L6I]] *)
Definition spike_senders_pos_L6I (x_positions_L6I : list Q) (N_L6E : Z)
    (spike_senders_L6I : list Z) : result (list Q) :=
  comprehension (λ nid, getitem_signed x_positions_L6I (nid - 1 - N_L6E))
                spike_senders_L6I.

(** [th_radius = 0.5], [th_start = 500.], [th_stop = 550.] *)
Definition th_radius : Q := 1 # 2.
Definition th_start : Q := 500.
Definition th_stop : Q := 550.

(** A straight line of [axvline] or [axhline]: its position in data
    coordinates, and the part of the axis it spans, as fractions of the
    axis. *)
Record Line : Type := {
  position : Q;
  span_min : Q;
  span_max : Q
}.

(** What [plotsetup] asks of the axes: the limits and the four lines. *)
Record Axes : Type := {
  xlim : Q * Q;
  ylim : Q * Q;
  axvlines : list Line;
  axhlines : list Line
}.

Section Plot.

Variables th_start th_stop th_radius extent : Q.

Definition xlims : Q * Q := (th_start - 30, th_stop + 30).
Definition ylims : Q * Q := (- extent / 2, extent / 2).

Definition plotsetup : Axes := {|
  xlim := xlims;
  ylim := ylims;
  axvlines :=
    [ {| position := th_start;
         span_min := (1 # 2) - th_radius / extent;
         span_max := (1 # 2) + th_radius / extent |};
      {| position := th_stop;
         span_min := (1 # 2) - th_radius / extent;
         span_max := (1 # 2) + th_radius / extent |} ];
  axhlines :=
    [ {| position := - th_radius;
         span_min := (th_start - xlims.1) / (xlims.2 - xlims.1);
         span_max := (th_stop - xlims.1) / (xlims.2 - xlims.1) |};
      {| position := th_radius;
         span_min := (th_start - xlims.1) / (xlims.2 - xlims.1);
         span_max := (th_stop - xlims.1) / (xlims.2 - xlims.1) |} ]
|}.

End Plot.

(** The data coordinate of a fraction of an axis with the limits [lim]:
    0 is the lower limit and 1 the upper one. *)
Definition data_coordinate (lim : Q * Q) (fraction : Q) : Q :=
  lim.1 + fraction * (lim.2 - lim.1).

End MesoPost.

(** ** The Clopath plasticity notebook *)

(** The rates of the Poisson generators, over the real numbers.  The cell
    computes them in binary64, where [np.exp] underflows: from a distance of
    387 generators from the centre on, the rate that the cell sets is exactly
    0.  Over the real numbers every rate is positive and the rates decrease
    strictly with the distance; of the cell only the statements with [<=]
    hold, and only these are stated below. *)

Module ClopathInput.

Open Scope R_scope.

(** [pg_A = 30.] and [pg_sigma = 10.] *)
Definition pg_A : R := 30.
Definition pg_sigma : R := 10.

(** [pg_mu = 25 + random.randint(0, 9) * 50], for the integer [k] that
    [random.randint(0, 9)] draws. *)
Definition pg_mu (k : Z) : Z := 25 + k * 50.

(** [rates[j] = pg_A * np.exp((-1 * (j - pg_mu)**2) / (2 * pg_sigma**2))] *)
Definition rates (pg_mu j : Z) : R :=
  pg_A * exp ((-1 * IZR ((j - pg_mu) ^ 2)) / (2 * pg_sigma ^ 2)).

(** [pg[j].rate = rates[j] * 1.75] *)
Definition pg_rate (pg_mu j : Z) : R := rates pg_mu j * (175 / 100).

End ClopathInput.

(** The matrix of the weights among the excitatory neurons. *)

Module ClopathWeights.

Open Scope Q_scope.

(** A connection of [exc_conns], with the node ids of its two neurons. *)
Record Conn : Type := {
  source : nat;
  target : nat;
  weight : Q
}.

#[global] Instance Conn_inhabited : Inhabited Conn :=
  populate {| source := 0; target := 0; weight := 0 |}.

(** [np.argsort(keys)] returns positions [idx], each once, such that
    [keys[idx]] is ascending.  Which of several such [idx] it returns when keys
    repeat is not fixed (the default sort is not stable). *)
Definition sorts (keys idx : list nat) : Prop :=
  idx ≡ₚ seq 0 (length keys) ∧
  Sorted le ((λ i, default 0%nat (keys !! i)) <$> idx).

Definition is_argsort (argsort : list nat → list nat) : Prop :=
  ∀ keys, sorts keys (argsort keys).

(** One such function, for running the cell: a merge sort of the
    positions. *)
Definition key_le (keys : list nat) (i j : nat) : Prop :=
  (default 0 (keys !! i) ≤ default 0 (keys !! j))%nat.

#[global] Instance key_le_dec keys i j : Decision (key_le keys i j).
Proof. unfold key_le. apply _. Defined.

Definition merge_argsort (keys : list nat) : list nat :=
  merge_sort (key_le keys) (seq 0 (length keys)).

(** [l[np.argsort(keys)]] for the keys of the elements of [l]; [d] is never
    read. *)
Definition permuted {A} (argsort : list nat → list nat) (d : A)
    (key : A → nat) (l : list A) : list A :=
  (λ i, default d (l !! i)) <$> argsort (key <$> l).

(** The rows of [np.reshape(a, (rows, cols))]. *)
Fixpoint chunks {A} (rows cols : nat) (a : list A) : list (list A) :=
  match rows with
  | O => []
  | S rows' => take cols a :: chunks rows' cols (drop cols a)
  end.

Definition reshape {A} (rows cols : nat) (a : list A)
  : result (list (list A)) :=
  if decide (length a = rows * cols)%nat then Ok (chunks rows cols a)
  else Raise ValueError.

(** [np.zeros((n, m))] and [np.ones((n, m))] *)
Definition zeros2 (n m : nat) : list (list Q) := replicate n (replicate m 0).
Definition ones2 (n m : nat) : list (list Q) := replicate n (replicate m 1).

(** [np.identity(n)] *)
Definition identity (n : nat) : list (list Q) :=
  (λ i, (λ j, if decide (i = j) then 1 else 0) <$> seq 0 n) <$> seq 0 n.

(** The positions [(i, j)] of an [n] by [m] array that satisfy [keep], row by
    row, as [np.nonzero] lists them. *)
Definition positions_where (n m : nat) (keep : nat → nat → bool)
  : list (nat * nat) :=
  i ← seq 0 n; j ← seq 0 m; if keep i j then [(i, j)] else [].

(** [np.triu_indices(n, k, m)]: the positions with [j >= i + k]. *)
Definition triu_indices (n : nat) (k : Z) (m : nat) : list (nat * nat) :=
  positions_where n m (λ i j, (Z.of_nat i + k <=? Z.of_nat j)%Z).

(** [np.tril_indices(n, k, m)]: the positions with [j <= i + k]. *)
Definition tril_indices (n : nat) (k : Z) (m : nat) : list (nat * nat) :=
  positions_where n m (λ i j, (Z.of_nat j <=? Z.of_nat i + k)%Z).

(** The shape of a two-dimensional array with at least one row. *)
Definition nrows {A} (M : list (list A)) : nat := length M.
Definition ncols {A} (M : list (list A)) : nat := length (default [] (head M)).

(** [np.triu_indices_from(arr, k)] and [np.tril_indices_from(arr, k)] *)
Definition triu_indices_from {A} (arr : list (list A)) (k : Z) :=
  triu_indices (nrows arr) k (ncols arr).
Definition tril_indices_from {A} (arr : list (list A)) (k : Z) :=
  tril_indices (nrows arr) k (ncols arr).

(** [M[i, j]] *)
Definition getitem2 {A} (M : list (list A)) (ij : nat * nat) : result A :=
  row ← Np.getitem M ij.1; Np.getitem row ij.2.

(** [M[ps[0], ps[1]]] for a list of positions: the entries at the positions,
    in their order. *)
Definition gather2 {A} (M : list (list A)) (ps : list (nat * nat))
  : result (list A) :=
  MesoPost.comprehension (getitem2 M) ps.

Definition setitem2 (M : list (list Q)) (ij : nat * nat) (v : Q)
  : list (list Q) :=
  <[ij.1 := <[ij.2 := v]> (default [] (M !! ij.1))]> M.

(** [M[ps[0], ps[1]] = vs]: the values are broadcast to the number of
    positions ([ValueError] when that is impossible), every position is
    checked ([IndexError]), and then the values are stored one by one. *)
Definition scatter2 (M : list (list Q)) (ps : list (nat * nat)) (vs : list Q)
  : result (list (list Q)) :=
  vs' ← (if decide (length vs = length ps) then Ok vs
         else match vs with
              | [v] => Ok (replicate (length ps) v)
              | _ => Raise ValueError
              end);
  _ ← gather2 M ps;
  Ok (foldl (λ M' pv, setitem2 M' pv.1 pv.2) M (zip ps vs')).

(** [M[i] = v] for a row [v]: the row is broadcast to the width of [M]. *)
Definition setrow (M : list (list Q)) (i : nat) (v : list Q)
  : result (list (list Q)) :=
  row ← Np.getitem M i;
  v' ← (if decide (length v = length row) then Ok v
        else match v with
             | [x] => Ok (replicate (length row) x)
             | _ => Raise ValueError
             end);
  Ok (<[i := v']> M).

Section Cell.

(** The function that [np.argsort] computes. *)
Variable argsort : list nat → list nat.

Variable N_exc : nat.
Variable w_exc_exc : Q.

(** [np.reshape(a, (N_exc, N_exc - 1))]; for [N_exc = 0] the shape is
    [(0, -1)], which numpy refuses. *)
Definition reshape_rows {A} (a : list A) : result (list (list A)) :=
  if decide (N_exc = 0)%nat then Raise ValueError
  else reshape N_exc (N_exc - 1) a.

(** The loop that sorts each row of [weights] by the targets of the row:
    [for i, (trgs, ws) in enumerate(zip(targets, weights))].  [ws] is a view
    of row [i] of [weights], the array that the loop stores into, so it is
    read from the array as it is when the loop reaches the row; [ws[idx_array]]
    is a new array. *)
Definition sort_rows (targets : list (list nat)) (weights : list (list Q))
  : result (list (list Q)) :=
  for_each
    (λ '(i, (trgs, _)) weights',
       ws ← Np.getitem weights' i;
       let idx_array := argsort trgs in
       sorted ← Np.take_indices ws idx_array;
       setrow weights' i sorted)
    (Np.enumerate (zip targets weights)) weights.

(** [weights], sorted by source and, within a source, by target. *)
Definition sorted_weights (exc_conns : list Conn) : result (list (list Q)) :=
  let idx_array := argsort (source <$> exc_conns) in
  ts ← Np.take_indices (target <$> exc_conns) idx_array;
  targets ← reshape_rows ts;
  ws ← Np.take_indices (weight <$> exc_conns) idx_array;
  weights ← reshape_rows ws;
  sort_rows targets weights.

(** [weight_matrix]: the upper and the lower triangle of [weights] on both
    sides of a diagonal of zeros. *)
Definition fill_weight_matrix (weights : list (list Q))
  : result (list (list Q)) :=
  let weight_matrix := zeros2 N_exc N_exc in
  let tu10 := triu_indices_from weight_matrix 1 in
  let tu9 := triu_indices_from weights 0 in
  upper ← gather2 weights tu9;
  weight_matrix ← scatter2 weight_matrix tu10 upper;
  let tl10 := tril_indices_from weight_matrix (-1) in
  let tl9 := tril_indices_from weights (-1) in
  lower ← gather2 weights tl9;
  scatter2 weight_matrix tl10 lower.

(** [(np.ones((N_exc, N_exc)) - np.identity(N_exc)) * w_exc_exc]; the two
    arrays have the same shape. *)
Definition init_w_matrix : list (list Q) :=
  (λ row : list Q, (λ x, x * w_exc_exc) <$> row)
    <$> zip_with (zip_with Qminus) (ones2 N_exc N_exc) (identity N_exc).

(** The cell: [weight_matrix], [init_w_matrix] and [diff_weight_matrix]. *)
Definition weight_matrices (exc_conns : list Conn)
  : result (list (list Q) * list (list Q) * list (list Q)) :=
  weights ← sorted_weights exc_conns;
  weight_matrix ← fill_weight_matrix weights;
  let diff_weight_matrix :=
    zip_with (zip_with Qminus) weight_matrix init_w_matrix in
  Ok (weight_matrix, init_w_matrix, diff_weight_matrix).

End Cell.

(** [N_exc = 10] and [w_exc_exc = 0.25] *)
Definition N_exc : nat := 10.
Definition w_exc_exc : Q := 1 # 4.

(** The connections from the neuron [s] to the other neurons of [ids], and
    all connections among the neurons [ids], none from a neuron to itself
    ([all_to_all] without autapses), with the weights [w]. *)
Definition connections_from (ids : list nat) (w : nat → nat → Q) (s : nat)
  : list Conn :=
  t ← ids;
  if decide (s = t) then []
  else [{| source := s; target := t; weight := w s t |}].

Definition all_to_all (ids : list nat) (w : nat → nat → Q) : list Conn :=
  s ← ids; connections_from ids w s.

(** The matrix of the weights [w] among the neurons [ids], with zeros on the
    diagonal. *)
Definition weights_of (ids : list nat) (w : nat → nat → Q) : list (list Q) :=
  (λ s, (λ t, if decide (s = t) then 0 else w s t) <$> ids) <$> ids.

(** The [n] by [n] array with the entries [f i j]. *)
Definition grid (n : nat) (f : nat → nat → Q) : list (list Q) :=
  (λ i, (λ j, f i j) <$> seq 0 n) <$> seq 0 n.

(** Entry by entry the same numbers. *)
Definition same_entries (M1 M2 : list (list Q)) : Prop :=
  Forall2 (Forall2 Qeq) M1 M2.

End ClopathWeights.

(** * Theory *)

(** ** The result monad and the numpy operations *)

Module NpFacts.

Import Np.
Open Scope Q_scope.

Lemma bind_Ok {A B} (f : A → result B) (a : A) : (Ok a ≫= f) = f a.
Proof. reflexivity. Qed.

Lemma bind_Ok_inv {A B} (f : A → result B) (m : result A) (b : B) :
  (m ≫= f) = Ok b → ∃ a, m = Ok a ∧ f a = Ok b.
Proof. destruct m as [a|e]; [eauto | discriminate]. Qed.

Lemma getitem_Some {A} (a : list A) i x : a !! i = Some x → getitem a i = Ok x.
Proof. unfold getitem. now intros ->. Qed.

Lemma getitem_Ok {A} (a : list A) i x : getitem a i = Ok x ↔ a !! i = Some x.
Proof.
  unfold getitem. destruct (a !! i); split; intros H; congruence.
Qed.

Lemma getitem_Raise {A} (a : list A) i e :
  getitem a i = Raise e ↔ (length a ≤ i)%nat ∧ e = IndexError.
Proof.
  unfold getitem. destruct (a !! i) eqn:E.
  - apply lookup_lt_Some in E. split; [discriminate | lia].
  - apply lookup_ge_None in E. split; [intros [= <-]; auto | intros [_ ->]; auto].
Qed.

Lemma length_slice_to_last {A} (a : list A) :
  length (slice_to_last a) = (length a - 1)%nat.
Proof. unfold slice_to_last. rewrite length_take. lia. Qed.

Lemma lookup_slice_to_last {A} (a : list A) j :
  (S j < length a)%nat → slice_to_last a !! j = a !! j.
Proof. intros H. unfold slice_to_last. apply lookup_take_lt. lia. Qed.

Lemma take_indices_fmap {A} (a : list A) (c : nat → A) js :
  (∀ j, j ∈ js → a !! j = Some (c j)) →
  take_indices a js = Ok (c <$> js).
Proof.
  induction js as [|j js IH]; intros H; simpl; [reflexivity|].
  rewrite (getitem_Some a j (c j)) by (apply H; left).
  rewrite bind_Ok, IH by (intros; apply H; now right).
  reflexivity.
Qed.

Lemma broadcast_same_length op a b :
  length a = length b → broadcast op a b = Ok (zip_with op a b).
Proof. intros H. unfold broadcast. now rewrite decide_True. Qed.

Lemma foldl_Qplus_foldr (f : nat → Q) js a :
  foldl Qplus a (f <$> js) == a + foldr (λ j acc, f j + acc) 0 js.
Proof.
  revert a. induction js as [|j js IH]; intros a; simpl.
  - ring.
  - rewrite IH. ring.
Qed.

Lemma foldr_Qplus_ext (f g : nat → Q) js :
  (∀ j, j ∈ js → f j == g j) →
  foldr (λ j acc, f j + acc) 0 js == foldr (λ j acc, g j + acc) 0 js.
Proof.
  induction js as [|j js IH]; intros H; simpl; [reflexivity|].
  rewrite (H j) by left. rewrite IH by (intros; apply H; now right).
  reflexivity.
Qed.

Lemma foldr_Qplus_le (f g : nat → Q) js :
  (∀ j, j ∈ js → f j <= g j) →
  foldr (λ j acc, f j + acc) 0 js <= foldr (λ j acc, g j + acc) 0 js.
Proof.
  induction js as [|j js IH]; intros H; simpl; [apply Qle_refl|].
  apply Qplus_le_compat; [apply H; left | apply IH; intros; apply H; now right].
Qed.

(** Rounding *)

Lemma astype_int_inject_Z z : astype_int (inject_Z z) = z.
Proof. unfold astype_int. simpl. apply Z.quot_1_r. Qed.

Lemma astype_int_round x : astype_int (round x) = round_half_even x.
Proof. apply astype_int_inject_Z. Qed.

Lemma Qfloor_proper x y : x == y → Qfloor x = Qfloor y.
Proof. intros H. now rewrite H. Qed.

Lemma round_half_even_proper x y :
  x == y → round_half_even x = round_half_even y.
Proof.
  intros H. unfold round_half_even.
  rewrite (Qfloor_proper x y H).
  assert (E : (x - inject_Z (Qfloor y) ?= 1 # 2) = (y - inject_Z (Qfloor y) ?= 1 # 2)).
  { apply Qcompare_comp; [now rewrite H | reflexivity]. }
  now rewrite E.
Qed.

(** The fractional part lies in [0, 1). *)
Lemma frac_bounds x :
  0 <= x - inject_Z (Qfloor x) ∧ x - inject_Z (Qfloor x) < 1.
Proof.
  pose proof (Qfloor_le x) as H1. pose proof (Qlt_floor x) as H2.
  rewrite inject_Z_plus in H2. change (inject_Z 1) with 1 in H2.
  split; lra.
Qed.

(** [round_half_even] is a nearest integer. *)
Lemma round_half_even_nearest x :
  Qabs (inject_Z (round_half_even x) - x) <= 1 # 2.
Proof.
  destruct (frac_bounds x) as [H1 H2].
  unfold round_half_even.
  destruct (Qcompare_spec (x - inject_Z (Qfloor x)) (1 # 2)) as [E|E|E].
  - destruct (Z.even (Qfloor x)); [|rewrite inject_Z_plus; change (inject_Z 1) with 1];
      apply Qabs_Qle_condition; split; lra.
  - apply Qabs_Qle_condition; split; lra.
  - rewrite inject_Z_plus; change (inject_Z 1) with 1.
    apply Qabs_Qle_condition; split; lra.
Qed.

Lemma Qfloor_unique x n :
  inject_Z n <= x → x < inject_Z (n + 1) → Qfloor x = n.
Proof.
  intros H1 H2.
  pose proof (Qfloor_le x) as F1. pose proof (Qlt_floor x) as F2.
  assert (L1 : inject_Z n < inject_Z (Qfloor x + 1)) by lra.
  assert (L2 : inject_Z (Qfloor x) < inject_Z (n + 1)) by lra.
  rewrite <- Zlt_Qlt in L1, L2. lia.
Qed.

Lemma round_half_even_bounds x :
  (Qfloor x <= round_half_even x <= Qfloor x + 1)%Z.
Proof.
  unfold round_half_even.
  destruct (Qcompare _ _); [destruct (Z.even _)| |]; lia.
Qed.

Lemma round_half_even_mono x y :
  x <= y → (round_half_even x <= round_half_even y)%Z.
Proof.
  intros Hxy.
  pose proof (Qfloor_resp_le x y Hxy) as Hf.
  destruct (Z.eq_dec (Qfloor x) (Qfloor y)) as [E|NE].
  - unfold round_half_even. rewrite <- E.
    destruct (Qcompare_spec (x - inject_Z (Qfloor x)) (1 # 2)) as [Ex|Ex|Ex];
    destruct (Qcompare_spec (y - inject_Z (Qfloor x)) (1 # 2)) as [Ey|Ey|Ey];
      try destruct (Z.even (Qfloor x)); try lia; exfalso; lra.
  - pose proof (round_half_even_bounds x). pose proof (round_half_even_bounds y).
    lia.
Qed.

(** A tie goes to the even neighbour. *)
Lemma round_half_even_tie x n :
  x == inject_Z n + (1 # 2) →
  round_half_even x = if Z.even n then n else (n + 1)%Z.
Proof.
  intros H.
  assert (F : Qfloor x = n).
  { apply Qfloor_unique; [lra|]. rewrite inject_Z_plus.
    change (inject_Z 1) with 1. lra. }
  unfold round_half_even. rewrite F.
  destruct (Qcompare_spec (x - inject_Z n) (1 # 2)) as [E|E|E];
    [reflexivity | exfalso; lra | exfalso; lra].
Qed.

Lemma round_half_even_Z n : round_half_even (inject_Z n) = n.
Proof.
  unfold round_half_even. rewrite Qfloor_Z.
  destruct (Qcompare_spec (inject_Z n - inject_Z n) (1 # 2)) as [E|E|E];
    [exfalso; lra | reflexivity | exfalso; lra].
Qed.

Lemma round_half_even_nonneg x :
  (0 <= round_half_even x)%Z ↔ -(1 # 2) <= x.
Proof.
  split; intros H.
  - pose proof (round_half_even_nearest x) as N.
    apply Qabs_Qle_condition in N. destruct N as [N1 N2].
    rewrite Zle_Qle in H. change (inject_Z 0) with 0 in H. lra.
  - apply (round_half_even_mono _ _) in H.
    rewrite (round_half_even_tie (-(1 # 2)) (-1)) in H by reflexivity.
    exact H.
Qed.

(** *** The limits of the machine numbers *)

Lemma astype_int64_in_range x :
  in_int64 (astype_int x) → astype_int64 x = astype_int x.
Proof. intros H. unfold astype_int64. now rewrite decide_True. Qed.

Lemma astype_int64_out_of_range x :
  ¬ in_int64 (astype_int x) → astype_int64 x = int64_min.
Proof. intros H. unfold astype_int64. now rewrite decide_False. Qed.

Lemma astype_int64_round x :
  in_int64 (round_half_even x) →
  astype_int64 (round x) = round_half_even x.
Proof.
  intros H. rewrite astype_int64_in_range; rewrite astype_int_round; auto.
Qed.

(** [round_half_even] is the nearest integer, and the even one at a tie;
    no other integer is. *)
Lemma inject_Z_minus a b : inject_Z (a - b) == inject_Z a - inject_Z b.
Proof.
  unfold Z.sub. rewrite inject_Z_plus, inject_Z_opp. reflexivity.
Qed.

Lemma round_half_even_nearest_even x : nearest_even (round_half_even x) x.
Proof.
  split; [apply round_half_even_nearest|].
  set (k := round_half_even x). intros Habs.
  destruct (Qlt_le_dec (inject_Z k - x) 0) as [Hneg|Hpos].
  - rewrite Qabs_neg in Habs by lra.
    assert (Hx : x == inject_Z k + (1 # 2)) by lra.
    pose proof (round_half_even_tie x k Hx) as Hk. fold k in Hk.
    destruct (Z.even k); [reflexivity|lia].
  - rewrite Qabs_pos in Habs by lra.
    assert (Hx : x == inject_Z (k - 1) + (1 # 2)).
    { rewrite inject_Z_minus. change (inject_Z 1) with 1. lra. }
    pose proof (round_half_even_tie x (k - 1) Hx) as Hk. fold k in Hk.
    destruct (Z.even (k - 1)) eqn:E; [lia|].
    rewrite Z.even_sub in E. destruct (Z.even k); [reflexivity|discriminate].
Qed.


Lemma binary64_proper x y : x == y → binary64 x → binary64 y.
Proof.
  intros E (m & e & Hm & He & Hx). exists m, e.
  split; [exact Hm|]. split; [exact He|]. now rewrite <- E.
Qed.

Lemma binary64_at_sound e x :
  (-1074 <= e <= 971)%Z → binary64_at e x = true → binary64 x.
Proof.
  intros He H. unfold binary64_at in H.
  apply andb_true_iff in H as [Hd Hm].
  apply Pos.eqb_eq in Hd. apply Z.ltb_lt in Hm.
  exists (Qnum (Qred (x * 2 ^ (- e)))), e.
  split; [exact Hm|]. split; [exact He|].
  assert (Hy : inject_Z (Qnum (Qred (x * 2 ^ (- e)))) == x * 2 ^ (- e)).
  { rewrite <- (Qred_correct (x * 2 ^ (- e))) at 2.
    destruct (Qred (x * 2 ^ (- e))) as [n d]. simpl in *. subst d.
    reflexivity. }
  rewrite Hy, <- Qmult_assoc, <- Qpower_plus by discriminate.
  replace (- e + e)%Z with 0%Z by lia. simpl. ring.
Qed.


Lemma Qabs_sum_le (l : list Q) : Qabs (sum l) <= sum (Qabs <$> l).
Proof.
  unfold sum.
  assert (G : ∀ a b, Qabs a <= b →
            Qabs (foldl Qplus a l) <= foldl Qplus b (Qabs <$> l)).
  { induction l as [|x l IH]; intros a b Hab; [exact Hab|].
    cbn [foldl fmap list_fmap]. apply IH.
    pose proof (Qabs_triangle a x). lra. }
  apply G. apply Qabs_Qle_condition. split; lra.
Qed.

(** A total of at most [2^62] in absolute value is rounded to a number in
    the range of [int64]. *)
Lemma round_half_even_in_int64 x :
  Qabs x <= 2 ^ 62 → in_int64 (round_half_even x).
Proof.
  intros H. apply Qabs_Qle_condition in H as [H1 H2].
  change (2 ^ 62) with (inject_Z (2 ^ 62)) in H1, H2.
  change (- inject_Z (2 ^ 62)) with (inject_Z (- 2 ^ 62)) in H1.
  apply round_half_even_mono in H1, H2.
  rewrite round_half_even_Z in H1, H2.
  unfold in_int64, int64_min, int64_max. lia.
Qed.

End NpFacts.

(** ** The compensation of the external in-degree *)

Module MesocircuitFacts.

Import Np NpFacts Mesocircuit.
Open Scope Q_scope.

Lemma at0_lookup (a : list Q) j : (j < length a)%nat → a !! j = Some (at0 a j).
Proof.
  intros H. unfold at0. destruct (lookup_lt_is_Some_2 a j H) as [x ->].
  reflexivity.
Qed.

Lemma at00_row (m : list (list Q)) i row j :
  m !! i = Some row → at00 m i j = at0 row j.
Proof. unfold at00. now intros ->. Qed.

Lemma row_length_Some (m : list (list Q)) i n :
  row_length m i = Some n ↔ ∃ row, m !! i = Some row ∧ length row = n.
Proof.
  unfold row_length. destruct (m !! i) as [row|]; simpl; split.
  - intros [= <-]. eauto.
  - intros (row' & [= <-] & <-). reflexivity.
  - discriminate.
  - intros (row' & [=] & _).
Qed.

Lemma code_term_spec nd np rates tau_syn ipopid j :
  code_term nd np rates tau_syn ipopid j ==
  spec_contribution (at00 (weight_matrix_mean nd) ipopid j) (at0 tau_syn j)
    (weight_ext nd) (tau_syn_ex np) (at0 rates j) (bg_rate nd)
    (at00 (indegrees nd) ipopid j).
Proof. unfold code_term, spec_contribution. ring. Qed.

Section Shaped.

Variables (nd : NetDict) (np : NeuronParams) (rates tau_syn : list Q).
Variables (ipopid n : nat) (wrow krow : list Q).
Hypothesis Hw : weight_matrix_mean nd !! ipopid = Some wrow.
Hypothesis Hk : indegrees nd !! ipopid = Some krow.
Hypothesis Lw : length wrow = S n.
Hypothesis Lk : length krow = S n.
Hypothesis Lr : length rates = n.
Hypothesis Lt : length tau_syn = n.

(** With matching shapes no operand is broadcast and [rec_input] has one
    entry per cortical population. *)
Lemma rec_input_shaped :
  ∃ l, rec_input nd np rates tau_syn ipopid = Ok l ∧ length l = n ∧
       ∀ j, (j < n)%nat →
            l !! j = Some (code_term nd np rates tau_syn ipopid j).
Proof.
  unfold rec_input.
  rewrite (getitem_Some _ _ _ Hw), bind_Ok.
  rewrite broadcast_same_length
    by (rewrite length_slice_to_last; lia).
  rewrite bind_Ok. cbv zeta.
  rewrite broadcast_same_length; cycle 1.
  { unfold div_scalar. rewrite !length_fmap, length_zip_with_l_eq;
      rewrite length_slice_to_last; lia. }
  rewrite bind_Ok, (getitem_Some _ _ _ Hk), bind_Ok.
  assert (L1 : length (zip_with Qmult (slice_to_last wrow) tau_syn) = n).
  { rewrite length_zip_with_l_eq; rewrite length_slice_to_last; lia. }
  assert (L2 : length (zip_with Qmult (div_scalar rates (bg_rate nd))
            (div_scalar (zip_with Qmult (slice_to_last wrow) tau_syn)
               (weight_ext nd * tau_syn_ex np))) = n).
  { unfold div_scalar. rewrite length_zip_with_l_eq; rewrite !length_fmap; lia. }
  rewrite broadcast_same_length
    by (rewrite L2, length_slice_to_last; lia).
  eexists. split; [reflexivity|]. split.
  { rewrite length_zip_with_l_eq; rewrite ?L2, ?length_slice_to_last; lia. }
  intros j Hj. unfold div_scalar, code_term.
  rewrite !lookup_zip_with, !list_lookup_fmap, !lookup_zip_with.
  rewrite !lookup_slice_to_last by lia.
  rewrite (at00_row _ _ _ _ Hw), (at00_row _ _ _ _ Hk).
  rewrite (at0_lookup rates j), (at0_lookup wrow j), (at0_lookup krow j),
    (at0_lookup tau_syn j) by lia.
  reflexivity.
Qed.

End Shaped.

(** *** The two loops *)

Lemma zeros_S n : zeros (S n) = 0 :: zeros n.
Proof. reflexivity. Qed.

Lemma iadd_item_app (done rest : list Q) x v :
  iadd_item (done ++ x :: rest) (length done) v = Ok (done ++ (x + v) :: rest).
Proof.
  unfold iadd_item.
  rewrite (getitem_Some _ _ x) by (now rewrite list_lookup_middle).
  rewrite bind_Ok.
  replace (length done) with (length done + 0)%nat at 1 by lia.
  now rewrite insert_app_r.
Qed.

Section Loops.

Variables (nd : NetDict) (np : NeuronParams) (rates tau_syn : list Q).
Variable excluded : list nat.
(** What one iteration reads: [rec_input] and its excluded entries. *)
Variable picked : nat → list Q.

Lemma loop_body_ok (done rest : list Q) ipopid x :
  (rec ← rec_input nd np rates tau_syn ipopid; take_indices rec excluded)
    = Ok (picked ipopid) →
  loop_body nd np rates tau_syn excluded (length done, ipopid)
            (done ++ x :: rest)
  = Ok (done ++ (x + sum (picked ipopid)) :: rest).
Proof.
  intros H. unfold loop_body, add_excluded.
  apply bind_Ok_inv in H. destruct H as (rec & -> & Hp).
  rewrite bind_Ok. simpl. rewrite Hp, bind_Ok, iadd_item_app.
  reflexivity.
Qed.

Lemma for_each_loop_body (included : list nat) : ∀ (done : list Q),
  (∀ ipopid, ipopid ∈ included →
     (rec ← rec_input nd np rates tau_syn ipopid; take_indices rec excluded)
     = Ok (picked ipopid)) →
  for_each (loop_body nd np rates tau_syn excluded)
           (imap (λ i x, ((length done + i)%nat, x)) included)
           (done ++ zeros (length included))
  = Ok (done ++ ((λ ipopid, 0 + sum (picked ipopid)) <$> included)).
Proof.
  induction included as [|ipopid included IH]; intros done H.
  - reflexivity.
  - rewrite imap_cons. cbn [for_each length]. rewrite zeros_S.
    rewrite Nat.add_0_r.
    rewrite (loop_body_ok done (zeros (length included)) ipopid 0)
      by (apply H; left).
    rewrite bind_Ok.
    specialize (IH (done ++ [0 + sum (picked ipopid)])).
    rewrite <- !app_assoc in IH. cbn [app] in IH.
    rewrite fmap_cons, <- IH by (intros; apply H; now right).
    f_equal. apply imap_ext. intros i x _. cbn.
    rewrite length_app. cbn. f_equal. lia.
Qed.

(** The cell succeeds when every iteration can read its entries, and
    then holds one sum per included population. *)
Lemma indegree_modifications_for_ok (included : list nat) :
  (∀ ipopid, ipopid ∈ included →
     (rec ← rec_input nd np rates tau_syn ipopid; take_indices rec excluded)
     = Ok (picked ipopid)) →
  indegree_modifications_for nd np rates tau_syn included excluded
  = Ok ((λ ipopid, 0 + sum (picked ipopid)) <$> included).
Proof.
  intros H. exact (for_each_loop_body included [] H).
Qed.

End Loops.

(** *** The cell on the shapes of the mesocircuit model *)

Lemma sum_code_term_spec nd np rates tau_syn excluded ipopid :
  0 + sum (code_term nd np rates tau_syn ipopid <$> excluded)
  == spec_modification nd np rates tau_syn excluded ipopid.
Proof.
  unfold sum, spec_modification, sum_over.
  rewrite foldl_Qplus_foldr.
  rewrite (foldr_Qplus_ext _ _ excluded
             (λ j _, code_term_spec nd np rates tau_syn ipopid j)).
  ring.
Qed.

Lemma well_shaped_reads nd np rates tau_syn excluded ipopid :
  well_shaped nd rates tau_syn →
  Forall (λ j, (j < 8)%nat) excluded →
  ipopid ∈ included_popids →
  (rec ← rec_input nd np rates tau_syn ipopid; take_indices rec excluded)
  = Ok (code_term nd np rates tau_syn ipopid <$> excluded).
Proof.
  intros (Lr & Lt & Hrows) Hex Hin.
  rewrite Forall_forall in Hrows. destruct (Hrows _ Hin) as [Hw Hk].
  apply row_length_Some in Hw, Hk.
  destruct Hw as (wrow & Hw & Lw), Hk as (krow & Hk & Lk).
  destruct (rec_input_shaped nd np rates tau_syn ipopid 8 wrow krow
              Hw Hk Lw Lk Lr Lt) as (l & -> & _ & Hl).
  rewrite bind_Ok. apply take_indices_fmap.
  intros j Hj. apply Hl. rewrite Forall_forall in Hex. now apply Hex.
Qed.

(** On well-shaped inputs the cell returns, for each included population,
    the sum of the specification, and the rounding cell returns the rounded
    total. *)
Lemma compensation_well_shaped nd np rates tau_syn excluded :
  well_shaped nd rates tau_syn →
  (8 ≤ length (ext_indegrees nd))%nat →
  Forall (λ j, (j < 8)%nat) excluded →
  ∃ mods,
    indegree_modifications_for nd np rates tau_syn included_popids excluded
      = Ok mods ∧
    mods = (λ ipopid, 0 + sum (code_term nd np rates tau_syn ipopid <$> excluded))
             <$> included_popids ∧
    ∀ i ipopid, included_popids !! i = Some ipopid →
      ∃ m, mods !! i = Some m ∧
           m == spec_modification nd np rates tau_syn excluded ipopid ∧
           K_ext nd mods ipopid i
           = Ok (round_half_even
                   (at0 (ext_indegrees nd) ipopid
                    + spec_modification nd np rates tau_syn excluded ipopid)).
Proof.
  intros Hs He Hex. eexists. split; [|split; [reflexivity|]].
  - apply indegree_modifications_for_ok. intros ipopid Hin.
    now apply well_shaped_reads.
  - intros i ipopid Hi.
    eexists. split; [rewrite list_lookup_fmap, Hi; reflexivity|].
    split; [apply sum_code_term_spec|].
    assert (Hlt : (ipopid < 8)%nat).
    { apply list_elem_of_lookup_2 in Hi. unfold included_popids in Hi.
      repeat (apply elem_of_cons in Hi as [->|Hi]); [lia | lia |].
      now apply elem_of_nil in Hi. }
    unfold K_ext.
    rewrite (getitem_Some _ _ _ (at0_lookup (ext_indegrees nd) ipopid ltac:(lia))).
    rewrite bind_Ok.
    rewrite (getitem_Some _ i
               (0 + sum (code_term nd np rates tau_syn ipopid <$> excluded)))
      by (rewrite list_lookup_fmap, Hi; reflexivity).
    rewrite bind_Ok, astype_int_round. f_equal.
    apply round_half_even_proper. now rewrite sum_code_term_spec.
Qed.

Lemma included_popids_lookup i ipopid :
  included_popids !! i = Some ipopid →
  (i = 0%nat ∧ ipopid = 6%nat) ∨ (i = 1%nat ∧ ipopid = 7%nat).
Proof.
  unfold included_popids.
  destruct i as [|[|i]]; cbn; intros [=]; subst; auto.
Qed.

(** A moderate run stays inside the range of [int64]. *)
Lemma moderate_run_in_int64 nd np rates tau_syn excluded ipopid :
  moderate_run nd np rates tau_syn excluded ipopid →
  in_int64 (round_half_even
              (at0 (ext_indegrees nd) ipopid
               + spec_modification nd np rates tau_syn excluded ipopid)).
Proof.
  intros [_ H]. apply round_half_even_in_int64.
  rewrite <- sum_code_term_spec. fold (picked_terms nd np rates tau_syn excluded ipopid).
  pose proof (Qabs_sum_le (picked_terms nd np rates tau_syn excluded ipopid)) as S.
  pose proof (Qabs_triangle (at0 (ext_indegrees nd) ipopid)
                (0 + sum (picked_terms nd np rates tau_syn excluded ipopid))) as T.
  assert (Z0 : Qabs (0 + sum (picked_terms nd np rates tau_syn excluded ipopid))
               == Qabs (sum (picked_terms nd np rates tau_syn excluded ipopid))).
  { apply Qabs_wd. ring. }
  lra.
Qed.



(** *** The first moment of the input *)






(** *** Rounding *)


Lemma K_ext_Ok_inv nd mods popid i k :
  K_ext nd mods popid i = Ok k →
  ∃ base m, ext_indegrees nd !! popid = Some base ∧ mods !! i = Some m ∧
            k = round_half_even (base + m).
Proof.
  unfold K_ext. intros H.
  apply bind_Ok_inv in H as (base & Hb%getitem_Ok & H).
  apply bind_Ok_inv in H as (m & Hm%getitem_Ok & [= <-]).
  exists base, m. now rewrite astype_int_round.
Qed.




(** *** No excluded population *)

(** With no excluded population an iteration adds the empty sum, whatever
    the shapes are. *)
Lemma loop_body_no_excluded nd np rates tau_syn (done rest : list Q) ipopid x r :
  loop_body nd np rates tau_syn [] (length done, ipopid) (done ++ x :: rest) = r →
  r = Ok (done ++ (x + 0) :: rest) ∨ ∃ e, r = Raise e.
Proof.
  intros <-. unfold loop_body, add_excluded.
  destruct (rec_input nd np rates tau_syn ipopid) as [rec|e]; [|eauto].
  left. rewrite bind_Ok. cbn [for_each take_indices]. rewrite bind_Ok.
  unfold sum. cbn [foldl]. now rewrite iadd_item_app.
Qed.

Lemma no_excluded_zero nd np rates tau_syn mods :
  indegree_modifications_for nd np rates tau_syn included_popids [] = Ok mods →
  mods = [0; 0].
Proof.
  unfold indegree_modifications_for, included_popids, enumerate.
  cbn [imap for_each length zeros replicate].
  intros H.
  apply bind_Ok_inv in H as (s1 & H1 & H).
  apply bind_Ok_inv in H as (s2 & H2 & [= <-]).
  apply (loop_body_no_excluded _ _ _ _ [] [0] 6 0) in H1
    as [[= ->] | [e [=]]].
  apply (loop_body_no_excluded _ _ _ _ [0 + 0] [] 7 0) in H2
    as [[= ->] | [e [=]]].
  reflexivity.
Qed.

(** C4, as stated, fails: in [fractional_table] the stored external
    in-degree of L6E is 5/2; with no excluded population the compensation is
    zero and the new in-degree is 2. *)
Lemma no_excluded_not_exact :
  (indegree_modifications_for fractional_table neuron_params unit_rates
     (make_tau_syn neuron_params) included_popids [] = Ok [0; 0] ∧
   ext_indegrees fractional_table !! 6%nat = Some (5 # 2) ∧
   K_ext_L6E fractional_table [0; 0] = Ok 2%Z) ∧
  ¬ (∀ nd np rates tau_syn mods i ipopid k,
       indegree_modifications_for nd np rates tau_syn included_popids []
         = Ok mods →
       included_popids !! i = Some ipopid →
       K_ext nd mods ipopid i = Ok k →
       inject_Z k == at0 (ext_indegrees nd) ipopid).
Proof.
  split; [repeat split; reflexivity|].
  intros H.
  specialize (H fractional_table neuron_params unit_rates
                (make_tau_syn neuron_params) [0; 0] 0%nat 6%nat 2%Z
                eq_refl eq_refl eq_refl).
  vm_compute in H. discriminate.
Qed.

(** C4, amended: for every parameter table, when no population is
    excluded the compensation of each included population is zero.  When
    the old external in-degree, rounded (half to even), lies in the range of
    [int64], the new external in-degree is that rounded number; it is the
    old one exactly when the old one is an integer.  When it lies outside
    the range the cast returns the smallest [int64] instead.  On the shapes
    of the mesocircuit model the cells do return these values. *)
Theorem no_excluded_rounds_original nd np rates tau_syn :
  (∀ mods,
     indegree_modifications_for nd np rates tau_syn included_popids []
       = Ok mods →
     mods = [0; 0] ∧
     ∀ i ipopid k,
       included_popids !! i = Some ipopid →
       K_ext nd mods ipopid i = Ok k →
       (in_int64 k →
        astype_int64 (round (at0 (ext_indegrees nd) ipopid + at0 mods i)) = k ∧
        k = round_half_even (at0 (ext_indegrees nd) ipopid) ∧
        nearest_even k (at0 (ext_indegrees nd) ipopid) ∧
        ∀ z, at0 (ext_indegrees nd) ipopid == inject_Z z → k = z) ∧
       (¬ in_int64 k →
        astype_int64 (round (at0 (ext_indegrees nd) ipopid + at0 mods i))
        = int64_min))
  ∧
  (well_shaped nd rates tau_syn → (8 ≤ length (ext_indegrees nd))%nat →
   indegree_modifications_for nd np rates tau_syn included_popids []
     = Ok [0; 0] ∧
   ∀ i ipopid,
     included_popids !! i = Some ipopid →
     in_int64 (round_half_even (at0 (ext_indegrees nd) ipopid)) →
     K_ext nd [0; 0] ipopid i
     = Ok (round_half_even (at0 (ext_indegrees nd) ipopid)) ∧
     astype_int64 (round (at0 (ext_indegrees nd) ipopid + at0 [0; 0] i))
     = round_half_even (at0 (ext_indegrees nd) ipopid)).
Proof.
  assert (Hround : ∀ i ipopid k,
    included_popids !! i = Some ipopid →
    K_ext nd [0; 0] ipopid i = Ok k →
    k = round_half_even (at0 (ext_indegrees nd) ipopid) ∧
    k = round_half_even (at0 (ext_indegrees nd) ipopid + at0 [0; 0] i)).
  { intros i ipopid k Hi Hk.
    apply K_ext_Ok_inv in Hk as (base & m & Hb & Hm & ->).
    unfold at0. rewrite Hb, Hm. cbn [default]. split; [|reflexivity].
    apply round_half_even_proper.
    apply included_popids_lookup in Hi as [[-> _]|[-> _]];
      cbn in Hm; injection Hm as <-; unfold Datatypes.id; ring. }
  split.
  - intros mods Hrun. apply no_excluded_zero in Hrun as ->.
    split; [reflexivity|]. intros i ipopid k Hi Hk.
    destruct (Hround i ipopid k Hi Hk) as [Hk1 Hk2].
    split.
    + intros Hin. split.
      { rewrite astype_int64_round; rewrite <- Hk2; [reflexivity|exact Hin]. }
      split; [exact Hk1|].
      split; [rewrite Hk1; apply round_half_even_nearest_even|].
      intros z Hz. rewrite Hk1, (round_half_even_proper _ _ Hz).
      apply round_half_even_Z.
    + intros Hout. apply astype_int64_out_of_range.
      now rewrite astype_int_round, <- Hk2.
  - intros Hs He.
    destruct (compensation_well_shaped nd np rates tau_syn [] Hs He)
      as (mods & Hrun & _ & Hm); [constructor|].
    pose proof (no_excluded_zero _ _ _ _ _ Hrun) as ->.
    split; [exact Hrun|]. intros i ipopid Hi Hin.
    destruct (Hm i ipopid Hi) as (m & _ & _ & Hk).
    destruct (Hround i ipopid _ Hi Hk) as [Hk1 Hk2].
    split; [rewrite Hk; f_equal; exact Hk1|].
    rewrite astype_int64_round; rewrite <- Hk2, Hk1; [reflexivity|exact Hin].
Qed.

Lemma no_excluded_rounds_original_witness :
  indegree_modifications_for fractional_table neuron_params unit_rates
    (make_tau_syn neuron_params) included_popids [] = Ok [0; 0] ∧
  ∀ i ipopid,
    included_popids !! i = Some ipopid →
    in_int64 (round_half_even (at0 (ext_indegrees fractional_table) ipopid)) →
    K_ext fractional_table [0; 0] ipopid i
    = Ok (round_half_even (at0 (ext_indegrees fractional_table) ipopid)) ∧
    astype_int64
      (round (at0 (ext_indegrees fractional_table) ipopid + at0 [0; 0] i))
    = round_half_even (at0 (ext_indegrees fractional_table) ipopid).
Proof.
  apply (proj2 (no_excluded_rounds_original fractional_table neuron_params
                  unit_rates (make_tau_syn neuron_params))).
  - split; [reflexivity|]. split; [reflexivity|]. repeat constructor.
  - cbn. lia.
Defined.

(** *** The sign of the new in-degree *)

(** C6, as stated, fails: in [inhibitory_table] the only excluded input to
    L6E is inhibitory (weight -1, time constant 8, in-degree 1, against an
    external weight 1 with time constant 2), the cell accepts the table and
    computes the compensation -4, and the new in-degree of L6E is -4. *)
Lemma new_indegree_can_be_negative :
  (∃ m6 m7,
     indegree_modifications inhibitory_table neuron_params unit_rates
       (make_tau_syn neuron_params) = Ok [m6; m7] ∧
     m6 == -4 ∧
     K_ext_L6E inhibitory_table [m6; m7] = Ok (-4)%Z) ∧
  ¬ (∀ nd np rates tau_syn mods k,
       indegree_modifications nd np rates tau_syn = Ok mods →
       K_ext_L6E nd mods = Ok k → (0 <= k)%Z).
Proof.
  split.
  - eexists _, _. split; [vm_compute; reflexivity|]. split; reflexivity.
  - intros H.
    specialize (H inhibitory_table neuron_params unit_rates
                  (make_tau_syn neuron_params) _ (-4)%Z eq_refl eq_refl).
    lia.
Qed.

(** C6, amended: whenever the rounding cell accepts a table and a vector
    of modifications (such as the one that the compensation cell returned),
    the new external in-degree is an integer.  When the sum of the old
    in-degree and the modification is a binary64 number and its rounded
    value lies in the range of [int64], the new in-degree is that rounded
    value, and it is non-negative exactly when the sum is at least -1/2.
    When the rounded value lies outside the range, the cast returns the
    smallest [int64], a negative number. *)
Theorem new_indegree_integer nd mods i ipopid k :
  K_ext nd mods ipopid i = Ok k →
  binary64 (at0 (ext_indegrees nd) ipopid + at0 mods i) →
  (in_int64 k →
   astype_int64 (round (at0 (ext_indegrees nd) ipopid + at0 mods i)) = k ∧
   nearest_even k (at0 (ext_indegrees nd) ipopid + at0 mods i) ∧
   ((0 <= k)%Z ↔ -(1 # 2) <= at0 (ext_indegrees nd) ipopid + at0 mods i)) ∧
  (¬ in_int64 k →
   astype_int64 (round (at0 (ext_indegrees nd) ipopid + at0 mods i))
   = int64_min ∧ (int64_min < 0)%Z).
Proof.
  intros Hk _. apply K_ext_Ok_inv in Hk as (base & m & Hb & Hm & ->).
  unfold at0. rewrite Hb, Hm. cbn [default]. unfold Datatypes.id.
  split.
  - intros Hin. split; [now apply astype_int64_round|].
    split; [apply round_half_even_nearest_even | apply round_half_even_nonneg].
  - intros Hout. split; [|reflexivity].
    apply astype_int64_out_of_range. now rewrite astype_int_round.
Qed.

Lemma new_indegree_integer_witness :
  (in_int64 (-4) →
   astype_int64 (round (at0 (ext_indegrees inhibitory_table) 6 + at0 [-4; 0] 0))
   = (-4)%Z ∧
   nearest_even (-4) (at0 (ext_indegrees inhibitory_table) 6 + at0 [-4; 0] 0) ∧
   ((0 <= -4)%Z ↔
    -(1 # 2) <= at0 (ext_indegrees inhibitory_table) 6 + at0 [-4; 0] 0)) ∧
  (¬ in_int64 (-4) →
   astype_int64 (round (at0 (ext_indegrees inhibitory_table) 6 + at0 [-4; 0] 0))
   = int64_min ∧ (int64_min < 0)%Z).
Proof.
  apply (new_indegree_integer inhibitory_table [-4; 0] 0 6 (-4)%Z).
  - vm_compute. reflexivity.
  - apply (binary64_at_sound 0); [lia | vm_compute; reflexivity].
Defined.

(** *** Monotonicity in a reference rate *)

Lemma at0_insert (a : list Q) j j' r :
  (j < length a)%nat →
  at0 (<[j := r]> a) j' = if decide (j = j') then r else at0 a j'.
Proof.
  intros H. unfold at0. destruct (decide (j = j')) as [<-|NE].
  - now rewrite list_lookup_insert_eq.
  - now rewrite list_lookup_insert_ne.
Qed.

Lemma well_shaped_insert nd rates tau_syn j r :
  well_shaped nd rates tau_syn → well_shaped nd (<[j := r]> rates) tau_syn.
Proof.
  intros (Lr & Lt & H). split; [now rewrite length_insert | now split].
Qed.

Lemma Qdiv_le_compat_r x y c : 0 < c → x <= y → x / c <= y / c.
Proof.
  intros Hc Hxy. unfold Qdiv. apply Qmult_le_compat_r; [exact Hxy|].
  apply Qinv_le_0_compat. lra.
Qed.

Lemma Qmult_le_l_nonneg a x y : 0 <= a → x <= y → a * x <= a * y.
Proof.
  intros Ha Hxy. rewrite (Qmult_comm a x), (Qmult_comm a y).
  now apply Qmult_le_compat_r.
Qed.

Lemma Qdiv_nonneg x c : 0 < c → 0 <= x → 0 <= x / c.
Proof. intros Hc Hx. apply Qle_shift_div_l; [exact Hc | lra]. Qed.

Section Contribution.

Variables w tau w_ext tau_ext r r' bg K : Q.
Hypothesis Hwe : 0 < w_ext.
Hypothesis Hte : 0 < tau_ext.
Hypothesis Htau : 0 < tau.
Hypothesis Hbg : 0 < bg.
Hypothesis HK : 0 <= K.
Hypothesis Hr : r <= r'.

Lemma spec_contribution_mono_excitatory :
  0 <= w →
  spec_contribution w tau w_ext tau_ext r bg K
  <= spec_contribution w tau w_ext tau_ext r' bg K.
Proof.
  intros Hw. unfold spec_contribution.
  assert (A : 0 <= w * tau / (w_ext * tau_ext)).
  { apply Qdiv_nonneg; [nra | nra]. }
  pose proof (Qdiv_le_compat_r r r' bg Hbg Hr) as B.
  apply Qmult_le_compat_r; [|exact HK].
  apply Qmult_le_l_nonneg; assumption.
Qed.

Lemma spec_contribution_mono_inhibitory :
  w <= 0 →
  spec_contribution w tau w_ext tau_ext r' bg K
  <= spec_contribution w tau w_ext tau_ext r bg K.
Proof.
  intros Hw. unfold spec_contribution.
  assert (A : 0 <= (- w) * tau / (w_ext * tau_ext)).
  { apply Qdiv_nonneg; [nra | nra]. }
  pose proof (Qdiv_le_compat_r r r' bg Hbg Hr) as B.
  apply Qmult_le_compat_r; [|exact HK].
  pose proof (Qmult_le_l_nonneg _ _ _ A B) as C.
  assert (E : ∀ x, - w * tau / (w_ext * tau_ext) * x
                    == - (w * tau / (w_ext * tau_ext) * x)).
  { intros x. unfold Qdiv. ring. }
  rewrite !E in C. lra.
Qed.

End Contribution.

Lemma sum_over_le (f g : nat → Q) js :
  (∀ j, j ∈ js → f j <= g j) → sum_over js f <= sum_over js g.
Proof. apply foldr_Qplus_le. Qed.

Lemma excluded_popids_lt j : j ∈ excluded_popids → (j < 8)%nat.
Proof.
  unfold excluded_popids. intros H.
  repeat (apply elem_of_cons in H as [->|H]); try lia.
  now apply elem_of_nil in H.
Qed.

(** C5: with positive external weight, time constants and background rate
    and a non-negative in-degree, on runs in which no operation overflows
    or underflows and the totals stay inside the range of [int64], raising
    the reference rate of the excluded population [j] from [at0 rates j] to
    [r'] does not lower the new external in-degree when the weight from [j]
    is positive, and does not raise it when that weight is negative. *)
Theorem new_indegree_monotone_in_rate nd np rates tau_syn j r' i ipopid :
  well_shaped nd rates tau_syn →
  (8 ≤ length (ext_indegrees nd))%nat →
  j ∈ excluded_popids → included_popids !! i = Some ipopid →
  0 < weight_ext nd → 0 < tau_syn_ex np → 0 < at0 tau_syn j →
  0 < bg_rate nd →
  0 <= at00 (indegrees nd) ipopid j →
  at0 rates j <= r' →
  moderate_run nd np rates tau_syn excluded_popids ipopid →
  moderate_run nd np (<[j := r']> rates) tau_syn excluded_popids ipopid →
  ∃ mods mods' k k',
    indegree_modifications nd np rates tau_syn = Ok mods ∧
    K_ext nd mods ipopid i = Ok k ∧
    indegree_modifications nd np (<[j := r']> rates) tau_syn = Ok mods' ∧
    K_ext nd mods' ipopid i = Ok k' ∧
    in_int64 k ∧ in_int64 k' ∧
    (0 < at00 (weight_matrix_mean nd) ipopid j → (k <= k')%Z) ∧
    (at00 (weight_matrix_mean nd) ipopid j < 0 → (k' <= k)%Z).
Proof.
  intros Hs He Hj Hi Hwe Hte Htau Hbg HK Hr Hmod Hmod'.
  assert (Hex : Forall (λ j, (j < 8)%nat) excluded_popids)
    by (unfold excluded_popids; repeat constructor).
  destruct (compensation_well_shaped nd np rates tau_syn excluded_popids
              Hs He Hex) as (mods & Hrun & _ & Hm).
  destruct (compensation_well_shaped nd np (<[j := r']> rates) tau_syn
              excluded_popids (well_shaped_insert _ _ _ j r' Hs) He Hex)
    as (mods' & Hrun' & _ & Hm').
  destruct (Hm i ipopid Hi) as (m & _ & _ & Hk).
  destruct (Hm' i ipopid Hi) as (m' & _ & _ & Hk').
  eexists mods, mods', _, _.
  split; [exact Hrun|]. split; [exact Hk|].
  split; [exact Hrun'|]. split; [exact Hk'|].
  split; [now apply moderate_run_in_int64|].
  split; [now apply moderate_run_in_int64|].
  assert (Lj : (j < length rates)%nat).
  { destruct Hs as (-> & _). now apply excluded_popids_lt. }
  split; intros Hw; apply round_half_even_mono, Qplus_le_r;
    unfold spec_modification; apply sum_over_le; intros j' _;
    rewrite (at0_insert rates j j' r' Lj);
    destruct (decide (j = j')) as [<-|NE]; try apply Qle_refl.
  - apply spec_contribution_mono_excitatory; try assumption. lra.
  - apply spec_contribution_mono_inhibitory; try assumption. lra.
Qed.

Lemma new_indegree_monotone_in_rate_witness :
  ∃ mods mods' k k',
    indegree_modifications example_table neuron_params example_rates
      (make_tau_syn neuron_params) = Ok mods ∧
    K_ext example_table mods 6 0 = Ok k ∧
    indegree_modifications example_table neuron_params
      (<[0%nat := 3]> example_rates) (make_tau_syn neuron_params) = Ok mods' ∧
    K_ext example_table mods' 6 0 = Ok k' ∧
    in_int64 k ∧ in_int64 k' ∧
    (0 < at00 (weight_matrix_mean example_table) 6 0 → (k <= k')%Z) ∧
    (at00 (weight_matrix_mean example_table) 6 0 < 0 → (k' <= k)%Z).
Proof.
  apply (new_indegree_monotone_in_rate example_table neuron_params
           example_rates (make_tau_syn neuron_params) 0 3 0 6).
  - split; [reflexivity|]. split; [reflexivity|]. repeat constructor.
  - cbn. lia.
  - left.
  - reflexivity.
  - reflexivity.
  - reflexivity.
  - reflexivity.
  - reflexivity.
  - vm_compute. discriminate.
  - vm_compute. discriminate.
  - apply (bool_decide_unpack _). vm_compute. exact I.
  - apply (bool_decide_unpack _). vm_compute. exact I.
Defined.

(** *** Failures *)

(** C9: the cell does not validate its inputs, and a shape that does not
    fit is its only failure.  When the rows of L6E and L6I in the weight and
    in-degree matrices have 9 entries and the rate and time-constant vectors
    have 8, every access is in bounds and the cell returns its two numbers.
    A rate vector with 7 entries makes it fail with numpy's shape error, a
    weight matrix without the rows 6 and 7 with an index error, and a rate
    vector with a single entry is accepted (and broadcast) without any
    complaint. *)
Theorem shape_errors_only :
  (∀ nd np rates tau_syn,
     well_shaped nd rates tau_syn →
     ∃ m6 m7, indegree_modifications nd np rates tau_syn = Ok [m6; m7]) ∧
  indegree_modifications example_table neuron_params (replicate 7 2)
    (make_tau_syn neuron_params) = Raise ValueError ∧
  indegree_modifications short_table neuron_params example_rates
    (make_tau_syn neuron_params) = Raise IndexError ∧
  is_Ok (indegree_modifications example_table neuron_params [2]
           (make_tau_syn neuron_params)).
Proof.
  split; [|split; [reflexivity | split; [reflexivity | eexists; reflexivity]]].
  intros nd np rates tau_syn Hs.
  eexists _, _. unfold indegree_modifications.
  rewrite (indegree_modifications_for_ok nd np rates tau_syn excluded_popids
             (λ ipopid, code_term nd np rates tau_syn ipopid <$> excluded_popids));
    [reflexivity|].
  intros ipopid Hin. apply well_shaped_reads; [exact Hs | | exact Hin].
  unfold excluded_popids. repeat constructor.
Qed.

Lemma shape_errors_only_witness :
  ∃ m6 m7,
    indegree_modifications example_table neuron_params rates_meso
      (make_tau_syn neuron_params) = Ok [m6; m7].
Proof.
  apply (proj1 shape_errors_only).
  split; [reflexivity|]. split; [reflexivity|]. repeat constructor.
Defined.

(** *** Independence of the included populations *)

Lemma agree_refl a : agree_on_excluded a a.
Proof. now split. Qed.

Lemma agree_fmap (f : Q → Q) a b :
  agree_on_excluded a b → agree_on_excluded (f <$> a) (f <$> b).
Proof.
  intros [L T]. split.
  - now rewrite !length_fmap.
  - now rewrite <- !fmap_take, T.
Qed.

Lemma agree_slice_to_last a b :
  agree_on_excluded a b →
  agree_on_excluded (slice_to_last a) (slice_to_last b).
Proof.
  intros [L T]. unfold slice_to_last. split.
  - rewrite !length_take. lia.
  - rewrite <- L, !take_take.
    replace (6 `min` (length a - 1))%nat
      with ((6 `min` (length a - 1)) `min` 6)%nat by lia.
    now rewrite <- !(take_take _ _ 6), T.
Qed.

Lemma agree_singleton x b : agree_on_excluded [x] b → b = [x].
Proof.
  intros [L T]. destruct b as [|y [|z b]]; try discriminate.
  cbn in T. congruence.
Qed.

Lemma broadcast_singleton_l op x b :
  broadcast op [x] b = Ok (if decide (length b = 1%nat)
                           then zip_with op [x] b else op x <$> b).
Proof.
  unfold broadcast. cbn [length].
  destruct (decide (1%nat = length b)), (decide (length b = 1%nat));
    try reflexivity; congruence.
Qed.

Lemma broadcast_singleton_r op a y :
  length a ≠ 1%nat → broadcast op a [y] = Ok ((λ x, op x y) <$> a).
Proof.
  intros H. unfold broadcast. cbn [length].
  rewrite decide_False by exact H.
  destruct a as [|x [|x' a]]; reflexivity.
Qed.

Lemma broadcast_mismatch op a b :
  length a ≠ length b → length a ≠ 1%nat → length b ≠ 1%nat →
  broadcast op a b = Raise ValueError.
Proof.
  intros H Ha Hb. unfold broadcast. rewrite decide_False by exact H.
  destruct a as [|x [|x' a]]; destruct b as [|y [|y' b]];
    cbn in *; try reflexivity; congruence.
Qed.

Lemma length_1_singleton (a : list Q) : length a = 1%nat → ∃ x, a = [x].
Proof. destruct a as [|x [|]]; try discriminate. eauto. Qed.

(** Broadcasting keeps agreement: the same exception, or results that
    agree. *)
Lemma agree_broadcast op a a' b b' :
  agree_on_excluded a a' → agree_on_excluded b b' →
  result_rel agree_on_excluded (broadcast op a b) (broadcast op a' b').
Proof.
  intros Ha Hb. pose proof Ha as [La Ta]. pose proof Hb as [Lb Tb].
  destruct (decide (length a = length b)) as [E|NE].
  - rewrite !broadcast_same_length by congruence. cbn. split.
    + rewrite !length_zip_with. lia.
    + now rewrite !zip_with_take, Ta, Tb.
  - destruct (decide (length a = 1%nat)) as [A1|A1].
    { destruct (length_1_singleton a A1) as [x ->].
      rewrite (agree_singleton _ _ Ha), !broadcast_singleton_l.
      rewrite <- Lb. cbn in NE.
      rewrite !decide_False by congruence. cbn.
      now apply agree_fmap. }
    destruct (decide (length b = 1%nat)) as [B1|B1].
    { destruct (length_1_singleton b B1) as [y ->].
      rewrite (agree_singleton _ _ Hb), !broadcast_singleton_r by congruence.
      cbn. now apply agree_fmap. }
    rewrite !broadcast_mismatch by congruence. reflexivity.
Qed.

Lemma agree_take_indices (l l' : list Q) js :
  agree_on_excluded l l' → Forall (λ j, (j < 6)%nat) js →
  take_indices l js = take_indices l' js.
Proof.
  intros [L T] H. induction H as [|j js Hj _ IH]; [reflexivity|].
  cbn [take_indices]. rewrite IH. unfold getitem.
  now rewrite <- (lookup_take_lt l 6 j Hj), <- (lookup_take_lt l' 6 j Hj), T.
Qed.

Lemma result_rel_bind {A B} (R : A → A → Prop) (S : B → B → Prop)
    (m1 m2 : result A) (f1 f2 : A → result B) :
  result_rel R m1 m2 →
  (∀ a1 a2, R a1 a2 → result_rel S (f1 a1) (f2 a2)) →
  result_rel S (m1 ≫= f1) (m2 ≫= f2).
Proof.
  destruct m1, m2; cbn; intros H Hf; try contradiction; auto.
Qed.

Lemma result_rel_eq {A} (r1 r2 : result A) : result_rel eq r1 r2 → r1 = r2.
Proof. destruct r1, r2; cbn; intros H; congruence || contradiction. Qed.

Lemma getitem_rows_agree (m1 m2 : list (list Q)) ipopid :
  rows_agree m1 m2 ipopid →
  result_rel agree_on_excluded (getitem m1 ipopid) (getitem m2 ipopid).
Proof.
  unfold rows_agree, getitem.
  destruct (m1 !! ipopid), (m2 !! ipopid); cbn; auto.
Qed.

Lemma for_each_ext {A S} (f g : A → S → result S) xs s :
  (∀ x s', x ∈ xs → f x s' = g x s') → for_each f xs s = for_each g xs s.
Proof.
  revert s. induction xs as [|x xs IH]; intros s H; [reflexivity|].
  cbn [for_each]. rewrite (H x s) by left.
  destruct (g x s) as [s'|e]; [|reflexivity].
  cbn. apply IH. intros; apply H; now right.
Qed.

Section TwoRuns.

Variables (nd1 nd2 : NetDict) (np1 np2 : NeuronParams).
Variables (rates1 rates2 tau_syn : list Q).
Hypothesis Hagree : agree_outside_included nd1 nd2 np1 np2 rates1 rates2.

Lemma rec_input_agree ipopid :
  ipopid ∈ included_popids →
  result_rel agree_on_excluded
    (rec_input nd1 np1 rates1 tau_syn ipopid)
    (rec_input nd2 np2 rates2 tau_syn ipopid).
Proof.
  intros Hin. destruct Hagree as [Hbg Hwe Hte _ Hr Hw Hk].
  rewrite Forall_forall in Hw, Hk.
  unfold rec_input. rewrite Hbg, Hwe, Hte.
  eapply result_rel_bind; [apply getitem_rows_agree, Hw, Hin|].
  intros w1 w2 Aw.
  eapply result_rel_bind;
    [apply agree_broadcast; [now apply agree_slice_to_last | apply agree_refl]|].
  intros wt1 wt2 Awt. cbv zeta.
  eapply result_rel_bind;
    [apply agree_broadcast; unfold div_scalar; now apply agree_fmap|].
  intros t1 t2 At.
  eapply result_rel_bind; [apply getitem_rows_agree, Hk, Hin|].
  intros k1 k2 Ak.
  apply agree_broadcast; [exact At | now apply agree_slice_to_last].
Qed.

Lemma loop_body_agree excluded ix mods :
  Forall (λ j, (j < 6)%nat) excluded →
  ix.2 ∈ included_popids →
  loop_body nd1 np1 rates1 tau_syn excluded ix mods
  = loop_body nd2 np2 rates2 tau_syn excluded ix mods.
Proof.
  intros Hex Hin. destruct ix as [i ipopid]. unfold loop_body.
  apply result_rel_eq.
  eapply result_rel_bind; [apply rec_input_agree, Hin|].
  intros r1 r2 Ar. unfold add_excluded. cbn [for_each].
  rewrite (agree_take_indices r1 r2 excluded Ar Hex).
  destruct (_ ≫= _); reflexivity.
Qed.

Lemma indegree_modifications_for_agree excluded :
  Forall (λ j, (j < 6)%nat) excluded →
  indegree_modifications_for nd1 np1 rates1 tau_syn included_popids excluded
  = indegree_modifications_for nd2 np2 rates2 tau_syn included_popids excluded.
Proof.
  intros Hex. unfold indegree_modifications_for. apply for_each_ext.
  intros [i ipopid] mods Hin. apply loop_body_agree; [exact Hex|].
  unfold enumerate in Hin. apply elem_of_lookup_imap_1 in Hin
    as (i' & x & [= -> ->] & Hx).
  now apply list_elem_of_lookup_2 in Hx.
Qed.

(** C8: two runs whose inputs agree on the background rate, the
    external weight, the synaptic time constants, the old external
    in-degrees and, for the rows of L6E and L6I, on the weights, in-degrees
    and reference rates of the excluded populations 0..5 (vectors of the
    same lengths) compute the same in-degree modifications and the same
    new external in-degrees, whatever the reference rates of L6E and L6I
    and the columns 6 to 8 of the two matrices are. *)
Theorem compensation_ignores_included :
  indegree_modifications nd1 np1 rates1 tau_syn
  = indegree_modifications nd2 np2 rates2 tau_syn ∧
  ∀ mods, K_ext_L6E nd1 mods = K_ext_L6E nd2 mods ∧
          K_ext_L6I nd1 mods = K_ext_L6I nd2 mods.
Proof.
  split.
  - apply indegree_modifications_for_agree.
    unfold excluded_popids. repeat constructor.
  - intros mods. unfold K_ext_L6E, K_ext_L6I, K_ext.
    now rewrite (agree_ext_indegrees _ _ _ _ _ _ Hagree).
Qed.

End TwoRuns.

Lemma compensation_ignores_included_witness :
  indegree_modifications example_table neuron_params example_rates
    (make_tau_syn neuron_params)
  = indegree_modifications example_table_variant neuron_params
      example_rates_variant (make_tau_syn neuron_params) ∧
  ∀ mods, K_ext_L6E example_table mods = K_ext_L6E example_table_variant mods ∧
          K_ext_L6I example_table mods = K_ext_L6I example_table_variant mods.
Proof.
  apply (compensation_ignores_included example_table example_table_variant
           neuron_params neuron_params example_rates example_rates_variant).
  split; try reflexivity.
  - split; reflexivity.
  - repeat constructor.
  - repeat constructor.
Defined.

End MesocircuitFacts.

(** ** The parameter table is only read *)

Module HeapFacts.

Import Heap.
Open Scope Q_scope.

Section Frame.

Variable h0 : heap.

Lemma keeps_ret {A} (a : A) (post : A → Prop) : post a → keeps h0 (ret a) post.
Proof. intros Hp h Hh. now split. Qed.

Lemma keeps_raise {A} (e : error) (post : A → Prop) : keeps h0 (raise e) post.
Proof. intros h Hh. now split. Qed.

Lemma keeps_lift {A} (r : result A) : keeps h0 (lift r) (λ _, True).
Proof. intros h Hh. split; [exact Hh|]. cbn. now destruct r. Qed.

Lemma keeps_bind {A B} (m : M A) (f : A → M B) (P : A → Prop) (Q : B → Prop) :
  keeps h0 m P → (∀ a, P a → keeps h0 (f a) Q) → keeps h0 (m ≫= f) Q.
Proof.
  intros Hm Hf h Hh. unfold mbind, M_bind, bind.
  destruct (Hm h Hh) as [H1 H2].
  destruct (m h) as [[a|e] h1]; cbn in *.
  - now apply Hf.
  - now split.
Qed.

Lemma keeps_weaken {A} (m : M A) (P Q : A → Prop) :
  keeps h0 m P → (∀ a, P a → Q a) → keeps h0 m Q.
Proof.
  intros Hm HPQ h Hh. destruct (Hm h Hh) as [H1 H2]. split; [exact H1|].
  destruct (m h).1; auto.
Qed.

(** Reading leaves the heap as it is. *)
Lemma keeps_read a : keeps h0 (read a) (λ _, True).
Proof. intros h Hh. now split. Qed.

(** A fresh buffer is none of the buffers of [h0]. *)
Lemma keeps_alloc data : keeps h0 (alloc data) (new_in h0).
Proof.
  intros h Hh. unfold alloc. cbn.
  assert (F : h0 !! fresh (dom h) = None).
  { apply (lookup_weaken_None h0 h); [|exact Hh].
    apply not_elem_of_dom, is_fresh. }
  split; [|exact F]. now apply insert_subseteq_r.
Qed.

(** A view of a row shares the buffer of the matrix: nothing is copied. *)
Lemma keeps_getrow a i : keeps h0 (getrow a i) (λ v, base v = base2 a).
Proof.
  unfold getrow. destruct (decide _); [now apply keeps_ret | apply keeps_raise].
Qed.

Lemma keeps_getitem a i : keeps h0 (getitem a i) (λ _, True).
Proof.
  unfold getitem. eapply keeps_bind; [apply keeps_read|].
  intros xs _. apply keeps_lift.
Qed.

Lemma keeps_getitem2 a i j : keeps h0 (getitem2 a i j) (λ _, True).
Proof.
  unfold getitem2. destruct (decide _); [apply keeps_getitem | apply keeps_raise].
Qed.

Lemma keeps_broadcast op a b : keeps h0 (broadcast op a b) (new_in h0).
Proof.
  unfold broadcast.
  eapply keeps_bind; [apply keeps_read|]. intros xs _.
  eapply keeps_bind; [apply keeps_read|]. intros ys _.
  eapply keeps_bind; [apply keeps_lift|]. intros zs _.
  apply keeps_alloc.
Qed.

Lemma keeps_div_scalar a s : keeps h0 (div_scalar a s) (new_in h0).
Proof.
  unfold div_scalar. eapply keeps_bind; [apply keeps_read|]. intros xs _.
  apply keeps_alloc.
Qed.

Lemma keeps_take_indices a js : keeps h0 (take_indices a js) (new_in h0).
Proof.
  unfold take_indices.
  eapply keeps_bind; [apply keeps_read|]. intros xs _.
  eapply keeps_bind; [apply keeps_lift|]. intros ys _.
  apply keeps_alloc.
Qed.

Lemma keeps_sum a : keeps h0 (sum a) (λ _, True).
Proof.
  unfold sum. eapply keeps_bind; [apply keeps_read|]. intros xs _.
  now apply keeps_ret.
Qed.

(** A write is harmless when its target was allocated after [h0]. *)
Lemma keeps_write a i x : new_in h0 a → keeps h0 (write a i x) (λ _, True).
Proof.
  intros Hnew h Hh. unfold write. cbn. split; [|exact I].
  now apply insert_subseteq_r.
Qed.

Lemma keeps_iadd_item a i v :
  new_in h0 a → keeps h0 (iadd_item a i v) (λ _, True).
Proof.
  intros Hnew. unfold iadd_item.
  eapply keeps_bind; [apply keeps_getitem|]. intros x _.
  now apply keeps_write.
Qed.

Lemma keeps_for_each_ {A} (body : A → M unit) xs :
  (∀ x, keeps h0 (body x) (λ _, True)) →
  keeps h0 (for_each_ body xs) (λ _, True).
Proof.
  intros Hb. induction xs as [|x xs IH]; cbn [for_each_].
  - now apply keeps_ret.
  - eapply keeps_bind; [apply Hb|]. intros _ _. exact IH.
Qed.

Variable net_dict : NetDict.
Variable np : Mesocircuit.NeuronParams.

Lemma keeps_rec_input rates tau_syn ipopid :
  keeps h0 (rec_input net_dict np rates tau_syn ipopid) (new_in h0).
Proof.
  unfold rec_input.
  eapply keeps_bind; [apply keeps_getrow|]. intros wrow _.
  eapply keeps_bind; [apply keeps_broadcast|]. intros wt _. cbv zeta.
  eapply keeps_bind; [apply keeps_div_scalar|]. intros fw _.
  eapply keeps_bind; [apply keeps_div_scalar|]. intros fr _.
  eapply keeps_bind; [apply keeps_broadcast|]. intros t _.
  eapply keeps_bind; [apply keeps_getrow|]. intros krow _.
  apply keeps_broadcast.
Qed.

(** The only write of the compensation cell goes into [mods]; the rows of
    the table are read through views and every product is a new array. *)
Lemma keeps_loop_body rates tau_syn mods excluded ix :
  new_in h0 mods →
  keeps h0 (loop_body net_dict np rates tau_syn mods excluded ix) (λ _, True).
Proof.
  intros Hnew. destruct ix as [i ipopid]. unfold loop_body.
  eapply keeps_bind; [apply keeps_rec_input|]. intros rec _.
  apply keeps_for_each_. intros jpopid.
  eapply keeps_bind; [apply keeps_take_indices|]. intros picked _.
  eapply keeps_bind; [apply keeps_sum|]. intros v _.
  now apply keeps_iadd_item.
Qed.

Lemma keeps_indegree_modifications_for rates tau_syn included excluded :
  keeps h0 (indegree_modifications_for net_dict np rates tau_syn included excluded)
        (new_in h0).
Proof.
  unfold indegree_modifications_for, zeros.
  eapply keeps_bind; [apply keeps_alloc|]. intros mods Hnew.
  eapply keeps_bind;
    [apply keeps_for_each_; intros ix; now apply keeps_loop_body|].
  intros _ _. now apply keeps_ret.
Qed.

Lemma keeps_K_ext mods popid i : keeps h0 (K_ext net_dict mods popid i) (λ _, True).
Proof.
  unfold K_ext.
  eapply keeps_bind; [apply keeps_getitem|]. intros b _.
  eapply keeps_bind; [apply keeps_getitem|]. intros m _.
  now apply keeps_ret.
Qed.

Lemma keeps_new_ext_indegrees rates tau_syn included excluded :
  keeps h0 (new_ext_indegrees net_dict np rates tau_syn included excluded)
        (λ _, True).
Proof.
  unfold new_ext_indegrees.
  eapply keeps_bind; [apply keeps_indegree_modifications_for|]. intros mods _.
  eapply keeps_bind; [apply keeps_K_ext|]. intros k6 _.
  eapply keeps_bind; [apply keeps_K_ext|]. intros k7 _.
  eapply keeps_bind; [apply keeps_read|]. intros ms _.
  now apply keeps_ret.
Qed.

Lemma keeps_layer6 m : keeps h0 (layer6 m) (λ _, True).
Proof.
  unfold layer6.
  do 4 (eapply keeps_bind; [apply keeps_getitem2|]; intros ? _).
  now apply keeps_ret.
Qed.

Lemma keeps_scale_neurons : keeps h0 (scale_neurons net_dict) (λ _, True).
Proof.
  unfold scale_neurons.
  eapply keeps_bind; [apply keeps_getitem|]. intros n6 _. cbv zeta.
  eapply keeps_bind; [apply keeps_getitem|]. intros n7 _.
  now apply keeps_ret.
Qed.

Lemma keeps_weights : keeps h0 (weights net_dict) (λ _, True).
Proof.
  unfold weights.
  eapply keeps_bind; [apply keeps_getitem2|]. intros we _. cbv zeta.
  eapply keeps_bind; [apply keeps_getitem2|]. intros wi _.
  now apply keeps_ret.
Qed.

Lemma keeps_delays : keeps h0 (delays net_dict) (λ _, True).
Proof.
  unfold delays.
  eapply keeps_bind; [apply keeps_getitem|]. intros d _.
  eapply keeps_bind; [apply keeps_getitem|]. intros v _.
  now apply keeps_ret.
Qed.

Lemma keeps_derived_quantities :
  keeps h0 (derived_quantities net_dict np) (λ _, True).
Proof.
  unfold derived_quantities.
  eapply keeps_bind; [apply keeps_scale_neurons|]. intros [N6 N7] _.
  eapply keeps_bind; [apply keeps_layer6|]. intros [[[K66 K76] K67] K77] _.
  eapply keeps_bind; [apply keeps_layer6|]. intros [[[b66 b76] b67] b77] _.
  eapply keeps_bind; [apply keeps_weights|]. intros [[[wex sex] win] sin] _.
  eapply keeps_bind; [apply keeps_delays|]. intros [d v] _.
  eapply keeps_bind; [apply keeps_alloc|]. intros rates _.
  eapply keeps_bind; [apply keeps_alloc|]. intros tau_syn _.
  eapply keeps_bind; [apply keeps_new_ext_indegrees|]. intros [[ms k6] k7] _.
  now apply keeps_ret.
Qed.

End Frame.

Lemma buffer_weaken (h h' : heap) l :
  h ⊆ h' → is_Some (h !! l) → buffer h' l = buffer h l.
Proof.
  intros Hh [buf Hbuf]. unfold buffer.
  now rewrite (lookup_weaken h h' l buf Hbuf Hh), Hbuf.
Qed.

Lemma contents_weaken (h h' : heap) a :
  h ⊆ h' → is_Some (h !! base a) → contents h' a = contents h a.
Proof. intros Hh Hs. unfold contents. now rewrite (buffer_weaken h h'). Qed.

Lemma contents2_weaken (h h' : heap) a :
  h ⊆ h' → is_Some (h !! base2 a) → contents2 h' a = contents2 h a.
Proof. intros Hh Hs. unfold contents2. now rewrite (buffer_weaken h h'). Qed.

(** The heap and the references that [pickle.load] gives for the example
    table. *)
Lemma load_example_table :
  load Mesocircuit.example_table ∅ = (Ok example_net_dict, example_heap) ∧
  read_table example_heap example_net_dict = Mesocircuit.example_table.
Proof. split; vm_compute; reflexivity. Qed.

(** On the example table the cells over the heap compute the numbers of the
    cells over values. *)
Lemma heap_cells_agree_on_example :
  ∃ d,
    (derived_quantities example_net_dict Mesocircuit.neuron_params example_heap).1
      = Ok d ∧
    Mesocircuit.indegree_modifications Mesocircuit.example_table
      Mesocircuit.neuron_params Mesocircuit.rates_meso
      (Mesocircuit.make_tau_syn Mesocircuit.neuron_params)
      = Ok (indegree_modifications d) ∧
    Mesocircuit.K_ext_L6E Mesocircuit.example_table (indegree_modifications d)
      = Ok (K_ext_L6E d) ∧
    Mesocircuit.K_ext_L6I Mesocircuit.example_table (indegree_modifications d)
      = Ok (K_ext_L6I d).
Proof. eexists. split; [vm_compute; reflexivity|]. repeat split. Qed.

(** C10: the loaded parameter table is never mutated.  Whatever the heap
    and the table are, the cells that derive the neuron numbers, the in-degrees
    and weights of layer 6, the compensation and the new external in-degrees
    leave every buffer that existed before them as it was, also when a cell
    raises; so every field of a table whose arrays are in the heap reads the
    same afterwards. *)
Theorem table_never_mutated (nd : NetDict) (np : Mesocircuit.NeuronParams)
    (h : heap) :
  let h' := (derived_quantities nd np h).2 in
  h ⊆ h' ∧
  (table_in_heap h nd → read_table h' nd = read_table h nd).
Proof.
  cbv zeta.
  destruct (keeps_derived_quantities h nd np h (reflexivity h)) as [Hsub _].
  split; [exact Hsub|].
  intros Ht. unfold table_in_heap in Ht.
  repeat match goal with
         | H : Forall _ (_ :: _) |- _ => apply Forall_cons in H as [? H]
         end.
  unfold read_table.
  rewrite !(contents_weaken h _ _ Hsub), !(contents2_weaken h _ _ Hsub)
    by assumption.
  reflexivity.
Qed.

Lemma table_never_mutated_witness :
  read_table
    (derived_quantities example_net_dict Mesocircuit.neuron_params example_heap).2
    example_net_dict
  = read_table example_heap example_net_dict.
Proof.
  apply (table_never_mutated example_net_dict Mesocircuit.neuron_params
           example_heap).
  repeat constructor; vm_compute; eexists; reflexivity.
Defined.

End HeapFacts.

(** ** The cells over the heap compute what the cells over values compute *)

Module HeapRefinement.

Import Heap.
Open Scope Q_scope.

(** *** Arrays in a growing heap *)

Lemma subseteq_same_except (l : nat) (h h' : heap) : h ⊆ h' → same_except l h h'.
Proof. intros Hh l' buf _ Hl. exact (lookup_weaken h h' l' buf Hl Hh). Qed.

Lemma same_except_trans l (h1 h2 h3 : heap) :
  same_except l h1 h2 → same_except l h2 h3 → same_except l h1 h3.
Proof. intros H12 H23 l' buf Hne Hl. eauto. Qed.

Lemma buffer_same_except l (h h' : heap) l' :
  same_except l h h' → l' ≠ l → is_Some (h !! l') → buffer h' l' = buffer h l'.
Proof.
  intros Hh Hne [buf Hbuf]. unfold buffer.
  now rewrite (Hh l' buf Hne Hbuf), Hbuf.
Qed.

Lemma holds_same_except l (h h' : heap) a xs :
  same_except l h h' → base a ≠ l → holds h a xs → holds h' a xs.
Proof.
  intros Hh Hne (Hs & Hc & Hl). pose proof Hs as [buf Hbuf].
  split; [|split; [|exact Hl]].
  - exists buf. now apply Hh.
  - unfold contents. now rewrite (buffer_same_except l h h').
Qed.

Lemma holds2_same_except l (h h' : heap) a rows :
  same_except l h h' → base2 a ≠ l → holds2 h a rows → holds2 h' a rows.
Proof.
  intros Hh Hne (Hs & Hc & Hl). pose proof Hs as [buf Hbuf].
  split; [|split].
  - exists buf. now apply Hh.
  - unfold contents2. now rewrite (buffer_same_except l h h').
  - now rewrite (buffer_same_except l h h').
Qed.

Lemma holds_weaken (h h' : heap) a xs : h ⊆ h' → holds h a xs → holds h' a xs.
Proof.
  intros Hh (Hs & Hc & Hl). split; [|split; [|exact Hl]].
  - destruct Hs as [buf Hbuf]. exists buf. exact (lookup_weaken _ _ _ _ Hbuf Hh).
  - now rewrite (HeapFacts.contents_weaken h h').
Qed.

Lemma holds2_weaken (h h' : heap) a rows :
  h ⊆ h' → holds2 h a rows → holds2 h' a rows.
Proof.
  intros Hh (Hs & Hc & Hl). split; [|split].
  - destruct Hs as [buf Hbuf]. exists buf. exact (lookup_weaken _ _ _ _ Hbuf Hh).
  - now rewrite (HeapFacts.contents2_weaken h h').
  - now rewrite (HeapFacts.buffer_weaken h h').
Qed.

Lemma holds_slice_to_last (h : heap) a xs :
  holds h a xs → holds h (slice_to_last a) (Np.slice_to_last xs).
Proof.
  intros (Hs & Hc & Hl). split; [exact Hs|]. split.
  - unfold contents, slice_to_last, Np.slice_to_last in *. cbn.
    rewrite <- Hc at 2. rewrite Hl, take_take.
    f_equal. lia.
  - unfold Np.slice_to_last, slice_to_last. cbn. rewrite length_take. lia.
Qed.

(** A row of a matrix, seen through a view. *)
Lemma holds2_row (h : heap) a rows i row :
  holds2 h a rows → rows !! i = Some row →
  (i < nrows a)%nat ∧
  holds h {| base := base2 a; offset := i * ncols a; size := ncols a |} row.
Proof.
  intros (Hs & Hc & Hl) Hrow. rewrite <- Hc in Hrow. unfold contents2 in Hrow.
  rewrite list_lookup_fmap in Hrow.
  destruct (seq 0 (nrows a) !! i) as [i'|] eqn:E; [|discriminate].
  apply lookup_seq in E as [-> Hi]. cbn in Hrow. injection Hrow as <-.
  split; [exact Hi|]. split; [exact Hs|]. split; [reflexivity|].
  cbn. rewrite length_take, length_drop. nia.
Qed.

Lemma length_contents2 (h : heap) a : length (contents2 h a) = nrows a.
Proof. unfold contents2. now rewrite length_fmap, length_seq. Qed.

(** *** Rules *)

Lemma refines_ret {A B} (F : heap → heap → Prop) h (a : A) (b : B)
    (R : heap → A → B → Prop) :
  F h h → R h a b → refines F h (ret a) (Ok b) R.
Proof. intros HF HR. now split. Qed.

Lemma refines_lift {A} (h : heap) (r : result A) :
  refines (⊆) h (lift r) r (λ _ a b, a = b).
Proof. split; [reflexivity|]. cbn. now destruct r. Qed.

Lemma refines_bind {A A' B B'} (F1 F2 F3 : heap → heap → Prop) h
    (m : M A) (r : result A') (f : A → M B) (g : A' → result B')
    (R : heap → A → A' → Prop) (S : heap → B → B' → Prop) :
  (∀ h1 h2 h3, F1 h1 h2 → F2 h2 h3 → F3 h1 h3) →
  (∀ h1 h2, F1 h1 h2 → F3 h1 h2) →
  refines F1 h m r R →
  (∀ h1 a b, F1 h h1 → R h1 a b → refines F2 h1 (f a) (g b) S) →
  refines F3 h (m ≫= f) (r ≫= g) S.
Proof.
  intros Htrans Hincl [HF Hm] Hf.
  unfold mbind, M_bind, result_bind, bind, refines in *.
  destruct (m h) as [[a|e] h1], r as [b|e']; cbn in *; try contradiction.
  - destruct (Hf h1 a b HF Hm) as [HF2 Hfa]. split; [|exact Hfa].
    eapply Htrans; eassumption.
  - split; [|exact Hm]. now apply Hincl.
Qed.

(** The rule for computations that only read and allocate. *)
Lemma refines_bind_mono {A A' B B'} h
    (m : M A) (r : result A') (f : A → M B) (g : A' → result B')
    (R : heap → A → A' → Prop) (S : heap → B → B' → Prop) :
  refines (⊆) h m r R →
  (∀ h1 a b, h ⊆ h1 → R h1 a b → refines (⊆) h1 (f a) (g b) S) →
  refines (⊆) h (m ≫= f) (r ≫= g) S.
Proof.
  apply refines_bind; [|auto]. intros h1 h2 h3 H12 H23. now transitivity h2.
Qed.

Lemma refines_read h a xs :
  holds h a xs → refines (⊆) h (read a) (Ok xs) (λ _ ys zs, ys = zs).
Proof. intros (_ & Hc & _). split; [reflexivity|]. exact Hc. Qed.

Lemma refines_alloc h data :
  refines (⊆) h (alloc data) (Ok data)
    (λ h' a xs, holds h' a xs ∧ h !! base a = None).
Proof.
  unfold refines, alloc. cbn.
  assert (F : h !! fresh (dom h) = None) by apply not_elem_of_dom, is_fresh.
  split; [now apply insert_subseteq|].
  split; [|exact F]. split; [|split; [|reflexivity]].
  - rewrite lookup_insert_eq. eauto.
  - unfold contents, buffer. cbn. rewrite lookup_insert_eq. cbn.
    now rewrite drop_0, take_ge.
Qed.

Lemma refines_getitem h a xs i :
  holds h a xs →
  refines (⊆) h (getitem a i) (Np.getitem xs i) (λ _ x y, x = y).
Proof.
  intros (_ & Hc & _). unfold getitem, refines, mbind, M_bind, bind, read, lift.
  cbn. rewrite Hc. split; [reflexivity|]. now destruct (Np.getitem xs i).
Qed.

Lemma refines_getrow h a rows i :
  holds2 h a rows →
  refines (⊆) h (getrow a i) (Np.getitem rows i) (λ h' v row, holds h' v row).
Proof.
  intros Ha. unfold getrow, Np.getitem.
  destruct (rows !! i) as [row|] eqn:E.
  - destruct (holds2_row h a rows i row Ha E) as [Hi Hv].
    rewrite decide_True by exact Hi. now apply refines_ret.
  - apply lookup_ge_None in E. destruct Ha as (_ & <- & _).
    rewrite length_contents2 in E. rewrite decide_False by lia.
    now split.
Qed.

Lemma refines_broadcast h op a b xs ys :
  holds h a xs → holds h b ys →
  refines (⊆) h (broadcast op a b) (Np.broadcast op xs ys)
    (λ h' v zs, holds h' v zs).
Proof.
  intros (_ & Ha & _) (_ & Hb & _).
  unfold broadcast, refines, mbind, M_bind, bind, read, lift. cbn.
  rewrite Ha, Hb. destruct (Np.broadcast op xs ys) as [zs|e]; [|now split].
  destruct (refines_alloc h zs) as [H1 [H2 _]]. now split.
Qed.

Lemma refines_div_scalar h a xs s :
  holds h a xs →
  refines (⊆) h (div_scalar a s) (Ok (Np.div_scalar xs s))
    (λ h' v zs, holds h' v zs).
Proof.
  intros (_ & Ha & _).
  unfold div_scalar, refines, mbind, M_bind, bind, read. cbn. rewrite Ha.
  destruct (refines_alloc h (Np.div_scalar xs s)) as [H1 [H2 _]]. now split.
Qed.

Lemma refines_take_indices h a xs js :
  holds h a xs →
  refines (⊆) h (take_indices a js) (Np.take_indices xs js)
    (λ h' v zs, holds h' v zs).
Proof.
  intros (_ & Ha & _).
  unfold take_indices, refines, mbind, M_bind, bind, read, lift. cbn.
  rewrite Ha. destruct (Np.take_indices xs js) as [zs|e]; [|now split].
  destruct (refines_alloc h zs) as [H1 [H2 _]]. now split.
Qed.

Lemma refines_sum h a xs :
  holds h a xs → refines (⊆) h (sum a) (Ok (Np.sum xs)) (λ _ x y, x = y).
Proof.
  intros (_ & Ha & _). unfold sum, refines, mbind, M_bind, bind, read, ret.
  cbn. rewrite Ha. now split.
Qed.

(** The one write of the cells: it changes the buffer of its target and no
    other. *)
Lemma refines_iadd_item h a xs i v :
  holds h a xs →
  refines (same_except (base a)) h (iadd_item a i v) (Np.iadd_item xs i v)
    (λ h' _ zs, holds h' a zs).
Proof.
  intros (Hs & Hc & Hl).
  unfold iadd_item, Np.iadd_item, getitem, refines, mbind, M_bind, result_bind,
    bind, read, lift, write.
  cbn. rewrite Hc. unfold Np.getitem.
  destruct (xs !! i) as [x|] eqn:E; cbn.
  - apply lookup_lt_Some in E. split; [|split; [|split]].
    + intros l' buf Hne Hl'. now rewrite lookup_insert_ne by congruence.
    + rewrite lookup_insert_eq. eauto.
    + unfold contents, buffer at 1. rewrite lookup_insert_eq. cbn.
      rewrite drop_insert_ge by lia.
      replace (offset a + i - offset a)%nat with i by lia.
      rewrite take_insert_lt by lia.
      unfold contents in Hc. now rewrite Hc.
    + now rewrite length_insert.
  - split; [|reflexivity]. intros l' buf _ Hl'. exact Hl'.
Qed.

Lemma refines_bind_left {A A' B B'} (F2 F3 : heap → heap → Prop) h
    (m : M A) (b : A') (f : A → M B) (r : result B')
    (R : heap → A → A' → Prop) (S : heap → B → B' → Prop) :
  (∀ h1 h2 h3 : heap, h1 ⊆ h2 → F2 h2 h3 → F3 h1 h3) →
  refines (⊆) h m (Ok b) R →
  (∀ h1 a, h ⊆ h1 → R h1 a b → refines F2 h1 (f a) r S) →
  refines F3 h (m ≫= f) r S.
Proof.
  intros Htrans [HF Hm] Hf.
  unfold mbind, M_bind, bind, refines in *.
  destruct (m h) as [[a|e] h1]; cbn in *; [|contradiction].
  destruct (Hf h1 a HF Hm) as [HF2 Hfa]. split; [|exact Hfa].
  eapply Htrans; eassumption.
Qed.

Lemma subseteq_then_same_except l (h1 h2 h3 : heap) :
  h1 ⊆ h2 → same_except l h2 h3 → same_except l h1 h3.
Proof.
  intros H12 H23. eapply same_except_trans; [|exact H23].
  now apply subseteq_same_except.
Qed.

Section Compensation.

Variables (nd : NetDict) (np : Mesocircuit.NeuronParams).
Variable t : Mesocircuit.NetDict.
Variables (rates tau_syn : ndarray) (rs ts : list Q).

Lemma inputs_weaken h h' :
  h ⊆ h' → inputs nd t rates tau_syn rs ts h → inputs nd t rates tau_syn rs ts h'.
Proof.
  intros Hh [W K E R T B X].
  split; eauto using holds_weaken, holds2_weaken.
Qed.

Lemma refines_rec_input h ipopid :
  inputs nd t rates tau_syn rs ts h →
  refines (⊆) h (rec_input nd np rates tau_syn ipopid)
    (Mesocircuit.rec_input t np rs ts ipopid) (λ h' v zs, holds h' v zs).
Proof.
  intros Hin. unfold rec_input, Mesocircuit.rec_input. cbv zeta.
  eapply refines_bind_mono; [apply refines_getrow, Hin|].
  intros h1 wrow wr H1 Hw.
  eapply refines_bind_mono.
  { apply refines_broadcast; [now apply holds_slice_to_last|].
    eapply holds_weaken; [exact H1 | apply Hin]. }
  intros h2 wt wts H2 Hwt.
  eapply (refines_bind_left (⊆) (⊆) _ _
            (Np.div_scalar wts
               (Mesocircuit.weight_ext t * Mesocircuit.tau_syn_ex np)));
    [intros ? h' ? ? ?; now transitivity h'| |].
  { rewrite (in_weight_ext _ _ _ _ _ _ _ Hin). now apply refines_div_scalar. }
  intros h3 fw H3 Hfw.
  eapply (refines_bind_left (⊆) (⊆) _ _
            (Np.div_scalar rs (Mesocircuit.bg_rate t)));
    [intros ? h' ? ? ?; now transitivity h'| |].
  { rewrite (in_bg_rate _ _ _ _ _ _ _ Hin). apply refines_div_scalar.
    eapply holds_weaken; [|apply Hin]. now do 2 (etransitivity; [eassumption|]). }
  intros h4 fr H4 Hfr.
  eapply refines_bind_mono.
  { apply refines_broadcast; [exact Hfr|]. eapply holds_weaken; eassumption. }
  intros h5 tt tts H5 Htt.
  assert (H05 : h ⊆ h5) by (repeat (etransitivity; [eassumption|]); reflexivity).
  eapply refines_bind_mono;
    [apply refines_getrow; eapply holds2_weaken; [exact H05 | apply Hin]|].
  intros h6 krow kr H6 Hk.
  apply refines_broadcast; [eapply holds_weaken; eassumption|].
  now apply holds_slice_to_last.
Qed.

Lemma inputs_same_except l h h' :
  same_except l h h' →
  base2 (weight_matrix_mean nd) ≠ l → base2 (indegrees nd) ≠ l →
  base (ext_indegrees nd) ≠ l → base rates ≠ l → base tau_syn ≠ l →
  inputs nd t rates tau_syn rs ts h → inputs nd t rates tau_syn rs ts h'.
Proof.
  intros Hh ? ? ? ? ? [W K E R T B X].
  split; eauto using holds_same_except, holds2_same_except.
Qed.

Section Loop.

Variable mods : ndarray.
Variable excluded : list nat.

Lemma refines_loop_body h s ix :
  inputs nd t rates tau_syn rs ts h → holds h mods s →
  refines (same_except (base mods)) h
    (loop_body nd np rates tau_syn mods excluded ix)
    (Mesocircuit.loop_body t np rs ts excluded ix s)
    (λ h' _ s', holds h' mods s').
Proof.
  intros Hin Hmods. destruct ix as [i ipopid].
  unfold loop_body, Mesocircuit.loop_body.
  eapply (refines_bind (⊆) (same_except (base mods)));
    [apply subseteq_then_same_except | apply subseteq_same_except
    | now apply refines_rec_input |].
  intros h1 rec rc H1 Hrec.
  unfold add_excluded, Mesocircuit.add_excluded. cbn [for_each_ for_each].
  eapply (refines_bind (same_except (base mods)) (same_except (base mods)));
    [apply same_except_trans | auto | |].
  - eapply (refines_bind (⊆) (same_except (base mods)));
      [apply subseteq_then_same_except | apply subseteq_same_except
      | now apply refines_take_indices |].
    intros h2 pk pks H2 Hpk.
    eapply (refines_bind_left (same_except (base mods)) _ _ _ (Np.sum pks));
      [apply subseteq_then_same_except | now apply refines_sum |].
    intros h3 v H3 ->.
    apply refines_iadd_item.
    eapply holds_weaken; [|exact Hmods].
    repeat (etransitivity; [eassumption|]); reflexivity.
  - intros h2 [] s' H2 Hs'. apply refines_ret; [|exact Hs'].
    intros l' buf _ Hl'. exact Hl'.
Qed.

Hypothesis Hw : base2 (weight_matrix_mean nd) ≠ base mods.
Hypothesis Hk : base2 (indegrees nd) ≠ base mods.
Hypothesis He : base (ext_indegrees nd) ≠ base mods.
Hypothesis Hr : base rates ≠ base mods.
Hypothesis Ht : base tau_syn ≠ base mods.

Lemma refines_loop ixs : ∀ h s,
  inputs nd t rates tau_syn rs ts h → holds h mods s →
  refines (same_except (base mods)) h
    (for_each_ (loop_body nd np rates tau_syn mods excluded) ixs)
    (for_each (Mesocircuit.loop_body t np rs ts excluded) ixs s)
    (λ h' _ s', holds h' mods s' ∧ inputs nd t rates tau_syn rs ts h').
Proof.
  induction ixs as [|ix ixs IH]; intros h s Hin Hmods; cbn [for_each_ for_each].
  - apply refines_ret; [|now split]. intros l' buf _ Hl'. exact Hl'.
  - eapply (refines_bind (same_except (base mods)) (same_except (base mods)));
      [apply same_except_trans | auto | now apply refines_loop_body |].
    intros h1 [] s1 H1 Hs1. apply IH; [|exact Hs1].
    now apply (inputs_same_except (base mods) h).
Qed.

End Loop.

Lemma inputs_fresh h (a : ndarray) :
  inputs nd t rates tau_syn rs ts h → h !! base a = None →
  base2 (weight_matrix_mean nd) ≠ base a ∧ base2 (indegrees nd) ≠ base a ∧
  base (ext_indegrees nd) ≠ base a ∧ base rates ≠ base a ∧
  base tau_syn ≠ base a.
Proof.
  intros [[[? W] _] [[? K] _] [[? E] _] [[? R] _] [[? T] _] _ _] Hf.
  repeat split; congruence.
Qed.

(** The compensation cell over the heap returns an array with the numbers
    of the cell over values, or raises the same exception; every buffer that
    existed before is unchanged. *)
Lemma refines_indegree_modifications_for h included excluded :
  inputs nd t rates tau_syn rs ts h →
  refines (⊆) h
    (indegree_modifications_for nd np rates tau_syn included excluded)
    (Mesocircuit.indegree_modifications_for t np rs ts included excluded)
    (λ h' mods ms, holds h' mods ms ∧ inputs nd t rates tau_syn rs ts h').
Proof.
  intros Hin.
  unfold indegree_modifications_for, Mesocircuit.indegree_modifications_for, zeros.
  destruct (refines_alloc h (Np.zeros (length included))) as [H1 H2].
  unfold mbind, M_bind, bind, refines.
  destruct (alloc (Np.zeros (length included)) h) as [[mods|e] h1] eqn:E;
    cbn in H1, H2; [|contradiction].
  destruct H2 as [Hmods Hfresh].
  destruct (inputs_fresh h mods Hin Hfresh) as (Nw & Nk & Ne & Nr & Nt).
  destruct (refines_loop mods excluded Nw Nk Ne Nr Nt (Np.enumerate included)
              h1 (Np.zeros (length included))
              (inputs_weaken h h1 H1 Hin) Hmods) as [H3 H4].
  destruct (for_each_ _ _ h1) as [[[]|e] h2]; cbn in H3, H4 |- *;
    destruct (for_each _ _ _) as [s'|e']; try contradiction.
  - split; [|exact H4].
    apply map_subseteq_spec. intros l buf Hl. apply H3.
    + intros ->. congruence.
    + exact (lookup_weaken h h1 l buf Hl H1).
  - split; [|exact H4].
    apply map_subseteq_spec. intros l buf Hl. apply H3.
    + intros ->. congruence.
    + exact (lookup_weaken h h1 l buf Hl H1).
Qed.

Lemma refines_K_ext h mods ms popid i :
  inputs nd t rates tau_syn rs ts h → holds h mods ms →
  refines (⊆) h (K_ext nd mods popid i) (Mesocircuit.K_ext t ms popid i)
    (λ _ k k', k = k').
Proof.
  intros Hin Hmods. unfold K_ext, Mesocircuit.K_ext.
  eapply refines_bind_mono; [apply refines_getitem, Hin|].
  intros h1 b b' H1 ->.
  eapply refines_bind_mono;
    [apply refines_getitem; eapply holds_weaken; eassumption|].
  intros h2 m m' H2 ->. now apply refines_ret.
Qed.

(** The compensation over the heap is the compensation over values: the
    same exception, or the same in-degree modifications and the same new
    external in-degrees. *)
Theorem new_ext_indegrees_refines h included excluded :
  inputs nd t rates tau_syn rs ts h →
  refines (⊆) h
    (new_ext_indegrees nd np rates tau_syn included excluded)
    (Mesocircuit.new_ext_indegrees t np rs ts included excluded)
    (λ _ x y, x = y).
Proof.
  intros Hin. unfold new_ext_indegrees, Mesocircuit.new_ext_indegrees.
  eapply refines_bind_mono; [now apply refines_indegree_modifications_for|].
  intros h1 mods ms H1 [Hmods Hin1].
  eapply refines_bind_mono; [now apply refines_K_ext|].
  intros h2 k6 k6' H2 ->.
  eapply refines_bind_mono.
  { apply refines_K_ext; [eapply inputs_weaken | eapply holds_weaken];
      eassumption. }
  intros h3 k7 k7' H3 ->.
  eapply (refines_bind_left (⊆) (⊆) _ _ ms);
    [intros ? h' ? ? ?; now transitivity h'| |].
  { apply refines_read. eapply holds_weaken; [|exact Hmods].
    now transitivity h2. }
  intros h4 ms' H4 ->. now apply refines_ret.
Qed.

End Compensation.

(** *** The cells before the compensation only read *)

Lemma readonly_ret {A} (a : A) : readonly (ret a).
Proof. intros h. reflexivity. Qed.

Lemma readonly_raise {A} (e : error) : readonly (@raise A e).
Proof. intros h. reflexivity. Qed.

Lemma readonly_bind {A B} (m : M A) (f : A → M B) :
  readonly m → (∀ a, readonly (f a)) → readonly (m ≫= f).
Proof.
  intros Hm Hf h. unfold mbind, M_bind, bind. specialize (Hm h).
  destruct (m h) as [[a|e] h1]; cbn in *; subst; [apply Hf | reflexivity].
Qed.

Lemma readonly_getitem a i : readonly (getitem a i).
Proof. intros h. reflexivity. Qed.

Lemma readonly_getitem2 a i j : readonly (getitem2 a i j).
Proof.
  unfold getitem2. destruct (decide _);
    [apply readonly_getitem | apply readonly_raise].
Qed.

Lemma readonly_scale_neurons nd : readonly (scale_neurons nd).
Proof.
  unfold scale_neurons.
  apply readonly_bind; [apply readonly_getitem|]. intros n6. cbv zeta.
  apply readonly_bind; [apply readonly_getitem|]. intros n7.
  apply readonly_ret.
Qed.

Lemma readonly_layer6 m : readonly (layer6 m).
Proof.
  unfold layer6.
  do 4 (apply readonly_bind; [apply readonly_getitem2|]; intros ?).
  apply readonly_ret.
Qed.

Lemma readonly_weights nd : readonly (weights nd).
Proof.
  unfold weights.
  apply readonly_bind; [apply readonly_getitem2|]. intros we. cbv zeta.
  apply readonly_bind; [apply readonly_getitem2|]. intros wi.
  apply readonly_ret.
Qed.

Lemma readonly_delays nd : readonly (delays nd).
Proof.
  unfold delays.
  do 2 (apply readonly_bind; [apply readonly_getitem|]; intros ?).
  apply readonly_ret.
Qed.

Lemma bind_Ok_heap {A B} (m : M A) (f : A → M B) h b :
  ((m ≫= f) h).1 = Ok b →
  ∃ a, (m h).1 = Ok a ∧ (f a (m h).2).1 = Ok b.
Proof.
  unfold mbind, M_bind, bind.
  destruct (m h) as [[a|e] h1]; cbn; [eauto | discriminate].
Qed.

Lemma represents_inputs h nd t rates tau_syn rs ts :
  represents h nd t → holds h rates rs → holds h tau_syn ts →
  inputs nd t rates tau_syn rs ts h.
Proof. intros [N K B W D V E G X] Hr Ht. now split. Qed.

Lemma represents_weaken h h' nd t :
  h ⊆ h' → represents h nd t → represents h' nd t.
Proof.
  intros Hh [N K B W D V E G X].
  split; eauto using holds_weaken, holds2_weaken.
Qed.


(** Whenever the cells of the notebook run through over a heap that
    represents the table [t], the in-degree modifications and the new external
    in-degrees they derive are those of the cells over values. *)
Theorem derived_quantities_compensation h nd t np d :
  represents h nd t →
  (derived_quantities nd np h).1 = Ok d →
  Mesocircuit.new_ext_indegrees t np Mesocircuit.rates_meso
    (Mesocircuit.make_tau_syn np)
    Mesocircuit.included_popids Mesocircuit.excluded_popids
  = Ok (indegree_modifications d, K_ext_L6E d, K_ext_L6I d).
Proof.
  intros Hrep Hrun. unfold derived_quantities in Hrun.
  apply bind_Ok_heap in Hrun as ([N6 N7] & _ & Hrun).
  rewrite readonly_scale_neurons in Hrun.
  apply bind_Ok_heap in Hrun as ([[[K66 K76] K67] K77] & _ & Hrun).
  rewrite readonly_layer6 in Hrun.
  apply bind_Ok_heap in Hrun as ([[[b66 b76] b67] b77] & _ & Hrun).
  rewrite readonly_layer6 in Hrun.
  apply bind_Ok_heap in Hrun as ([[[wex sex] win] sin] & _ & Hrun).
  rewrite readonly_weights in Hrun.
  apply bind_Ok_heap in Hrun as ([dl v] & _ & Hrun).
  rewrite readonly_delays in Hrun.
  apply bind_Ok_heap in Hrun as (rates & Hr & Hrun).
  destruct (refines_alloc h Mesocircuit.rates_meso) as [H1 Hrates].
  rewrite Hr in Hrates. destruct Hrates as [Hrates _].
  set (h1 := (alloc Mesocircuit.rates_meso h).2) in *.
  apply bind_Ok_heap in Hrun as (tau & Ht & Hrun).
  destruct (refines_alloc h1 (Mesocircuit.make_tau_syn np)) as [H2 Htau].
  rewrite Ht in Htau. destruct Htau as [Htau _].
  set (h2 := (alloc (Mesocircuit.make_tau_syn np) h1).2) in *.
  apply bind_Ok_heap in Hrun as ([[ms k6] k7] & Hc & Hrun).
  injection Hrun as <-. cbn [indegree_modifications K_ext_L6E K_ext_L6I].
  assert (Hin : inputs nd t rates tau Mesocircuit.rates_meso
                  (Mesocircuit.make_tau_syn np) h2).
  { apply represents_inputs; [|now apply (holds_weaken h1) | exact Htau].
    apply (represents_weaken h); [now transitivity h1 | exact Hrep]. }
  destruct (new_ext_indegrees_refines nd np t rates tau _ _ h2
              Mesocircuit.included_popids Mesocircuit.excluded_popids Hin)
    as [_ Hres].
  rewrite Hc in Hres.
  destruct (Mesocircuit.new_ext_indegrees _ _ _ _ _ _); [|contradiction].
  now subst.
Qed.

End HeapRefinement.

(** ** The DC amplitude for a target rate *)

Module ShortTermPlasticityFacts.

Import ShortTermPlasticity.
Open Scope R_scope.

Lemma exp_neg_lt_1 x : 0 < x → exp (- x) < 1.
Proof.
  intros H. rewrite <- exp_0. apply exp_increasing. lra.
Qed.

Lemma charge_pos (p : NrnParams) t :
  0 < tau_m p → 0 < t → 0 < 1 - exp (- t / tau_m p).
Proof.
  intros Htau Ht.
  assert (E : - t / tau_m p = - (t / tau_m p)) by (field; lra).
  rewrite E.
  pose proof (exp_neg_lt_1 (t / tau_m p) (Rdiv_lt_0_compat _ _ Ht Htau)).
  lra.
Qed.

(** The closed form solves the equation of the leaky integrator. *)
Lemma membrane_potential_ode (p : NrnParams) (I t : R) :
  0 < tau_m p → 0 < C_m p →
  derivable_pt_lim (membrane_potential p I) t
    ((I - C_m p * membrane_potential p I t / tau_m p) / C_m p).
Proof.
  intros Htau HC.
  assert (D1 : derivable_pt_lim (fun s => - s / tau_m p) t (- 1 / tau_m p)).
  { apply (derivable_pt_lim_div_scal (fun s => - s)).
    apply (derivable_pt_lim_opp id). apply derivable_pt_lim_id. }
  pose proof (derivable_pt_lim_comp _ exp t _ _ D1
                (derivable_pt_lim_exp (- t / tau_m p))) as D2.
  pose proof (derivable_pt_lim_minus _ _ t _ _
                (derivable_pt_lim_const 1 t) D2) as D3.
  pose proof (derivable_pt_lim_scal _ (I * tau_m p / C_m p) t _ D3) as D4.
  unfold membrane_potential.
  replace ((I - C_m p * (I * tau_m p / C_m p * (1 - exp (- t / tau_m p)))
                / tau_m p) / C_m p)
    with (I * tau_m p / C_m p * (0 - exp (- t / tau_m p) * (- 1 / tau_m p)))
    by (field; lra).
  exact D4.
Qed.

Lemma membrane_potential_0 (p : NrnParams) (I : R) :
  membrane_potential p I 0 = 0.
Proof.
  unfold membrane_potential.
  replace (- 0 / tau_m p) with 0 by (unfold Rdiv; ring).
  rewrite exp_0. ring.
Qed.

Section Amplitude.

Variables (p : NrnParams) (f : R).
Hypothesis Htau : 0 < tau_m p.
Hypothesis HC : 0 < C_m p.
Hypothesis Hf : 0 < f.
Hypothesis Href : t_ref p < 1 / f.

(** The defining equation of the amplitude. *)
Lemma I0_threshold_equation :
  V_th p = I0_for p f * tau_m p / C_m p
           * (1 - exp (- (1 / f - t_ref p) / tau_m p)).
Proof.
  pose proof (charge_pos p (1 / f - t_ref p) Htau ltac:(lra)) as Hc.
  unfold I0_for. field. lra.
Qed.

Lemma I0_scale_pos : 0 < V_th p → 0 < I0_for p f * tau_m p / C_m p.
Proof.
  intros Hth.
  pose proof (charge_pos p (1 / f - t_ref p) Htau ltac:(lra)) as Hc.
  replace (I0_for p f * tau_m p / C_m p)
    with (V_th p / (1 - exp (- (1 / f - t_ref p) / tau_m p)))
    by (unfold I0_for; field; lra).
  now apply Rdiv_lt_0_compat.
Qed.

(** C7: the amplitude [I0] elicits the target frequency [f].  For
    [tau_m > 0], [C_m > 0], [f > 0] and [1 / f > t_ref] it satisfies
    [V_th = (I0 tau_m / C_m) (1 - exp (- (1 / f - t_ref) / tau_m))]: the leaky
    integrator that starts at potential 0 and is driven by [I0] is at the
    threshold [1 / f - t_ref] after the end of the refractory period (for a
    positive threshold not before), so that a spike follows the previous one
    after [t_ref + (1 / f - t_ref) = 1 / f]. *)
Theorem I0_elicits_target_rate :
  let T := 1 / f - t_ref p in
  V_th p = I0_for p f * tau_m p / C_m p * (1 - exp (- T / tau_m p)) ∧
  membrane_potential p (I0_for p f) 0 = 0 ∧
  membrane_potential p (I0_for p f) T = V_th p ∧
  (0 < V_th p →
   ∀ t, 0 <= t < T → membrane_potential p (I0_for p f) t < V_th p) ∧
  t_ref p + T = 1 / f.
Proof.
  cbv zeta.
  split; [exact I0_threshold_equation|].
  split; [apply membrane_potential_0|].
  split; [unfold membrane_potential; now rewrite <- I0_threshold_equation|].
  split; [|ring].
  intros Hth t [Ht0 HtT].
  rewrite I0_threshold_equation at 1. unfold membrane_potential.
  apply Rmult_lt_compat_l; [now apply I0_scale_pos|].
  assert (E : exp (- (1 / f - t_ref p) / tau_m p) < exp (- t / tau_m p)).
  { apply exp_increasing. unfold Rdiv.
    apply Rmult_lt_compat_r; [now apply Rinv_0_lt_compat | lra]. }
  lra.
Qed.

End Amplitude.

(** The amplitude of the notebook: 40 ms, 400 pF, 15 mV, 2 ms and 0.02 kHz,
    that is 48 ms of charging in a period of 50 ms. *)
Lemma I0_elicits_target_rate_witness :
  let T := 1 / f - t_ref nrn_params in
  V_th nrn_params
  = I0 * tau_m nrn_params / C_m nrn_params
    * (1 - exp (- T / tau_m nrn_params)) ∧
  membrane_potential nrn_params I0 0 = 0 ∧
  membrane_potential nrn_params I0 T = V_th nrn_params ∧
  (0 < V_th nrn_params →
   ∀ t, 0 <= t < T → membrane_potential nrn_params I0 t < V_th nrn_params) ∧
  t_ref nrn_params + T = 1 / f.
Proof.
  apply (I0_elicits_target_rate nrn_params f); unfold f; cbn; lra.
Defined.

End ShortTermPlasticityFacts.

(** ** The analysis cells of the reduced mesocircuit notebook *)

Module MesoPostFacts.

Import MesoPost.
Open Scope Q_scope.

(** *** The firing rate *)

Lemma spike_count_app ts1 ts2 :
  spike_count (ts1 ++ ts2) = (spike_count ts1 + spike_count ts2)%nat.
Proof.
  induction ts1 as [|t ts1 IH]; cbn [spike_count app]; [reflexivity|].
  rewrite IH. lia.
Qed.

Lemma spike_count_Permutation ts1 ts2 :
  ts1 ≡ₚ ts2 → spike_count ts1 = spike_count ts2.
Proof.
  induction 1 as [|t ts1 ts2 _ IH|t1 t2 ts|ts1 ts2 ts3 _ IH1 _ IH2];
    cbn [spike_count]; [reflexivity | now rewrite IH | lia | congruence].
Qed.

Lemma spike_count_early ts :
  Forall (λ t, t <= t_transient) ts → spike_count ts = 0%nat.
Proof.
  induction 1 as [|t ts Ht _ IH]; cbn [spike_count]; [reflexivity|].
  destruct (Qlt_le_dec t_transient t) as [Hlt|_]; [|exact IH].
  exfalso. apply (Qlt_not_le _ _ Hlt), Ht.
Qed.

Lemma spike_count_late ts :
  Forall (λ t, t_transient < t) ts → spike_count ts = length ts.
Proof.
  induction 1 as [|t ts Ht _ IH]; cbn [spike_count length]; [reflexivity|].
  destruct (Qlt_le_dec t_transient t) as [_|Hle]; [now rewrite IH|].
  exfalso. exact (Qlt_not_le _ _ Ht Hle).
Qed.

(** X1: the estimate of the firing rate counts exactly the spikes strictly
    later than [t_transient]: whatever the order of the recorded spike times,
    spikes at or before 100 ms are discarded and the others count 1000/900
    each, divided by the number of neurons; the estimate is never negative and
    is zero exactly when no spike is later than 100 ms. *)
Theorem rate_counts_late_spikes (spike_times early late : list Q) (N : Z) :
  (0 < N)%Z →
  Forall (λ t, t <= t_transient) early →
  Forall (λ t, t_transient < t) late →
  spike_times ≡ₚ early ++ late →
  rate spike_times N
  == (10 # 9) * inject_Z (Z.of_nat (length late)) / inject_Z N ∧
  0 <= rate spike_times N ∧
  (rate spike_times N == 0 ↔ late = []).
Proof.
  intros HN He Hl Hp.
  assert (HNq : 0 < inject_Z N) by (now rewrite Zlt_Qlt in HN).
  assert (Hc : spike_count spike_times = length late).
  { rewrite (spike_count_Permutation _ _ Hp), spike_count_app.
    now rewrite (spike_count_early _ He), (spike_count_late _ Hl). }
  assert (E : rate spike_times N
              == (10 # 9) * inject_Z (Z.of_nat (length late)) / inject_Z N).
  { unfold rate, t_sim, t_transient. rewrite Hc. field. lra. }
  assert (Hlen : 0 <= inject_Z (Z.of_nat (length late))).
  { rewrite <- (Zle_Qle 0). lia. }
  split; [exact E|]. split.
  - rewrite E. apply Qle_shift_div_l; [exact HNq|]. lra.
  - rewrite E. split.
    + intros H0. destruct late as [|t late]; [reflexivity|exfalso].
      assert (Hpos : 1 <= inject_Z (Z.of_nat (length (t :: late)))).
      { rewrite <- (Zle_Qle 1). cbn [length]. lia. }
      assert (Hq : 0 < (10 # 9) * inject_Z (Z.of_nat (length (t :: late)))
                       / inject_Z N).
      { apply Qlt_shift_div_l; [exact HNq|]. lra. }
      rewrite H0 in Hq. exact (Qlt_irrefl _ Hq).
    + intros ->. cbn. unfold Qdiv. ring.
Qed.

Lemma rate_counts_late_spikes_witness :
  rate [50; 100; 250; 100 + (1 # 10); 990] 45
  == (10 # 9) * inject_Z (Z.of_nat (length [250; 100 + (1 # 10); 990]))
     / inject_Z 45.
Proof.
  apply (rate_counts_late_spikes [50; 100; 250; 100 + (1 # 10); 990]
           [50; 100] [250; 100 + (1 # 10); 990] 45).
  - lia.
  - repeat constructor; unfold t_transient; lra.
  - repeat constructor; unfold t_transient; lra.
  - reflexivity.
Defined.

(** *** The x-position of a sender *)

Lemma getitem_signed_nonneg {A} (a : list A) (i : Z) x :
  (0 ≤ i)%Z → a !! Z.to_nat i = Some x → getitem_signed a i = Ok x.
Proof.
  intros Hi Hx. unfold getitem_signed. rewrite decide_True by exact Hi.
  now apply NpFacts.getitem_Some.
Qed.

Lemma getitem_signed_high {A} (a : list A) (i : Z) :
  (Z.of_nat (length a) ≤ i)%Z → getitem_signed a i = Raise IndexError.
Proof.
  intros Hi. unfold getitem_signed. rewrite decide_True by lia.
  apply NpFacts.getitem_Raise. split; [lia | reflexivity].
Qed.

Lemma getitem_signed_negative {A} (a : list A) (i : Z) x :
  (i < 0)%Z → a !! Z.to_nat (Z.of_nat (length a) + i) = Some x →
  (- Z.of_nat (length a) ≤ i)%Z →
  getitem_signed a i = Ok x.
Proof.
  intros Hi Hx Hn. unfold getitem_signed.
  rewrite decide_False by lia. rewrite decide_True by exact Hn.
  now apply NpFacts.getitem_Some.
Qed.

Lemma getitem_signed_low {A} (a : list A) (i : Z) :
  (i < - Z.of_nat (length a))%Z → getitem_signed a i = Raise IndexError.
Proof.
  intros Hi. unfold getitem_signed.
  rewrite decide_False by lia. now rewrite decide_False by lia.
Qed.

Lemma comprehension_fmap {A B} (f : A → result B) (g : A → B) xs :
  Forall (λ x, f x = Ok (g x)) xs → comprehension f xs = Ok (g <$> xs).
Proof.
  induction 1 as [|x xs Hx _ IH]; cbn [comprehension]; [reflexivity|].
  now rewrite Hx, NpFacts.bind_Ok, IH.
Qed.

Lemma comprehension_Raise {A B} (f : A → result B) xs1 x xs2 e :
  Forall (λ y, is_Ok (f y)) xs1 →
  f x = Raise e → comprehension f (xs1 ++ x :: xs2) = Raise e.
Proof.
  intros H Hx. induction H as [|y xs1 Hy _ IH]; cbn [comprehension app].
  - now rewrite Hx.
  - destruct Hy as [b ->]. now rewrite NpFacts.bind_Ok, IH.
Qed.

(** X2: every spike gets the x-position of its sender.  When the senders
    of L6E carry the node ids [1 .. N_L6E] and those of L6I the ids
    [N_L6E + 1 .. N_L6E + N_L6I] (the populations were created in this order),
    the two comprehensions return, spike by spike, the position of neuron
    [nid - 1] of L6E and of neuron [nid - 1 - N_L6E] of L6I, with no
    exception. *)
Theorem spike_senders_pos_in_range
    (x_positions_L6E x_positions_L6I : list Q) (senders_L6E senders_L6I : list Z) :
  let N_L6E := Z.of_nat (length x_positions_L6E) in
  let N_L6I := Z.of_nat (length x_positions_L6I) in
  Forall (λ nid, 1 ≤ nid ≤ N_L6E)%Z senders_L6E →
  Forall (λ nid, N_L6E + 1 ≤ nid ≤ N_L6E + N_L6I)%Z senders_L6I →
  spike_senders_pos_L6E x_positions_L6E senders_L6E
  = Ok ((λ nid, Mesocircuit.at0 x_positions_L6E (Z.to_nat (nid - 1)))
          <$> senders_L6E) ∧
  spike_senders_pos_L6I x_positions_L6I N_L6E senders_L6I
  = Ok ((λ nid, Mesocircuit.at0 x_positions_L6I (Z.to_nat (nid - 1 - N_L6E)))
          <$> senders_L6I).
Proof.
  cbv zeta. intros HE HI. split.
  - apply comprehension_fmap. eapply Forall_impl; [exact HE|].
    intros nid Hn. cbn beta in *. apply getitem_signed_nonneg; [lia|].
    apply MesocircuitFacts.at0_lookup. lia.
  - apply comprehension_fmap. eapply Forall_impl; [exact HI|].
    intros nid Hn. cbn beta in *. apply getitem_signed_nonneg; [lia|].
    apply MesocircuitFacts.at0_lookup. lia.
Qed.

Lemma spike_senders_pos_in_range_witness :
  spike_senders_pos_L6E [1 # 10; 2 # 10; 3 # 10] [3; 1; 1]%Z
  = Ok [3 # 10; 1 # 10; 1 # 10] ∧
  spike_senders_pos_L6I [-(1 # 2); 1 # 2] 3 [4; 5; 4]%Z
  = Ok [-(1 # 2); 1 # 2; -(1 # 2)].
Proof.
  apply (spike_senders_pos_in_range [1 # 10; 2 # 10; 3 # 10] [-(1 # 2); 1 # 2]
           [3; 1; 1]%Z [4; 5; 4]%Z).
  - repeat constructor; cbn; lia.
  - repeat constructor; cbn; lia.
Defined.

(** X3: a node id outside the range of a population is rejected only on
    one side.  An id above the range raises [IndexError]; an id below it (for
    L6I: the id of an L6E neuron, as long as it is at most [N_L6I] below the
    first id of L6I) makes the index negative, which counts from the end of
    the array: the comprehension returns the position of another neuron and
    raises nothing. *)
Theorem spike_senders_pos_out_of_range
    (x_positions_L6I : list Q) (N_L6E nid : Z) (before after : list Z) :
  let N_L6I := Z.of_nat (length x_positions_L6I) in
  Forall (λ n, N_L6E + 1 ≤ n ≤ N_L6E + N_L6I)%Z before →
  Forall (λ n, N_L6E + 1 ≤ n ≤ N_L6E + N_L6I)%Z after →
  ((N_L6E + N_L6I < nid)%Z →
   spike_senders_pos_L6I x_positions_L6I N_L6E (before ++ nid :: after)
   = Raise IndexError) ∧
  ((N_L6E - N_L6I < nid ≤ N_L6E)%Z →
   spike_senders_pos_L6I x_positions_L6I N_L6E (before ++ nid :: after)
   = Ok ((λ n, Mesocircuit.at0 x_positions_L6I
                 (Z.to_nat (if decide (N_L6E < n)%Z then n - 1 - N_L6E
                            else N_L6I + (n - 1 - N_L6E))))
           <$> before ++ nid :: after)) ∧
  ((nid ≤ N_L6E - N_L6I)%Z →
   spike_senders_pos_L6I x_positions_L6I N_L6E (before ++ nid :: after)
   = Raise IndexError).
Proof.
  cbv zeta. intros Hb Ha.
  assert (Hok : ∀ n, (N_L6E + 1 ≤ n ≤ N_L6E + Z.of_nat (length x_positions_L6I))%Z →
    getitem_signed x_positions_L6I (n - 1 - N_L6E)
    = Ok (Mesocircuit.at0 x_positions_L6I
            (Z.to_nat (if decide (N_L6E < n)%Z then n - 1 - N_L6E
                       else Z.of_nat (length x_positions_L6I) + (n - 1 - N_L6E))))).
  { intros n Hn. rewrite decide_True by lia.
    apply getitem_signed_nonneg; [lia|].
    apply MesocircuitFacts.at0_lookup. lia. }
  assert (Hbefore : Forall (λ y, is_Ok (getitem_signed x_positions_L6I
                                          (y - 1 - N_L6E))) before).
  { eapply Forall_impl; [exact Hb|]. intros n Hn. eexists. now apply Hok. }
  split; [|split].
  - intros Hhigh. apply comprehension_Raise; [exact Hbefore|].
    apply getitem_signed_high. lia.
  - intros Hlow. apply comprehension_fmap.
    apply Forall_app. split; [|constructor].
    + eapply Forall_impl; [exact Hb|]. intros n Hn. now apply Hok.
    + cbn beta. rewrite decide_False by lia.
      apply getitem_signed_negative; [lia | | lia].
      apply MesocircuitFacts.at0_lookup. lia.
    + eapply Forall_impl; [exact Ha|]. intros n Hn. now apply Hok.
  - intros Hlow. apply comprehension_Raise; [exact Hbefore|].
    apply getitem_signed_low. lia.
Qed.

Lemma spike_senders_pos_out_of_range_witness :
  spike_senders_pos_L6I [-(1 # 2); 1 # 2] 3 [4; 3; 5]%Z
  = Ok [-(1 # 2); 1 # 2; 1 # 2] ∧
  spike_senders_pos_L6I [-(1 # 2); 1 # 2] 3 [4; 6; 5]%Z = Raise IndexError ∧
  spike_senders_pos_L6I [-(1 # 2); 1 # 2] 3 [4; 1; 5]%Z = Raise IndexError.
Proof.
  assert (Hb : Forall (λ n, 3 + 1 ≤ n ≤ 3 + Z.of_nat 2)%Z [4%Z])
    by (repeat constructor; cbn; lia).
  assert (Ha : Forall (λ n, 3 + 1 ≤ n ≤ 3 + Z.of_nat 2)%Z [5%Z])
    by (repeat constructor; cbn; lia).
  split; [|split].
  - exact (proj1 (proj2 (spike_senders_pos_out_of_range [-(1 # 2); 1 # 2] 3 3
                           [4%Z] [5%Z] Hb Ha)) ltac:(cbn; lia)).
  - exact (proj1 (spike_senders_pos_out_of_range [-(1 # 2); 1 # 2] 3 6
                    [4%Z] [5%Z] Hb Ha) ltac:(cbn; lia)).
  - exact (proj2 (proj2 (spike_senders_pos_out_of_range [-(1 # 2); 1 # 2] 3 1
                           [4%Z] [5%Z] Hb Ha)) ltac:(cbn; lia)).
Defined.

(** *** The frame around the thalamic input *)

(** X4: the four lines of [plotsetup] close a rectangle.  With the limits
    that [plotsetup] sets, the two vertical lines at [th_start] and [th_stop]
    span the x-positions from [-th_radius] to [th_radius], and the two
    horizontal lines at [-th_radius] and [th_radius] span the times from
    [th_start] to [th_stop], provided the spatial extent is not zero and the
    time window is not empty. *)
Theorem plotsetup_closes_rectangle (th_start th_stop th_radius extent : Q) :
  ¬ extent == 0 → ¬ th_stop + 30 == th_start - 30 →
  let ax := plotsetup th_start th_stop th_radius extent in
  position <$> axvlines ax = [th_start; th_stop] ∧
  Forall (λ l, data_coordinate (ylim ax) (span_min l) == - th_radius ∧
               data_coordinate (ylim ax) (span_max l) == th_radius)
         (axvlines ax) ∧
  position <$> axhlines ax = [- th_radius; th_radius] ∧
  Forall (λ l, data_coordinate (xlim ax) (span_min l) == th_start ∧
               data_coordinate (xlim ax) (span_max l) == th_stop)
         (axhlines ax).
Proof.
  intros He Hx. cbv zeta.
  assert (Hx' : ¬ th_stop + 30 - (th_start - 30) == 0).
  { intros E. apply Hx. lra. }
  split; [reflexivity|]. split; [|split; [reflexivity|]].
  - repeat constructor; unfold data_coordinate; cbn; field; exact He.
  - repeat constructor; unfold data_coordinate; cbn; field; exact Hx'.
Qed.

Lemma plotsetup_closes_rectangle_witness :
  let ax := plotsetup MesoPost.th_start MesoPost.th_stop MesoPost.th_radius 4 in
  Forall (λ l, data_coordinate (ylim ax) (span_min l) == - MesoPost.th_radius ∧
               data_coordinate (ylim ax) (span_max l) == MesoPost.th_radius)
         (axvlines ax).
Proof.
  apply (plotsetup_closes_rectangle MesoPost.th_start MesoPost.th_stop
           MesoPost.th_radius 4).
  - intros H. vm_compute in H. discriminate.
  - intros H. vm_compute in H. discriminate.
Defined.

End MesoPostFacts.

(** ** The cells that read the table *)

Module HeapCellsFacts.

Import Heap HeapRefinement.
Open Scope Q_scope.



Lemma getitem_run h a xs i :
  holds h a xs → getitem a i h = (Np.getitem xs i, h).
Proof.
  intros (_ & Hc & _). unfold getitem, mbind, M_bind, bind, read, lift.
  now rewrite Hc.
Qed.

Lemma getitem2_run h a rows i j :
  holds2 h a rows →
  getitem2 a i j h = (row ← Np.getitem rows i; Np.getitem row j, h).
Proof.
  intros Ha. unfold getitem2.
  destruct (Np.getitem rows i) as [row|e] eqn:E.
  - apply NpFacts.getitem_Ok in E.
    destruct (holds2_row h a rows i row Ha E) as [Hi Hv].
    rewrite decide_True by exact Hi.
    now rewrite (getitem_run h _ row _ Hv).
  - apply NpFacts.getitem_Raise in E as [E ->]. destruct Ha as (_ & <- & _).
    rewrite length_contents2 in E. now rewrite decide_False by lia.
Qed.



(** X6: the weights of the connections.  The cell returns the mean weights
    [w_mean_ex = W[6, 6]] and [w_mean_in = W[7, 7]] with the standard
    deviations [w_mean_ex * rel_std] and [- w_mean_in * rel_std] and leaves
    the heap as it was.  Both standard deviations are non-negative when the
    relative standard deviation is, the excitatory mean is not negative and
    the inhibitory mean is not positive; for a positive "inhibitory" mean the
    standard deviation that is returned is negative. *)
Theorem weights_standard_deviations h nd rows r6 r7 wex win :
  holds2 h (weight_matrix_mean nd) rows →
  rows !! 6%nat = Some r6 → r6 !! 6%nat = Some wex →
  rows !! 7%nat = Some r7 → r7 !! 7%nat = Some win →
  ∃ sex sin,
    weights nd h = (Ok (wex, sex, win, sin), h) ∧
    sex == wex * weight_rel_std nd ∧ sin == - win * weight_rel_std nd ∧
    (0 <= weight_rel_std nd → 0 <= wex → win <= 0 → 0 <= sex ∧ 0 <= sin) ∧
    (0 < weight_rel_std nd → 0 < win → sin < 0).
Proof.
  intros Hh H6 H66 H7 H77. unfold weights, mbind, M_bind, bind.
  rewrite (getitem2_run h _ rows _ _ Hh), (NpFacts.getitem_Some _ _ _ H6),
    NpFacts.bind_Ok, (NpFacts.getitem_Some _ _ _ H66).
  rewrite (getitem2_run h _ rows _ _ Hh), (NpFacts.getitem_Some _ _ _ H7),
    NpFacts.bind_Ok, (NpFacts.getitem_Some _ _ _ H77).
  eexists _, _. split; [reflexivity|].
  split; [reflexivity|]. split; [reflexivity|]. split.
  - intros Hs Hwex Hwin. split; [nra | nra].
  - intros Hs Hwin. nra.
Qed.

Lemma variant_represents :
  represents MesoPost.variant_heap example_net_dict
    Mesocircuit.example_table_variant.
Proof.
  split; try reflexivity;
    (split; [vm_compute; eexists; reflexivity|]);
    (split; [vm_compute; reflexivity|]); vm_compute; first [reflexivity | lia].
Qed.

Lemma weights_standard_deviations_witness :
  ∃ sex sin,
    weights example_net_dict MesoPost.variant_heap
    = (Ok (5, sex, -1, sin), MesoPost.variant_heap) ∧
    sex == 5 * weight_rel_std example_net_dict ∧
    sin == - -1 * weight_rel_std example_net_dict ∧
    (0 <= weight_rel_std example_net_dict → 0 <= 5 → -1 <= 0 →
     0 <= sex ∧ 0 <= sin) ∧
    (0 < weight_rel_std example_net_dict → 0 < -1 → sin < 0).
Proof.
  apply (weights_standard_deviations MesoPost.variant_heap example_net_dict
           (Mesocircuit.weight_matrix_mean Mesocircuit.example_table_variant)
           [10; 0; 0; 0; 0; 0; 5; -3; 9] [0; 0; 0; 0; 0; 0; 1; -1; 4] 5 (-1)
           (rep_weight_matrix_mean _ _ _ variant_represents));
    reflexivity.
Defined.

End HeapCellsFacts.

(** ** More on the DC amplitude *)

Module AmplitudeFacts.

Import ShortTermPlasticity ShortTermPlasticityFacts.
Open Scope R_scope.

(** X7: the amplitude exceeds [V_th * C_m / tau_m].  For a positive
    threshold and a period [1 / f] longer than the refractory time, the
    divisor [1 - exp(-(1 / f - t_ref) / tau_m)] lies strictly between 0 and
    1, so [I0] is positive and strictly larger than [V_th * C_m / tau_m]. *)
Theorem I0_above_rheobase (p : NrnParams) (f : R) :
  0 < tau_m p → 0 < C_m p → 0 < f → t_ref p < 1 / f → 0 < V_th p →
  0 < 1 - exp (- (1 / f - t_ref p) / tau_m p) < 1 ∧
  0 < V_th p * C_m p / tau_m p < I0_for p f.
Proof.
  intros Htau HC Hf Href Hth.
  pose proof (charge_pos p (1 / f - t_ref p) Htau ltac:(lra)) as Hc.
  pose proof (exp_pos (- (1 / f - t_ref p) / tau_m p)) as He.
  assert (HA : 0 < V_th p * C_m p / tau_m p).
  { apply Rdiv_lt_0_compat; [nra | exact Htau]. }
  split; [lra|]. split; [exact HA|].
  unfold I0_for.
  set (A := V_th p * C_m p / tau_m p) in *.
  set (D := 1 - exp (- (1 / f - t_ref p) / tau_m p)) in *.
  assert (HD : D < 1) by (unfold D; lra).
  apply (Rmult_lt_reg_r D); [exact Hc|].
  replace (A / D * D) with A by (field; lra). nra.
Qed.

Lemma I0_above_rheobase_witness :
  0 < 1 - exp (- (1 / f - t_ref nrn_params) / tau_m nrn_params) < 1 ∧
  0 < V_th nrn_params * C_m nrn_params / tau_m nrn_params < I0.
Proof.
  apply (I0_above_rheobase nrn_params f); unfold f; cbn; lra.
Defined.

(** X8: a higher target frequency needs a larger amplitude.  For a positive
    threshold, [I0] is strictly increasing in [f] as long as the period
    [1 / f] is longer than the refractory time. *)
Theorem I0_increasing_in_f (p : NrnParams) (f1 f2 : R) :
  0 < tau_m p → 0 < C_m p → 0 < V_th p →
  0 < f1 → f1 < f2 → t_ref p < 1 / f2 →
  I0_for p f1 < I0_for p f2.
Proof.
  intros Htau HC Hth Hf1 Hf12 Href.
  assert (Hf2 : 0 < f2) by lra.
  assert (Hinv : 1 / f2 < 1 / f1).
  { unfold Rdiv. rewrite !Rmult_1_l. now apply Rinv_lt_contravar; [nra|]. }
  pose proof (charge_pos p (1 / f1 - t_ref p) Htau ltac:(lra)) as Hc1.
  pose proof (charge_pos p (1 / f2 - t_ref p) Htau ltac:(lra)) as Hc2.
  assert (He : exp (- (1 / f1 - t_ref p) / tau_m p)
               < exp (- (1 / f2 - t_ref p) / tau_m p)).
  { apply exp_increasing. unfold Rdiv.
    apply Rmult_lt_compat_r; [now apply Rinv_0_lt_compat | lra]. }
  assert (HA : 0 < V_th p * C_m p / tau_m p).
  { apply Rdiv_lt_0_compat; [nra | exact Htau]. }
  unfold I0_for.
  set (A := V_th p * C_m p / tau_m p) in *.
  set (D1 := 1 - exp (- (1 / f1 - t_ref p) / tau_m p)) in *.
  set (D2 := 1 - exp (- (1 / f2 - t_ref p) / tau_m p)) in *.
  assert (HD : D2 < D1) by (unfold D1, D2; lra).
  unfold Rdiv. apply Rmult_lt_compat_l; [exact HA|].
  now apply Rinv_lt_contravar; [nra|].
Qed.

Lemma I0_increasing_in_f_witness :
  I0_for nrn_params (1 / 100) < I0_for nrn_params f.
Proof.
  apply (I0_increasing_in_f nrn_params (1 / 100) f); unfold f; cbn; lra.
Defined.

End AmplitudeFacts.
(** ** The rates of the Poisson generators of the Clopath notebook *)

Module ClopathInputFacts.

Import ClopathInput.

Open Scope R_scope.

Lemma rates_exponent_le (mu j1 j2 : Z) :
  (Z.abs (j1 - mu) <= Z.abs (j2 - mu))%Z →
  (-1 * IZR ((j2 - mu) ^ 2)) / (2 * pg_sigma ^ 2)
  <= (-1 * IZR ((j1 - mu) ^ 2)) / (2 * pg_sigma ^ 2).
Proof.
  intros H.
  assert (Hsq : ((j1 - mu) ^ 2 <= (j2 - mu) ^ 2)%Z) by nia.
  apply IZR_le in Hsq. unfold pg_sigma.
  apply Rmult_le_compat_r; [|lra].
  left. apply Rinv_0_lt_compat. lra.
Qed.

Lemma rates_abs (mu j1 j2 : Z) :
  Z.abs (j1 - mu) = Z.abs (j2 - mu) → rates mu j2 = rates mu j1.
Proof.
  intros H. unfold rates.
  replace ((j2 - mu) ^ 2)%Z with ((j1 - mu) ^ 2)%Z by nia. reflexivity.
Qed.

Lemma exp_le (x y : R) : x <= y → exp x <= exp y.
Proof.
  intros [H| ->]; [left; now apply exp_increasing | right; reflexivity].
Qed.

(** X9: whichever of the ten numbers [random.randint(0, 9)] draws, the centre
    [pg_mu] of the bump is the index of one of the 500 generators; the
    generator at the centre gets the rate 52.5, which is the largest rate; no
    rate is negative, generators at the same distance from the centre get
    the same rate, and a generator farther from the centre gets a rate that
    is not higher. *)
Theorem pg_rate_bump (k j1 j2 : Z) :
  (0 <= k <= 9)%Z →
  let mu := pg_mu k in
  (0 <= mu < 500)%Z ∧
  pg_rate mu mu = 525 / 10 ∧
  0 <= pg_rate mu j1 <= 525 / 10 ∧
  ((Z.abs (j1 - mu) = Z.abs (j2 - mu))%Z → pg_rate mu j2 = pg_rate mu j1) ∧
  ((Z.abs (j1 - mu) <= Z.abs (j2 - mu))%Z → pg_rate mu j2 <= pg_rate mu j1).
Proof.
  intros Hk mu.
  assert (Hcentre : pg_rate mu mu = 525 / 10).
  { unfold pg_rate, rates, pg_A.
    replace ((-1 * IZR ((mu - mu) ^ 2)) / (2 * pg_sigma ^ 2)) with 0.
    - rewrite exp_0. lra.
    - rewrite Z.sub_diag. change (0 ^ 2)%Z with 0%Z. unfold Rdiv. ring. }
  assert (Hmono : ∀ a b, (Z.abs (a - mu) <= Z.abs (b - mu))%Z →
                         pg_rate mu b <= pg_rate mu a).
  { intros a b Hle. unfold pg_rate, rates, pg_A.
    pose proof (exp_le _ _ (rates_exponent_le mu a b Hle)). lra. }
  split; [unfold mu, pg_mu; lia|].
  split; [exact Hcentre|].
  split.
  { split.
    - unfold pg_rate, rates, pg_A.
      pose proof (exp_pos ((-1 * IZR ((j1 - mu) ^ 2)) / (2 * pg_sigma ^ 2))).
      nra.
    - rewrite <- Hcentre. apply Hmono. rewrite Z.sub_diag. simpl. lia. }
  split.
  - intros Heq. unfold pg_rate. now rewrite (rates_abs mu j1 j2 Heq).
  - apply Hmono.
Qed.

Lemma pg_rate_bump_witness :
  let mu := pg_mu 3 in
  (0 <= mu < 500)%Z ∧
  pg_rate mu mu = 525 / 10 ∧
  0 <= pg_rate mu 170 <= 525 / 10 ∧
  ((Z.abs (170 - mu) = Z.abs (190 - mu))%Z
   → pg_rate mu 190 = pg_rate mu 170) ∧
  ((Z.abs (170 - mu) <= Z.abs (190 - mu))%Z
   → pg_rate mu 190 <= pg_rate mu 170).
Proof. apply (pg_rate_bump 3 170 190). lia. Defined.

End ClopathInputFacts.

(** ** The weight matrix of the Clopath notebook *)

Module ClopathWeightsFacts.

Import Np NpFacts Mesocircuit MesocircuitFacts MesoPost MesoPostFacts ClopathWeights.

Open Scope nat_scope.

(** *** Lists *)

Lemma fmap_lookup_seq {A} (d : A) (l : list A) :
  (λ i, default d (l !! i)) <$> seq 0 (length l) = l.
Proof.
  apply list_eq. intros i. rewrite list_lookup_fmap.
  destruct (decide (i < length l)) as [Hi|Hi].
  - rewrite lookup_seq_lt by exact Hi. simpl.
    destruct (lookup_lt_is_Some_2 l i Hi) as [x Hx]. now rewrite Hx.
  - rewrite lookup_seq_ge, lookup_ge_None_2 by lia. reflexivity.
Qed.

Lemma filter_all {A} (P : A → Prop) `{∀ x, Decision (P x)} (l : list A) :
  Forall P l → filter P l = l.
Proof.
  induction 1 as [|x l Hx _ IH]; [reflexivity|].
  now rewrite filter_cons_True, IH.
Qed.

Lemma filter_none {A} (P : A → Prop) `{∀ x, Decision (P x)} (l : list A) :
  Forall (λ x, ¬ P x) l → filter P l = [].
Proof.
  induction 1 as [|x l Hx _ IH]; [reflexivity|].
  now rewrite filter_cons_False.
Qed.

(** A list sorted by a key is the elements below a threshold followed by the
    others. *)
Lemma sorted_split {A} (key : A → nat) (P : A → Prop)
    `{∀ x, Decision (P x)} (l : list A) :
  (∀ x y, P y → key x ≤ key y → P x) →
  StronglySorted le (key <$> l) →
  l = filter P l ++ filter (λ x, ¬ P x) l.
Proof.
  intros Hdown. induction l as [|x l IH]; intros Hs; [reflexivity|].
  rewrite fmap_cons in Hs. apply StronglySorted_inv in Hs as [Hs Hx].
  destruct (decide (P x)) as [HP|HP].
  - rewrite filter_cons_True, (filter_cons_False (λ x, ¬ P x)) by tauto.
    simpl. f_equal. apply IH, Hs.
  - rewrite filter_cons_False, (filter_cons_True (λ x, ¬ P x)) by tauto.
    assert (Hall : Forall (λ y, ¬ P y) l).
    { apply Forall_forall. intros y Hy HPy. apply HP.
      apply (Hdown x y HPy).
      rewrite Forall_forall in Hx. apply Hx.
      apply list_elem_of_fmap. now exists y. }
    rewrite (filter_none P l Hall), (filter_all (λ y, ¬ P y) l Hall).
    reflexivity.
Qed.

(** If a list sorted by a key is a permutation of [front ++ back] and the keys
    of [front] are below those of [back], the list begins with a permutation
    of [front]. *)
Lemma sorted_prefix {A} (key : A → nat) (l front back : list A) :
  l ≡ₚ front ++ back →
  StronglySorted le (key <$> l) →
  (∀ x y, x ∈ front → y ∈ back → key x < key y) →
  take (length front) l ≡ₚ front ∧ drop (length front) l ≡ₚ back.
Proof.
  intros Hperm Hs Hlt.
  set (P := λ x : A, Exists (λ y, key x ≤ key y) front).
  assert (Hdown : ∀ x y, P y → key x ≤ key y → P x).
  { intros x y HPy Hxy. unfold P in *. rewrite Exists_exists in *.
    destruct HPy as (z & Hz & Hyz). exists z. split; [exact Hz|lia]. }
  pose proof (sorted_split key P l Hdown Hs) as Hl.
  assert (Hfront : filter P l ≡ₚ front).
  { rewrite Hperm, filter_app.
    rewrite (filter_all P front), (filter_none P back).
    - now rewrite app_nil_r.
    - apply Forall_forall. intros y Hy HPy. unfold P in HPy.
      rewrite Exists_exists in HPy. destruct HPy as (z & Hz & Hyz).
      specialize (Hlt z y Hz Hy). lia.
    - apply Forall_forall. intros x Hx. unfold P.
      rewrite Exists_exists. now exists x. }
  assert (Hback : filter (λ x, ¬ P x) l ≡ₚ back).
  { rewrite Hperm, filter_app.
    rewrite (filter_none (λ x, ¬ P x) front), (filter_all (λ x, ¬ P x) back).
    - reflexivity.
    - apply Forall_forall. intros y Hy HPy. unfold P in HPy.
      rewrite Exists_exists in HPy. destruct HPy as (z & Hz & Hyz).
      specialize (Hlt z y Hz Hy). lia.
    - apply Forall_forall. intros x Hx HnP. apply HnP. unfold P.
      rewrite Exists_exists. now exists x. }
  assert (Hlen : length (filter P l) = length front)
    by now rewrite Hfront.
  split.
  - rewrite Hl, <- Hlen, take_app_length. exact Hfront.
  - rewrite Hl, <- Hlen, drop_app_length. exact Hback.
Qed.

(** *** [np.argsort] and indexing with its result *)

Section Argsort.

Variable argsort : list nat → list nat.
Hypothesis argsort_sorts : is_argsort argsort.

Context {A : Type}.
Variable d : A.
Variable key : A → nat.

Lemma argsort_in_range (l : list A) i :
  i ∈ argsort (key <$> l) → i < length l.
Proof.
  intros Hi. destruct (argsort_sorts (key <$> l)) as [Hperm _].
  rewrite Hperm, length_fmap in Hi. apply elem_of_seq in Hi. lia.
Qed.

Lemma permuted_Permutation (l : list A) : permuted argsort d key l ≡ₚ l.
Proof.
  unfold permuted. destruct (argsort_sorts (key <$> l)) as [Hperm _].
  rewrite Hperm, length_fmap. now rewrite fmap_lookup_seq.
Qed.

Lemma permuted_sorted (l : list A) :
  StronglySorted le (key <$> permuted argsort d key l).
Proof.
  destruct (argsort_sorts (key <$> l)) as [_ Hs].
  apply Sorted_StronglySorted; [apply _|].
  unfold permuted. rewrite <- list_fmap_compose.
  replace ((key ∘ (λ i, default d (l !! i))) <$> argsort (key <$> l))
    with ((λ i, default 0 ((key <$> l) !! i)) <$> argsort (key <$> l));
    [exact Hs|].
  apply Forall_fmap_ext, Forall_forall. intros i Hi. simpl.
  apply argsort_in_range in Hi.
  destruct (lookup_lt_is_Some_2 l i Hi) as [x Hx].
  now rewrite list_lookup_fmap, Hx.
Qed.

Lemma take_indices_permuted {B} (f : A → B) (l : list A) :
  take_indices (f <$> l) (argsort (key <$> l))
  = Ok (f <$> permuted argsort d key l).
Proof.
  unfold permuted. rewrite <- list_fmap_compose.
  apply take_indices_fmap. intros i Hi. simpl.
  apply argsort_in_range in Hi.
  destruct (lookup_lt_is_Some_2 l i Hi) as [x Hx].
  now rewrite list_lookup_fmap, Hx.
Qed.

End Argsort.

(** *** [np.reshape] *)

Lemma chunks_fmap {A B} (f : A → B) rows cols (l : list A) :
  chunks rows cols (f <$> l) = (λ r : list A, f <$> r) <$> chunks rows cols l.
Proof.
  revert l. induction rows as [|rows IH]; intros l; [reflexivity|].
  cbn [chunks]. rewrite fmap_cons, <- fmap_take, <- fmap_drop, IH.
  reflexivity.
Qed.

Lemma length_chunks {A} rows cols (l : list A) :
  length (chunks rows cols l) = rows.
Proof.
  revert l. induction rows as [|rows IH]; intros l; [reflexivity|].
  cbn [chunks length]. now rewrite IH.
Qed.

Lemma chunks_shape {A} rows cols (l : list A) :
  length l = rows * cols →
  Forall (λ r, length r = cols) (chunks rows cols l).
Proof.
  revert l. induction rows as [|rows IH]; intros l Hl; [constructor|].
  cbn [chunks]. constructor.
  - rewrite length_take. lia.
  - apply IH. rewrite length_drop. lia.
Qed.

Lemma length_bind_uniform {A S} (row : S → list A) cols (srcs : list S) :
  Forall (λ s, length (row s) = cols) srcs →
  length (srcs ≫= row) = length srcs * cols.
Proof.
  induction 1 as [|s srcs Hs _ IH]; [reflexivity|].
  rewrite bind_cons, length_app, Hs, IH. reflexivity.
Qed.

Lemma reshape_rows_ok {A} N (a : list A) :
  N ≠ 0 → length a = N * (N - 1) →
  reshape_rows N a = Ok (chunks N (N - 1) a).
Proof.
  intros HN Hlen. unfold reshape_rows, reshape.
  now rewrite decide_False, decide_True.
Qed.

Lemma reshape_rows_Raise {A} N (a : list A) :
  length a ≠ N * (N - 1) → reshape_rows N a = Raise ValueError.
Proof.
  intros Hlen. unfold reshape_rows, reshape.
  destruct (decide (N = 0)); [reflexivity|].
  now rewrite decide_False.
Qed.

(** The rows of a reshaped array that is sorted by a key: if the array is a
    permutation of rows of equal length whose keys increase from row to row,
    the reshaped array has these rows, each up to a permutation. *)
Lemma chunks_rows {A S} (key : A → nat) cols (row : S → list A)
    (srcs : list S) (l : list A) :
  l ≡ₚ srcs ≫= row →
  StronglySorted le (key <$> l) →
  Forall (λ s, length (row s) = cols) srcs →
  StronglySorted
    (λ s1 s2, ∀ x y, x ∈ row s1 → y ∈ row s2 → key x < key y) srcs →
  Forall2 (λ c s, c ≡ₚ row s) (chunks (length srcs) cols l) srcs.
Proof.
  revert l. induction srcs as [|s srcs IH]; intros l Hperm Hs Hlen Hrows.
  - constructor.
  - rewrite bind_cons in Hperm.
    apply Forall_cons in Hlen as [Hlen_s Hlen].
    apply StronglySorted_inv in Hrows as [Hrows Hfirst].
    destruct (sorted_prefix key l (row s) (srcs ≫= row) Hperm Hs)
      as [Htake Hdrop].
    { intros x y Hx Hy. apply list_elem_of_bind in Hy as (s2 & Hy & Hs2).
      rewrite Forall_forall in Hfirst. now apply (Hfirst s2 Hs2). }
    rewrite Hlen_s in Htake, Hdrop.
    cbn [length chunks]. constructor; [exact Htake|].
    apply IH; [exact Hdrop| |exact Hlen|exact Hrows].
    rewrite fmap_drop. rewrite <- (take_drop cols (key <$> l)) in Hs.
    now apply StronglySorted_app_1_r in Hs.
Qed.

(** *** The connections *)

Lemma connections_from_filter ids w s :
  connections_from ids w s
  = (λ t, {| source := s; target := t; weight := w s t |})
      <$> filter (λ t, s ≠ t) ids.
Proof.
  unfold connections_from. induction ids as [|t ids IH]; [reflexivity|].
  rewrite bind_cons, IH. destruct (decide (s = t)) as [Heq|Hne].
  - now rewrite filter_cons_False by tauto.
  - now rewrite filter_cons_True by exact Hne.
Qed.

Lemma elem_of_connections_from ids w s x :
  x ∈ connections_from ids w s → source x = s ∧ weight x = w s (target x).
Proof.
  rewrite connections_from_filter. intros Hx.
  apply list_elem_of_fmap in Hx as (t & -> & _). now split.
Qed.

Lemma StronglySorted_impl {A} (R1 R2 : relation A) (l : list A) :
  (∀ x y, R1 x y → R2 x y) → StronglySorted R1 l → StronglySorted R2 l.
Proof.
  intros HR. induction 1 as [|x l _ IH Hx]; constructor; [exact IH|].
  eapply Forall_impl; [exact Hx|]. intros y. apply HR.
Qed.

Lemma StronglySorted_lt_NoDup (ids : list nat) :
  StronglySorted lt ids → NoDup ids.
Proof.
  induction 1 as [|x ids _ IH Hx]; constructor; [|exact IH].
  intros Hin. rewrite Forall_forall in Hx. specialize (Hx x Hin). lia.
Qed.

Lemma StronglySorted_filter {A} (R : relation A) (P : A → Prop)
    `{∀ x, Decision (P x)} (l : list A) :
  StronglySorted R l → StronglySorted R (filter P l).
Proof.
  induction 1 as [|x l _ IH Hx]; [constructor|].
  destruct (decide (P x)).
  - rewrite filter_cons_True by assumption. constructor; [exact IH|].
    apply Forall_forall. intros y Hy. apply list_elem_of_filter in Hy as [_ Hy].
    rewrite Forall_forall in Hx. now apply Hx.
  - now rewrite filter_cons_False.
Qed.

Lemma length_filter_ne (ids : list nat) s :
  NoDup ids → s ∈ ids → length (filter (λ t, s ≠ t) ids) = length ids - 1.
Proof.
  induction 1 as [|x ids Hx Hnd IH]; intros Hs; [now apply elem_of_nil in Hs|].
  destruct (decide (s = x)) as [->|Hne].
  - rewrite filter_cons_False by tauto.
    rewrite filter_all; [simpl; lia|].
    apply Forall_forall. intros y Hy ->. contradiction.
  - rewrite filter_cons_True by exact Hne.
    apply elem_of_cons in Hs as [Hs|Hs]; [contradiction|].
    specialize (IH Hs). simpl.
    assert (0 < length ids) by (destruct ids; [now apply elem_of_nil in Hs|simpl; lia]).
    lia.
Qed.

Lemma length_connections_from ids w s :
  NoDup ids → s ∈ ids →
  length (connections_from ids w s) = length ids - 1.
Proof.
  intros Hnd Hs. rewrite connections_from_filter, length_fmap.
  now apply length_filter_ne.
Qed.

Lemma length_all_to_all ids w :
  NoDup ids → length (all_to_all ids w) = length ids * (length ids - 1).
Proof.
  intros Hnd. apply length_bind_uniform, Forall_forall.
  intros s Hs. now apply length_connections_from.
Qed.

Lemma Forall2_fmap_eq {A B C} (f : A → C) (g : B → C) l k :
  Forall2 (λ x y, f x = g y) l k → f <$> l = g <$> k.
Proof.
  induction 1 as [|x y l k Hxy _ IH]; [reflexivity|].
  now rewrite !fmap_cons, Hxy, IH.
Qed.

(** *** The rows of [weights], sorted by target *)

Lemma setrow_middle (done rest : list (list Q)) (row v : list Q) :
  length v = length row →
  setrow (done ++ row :: rest) (length done) v = Ok (done ++ v :: rest).
Proof.
  intros Hlen. unfold setrow.
  rewrite (getitem_Some _ _ row) by apply list_lookup_middle, eq_refl.
  rewrite bind_Ok, decide_True, bind_Ok by exact Hlen.
  rewrite insert_app_r_alt, Nat.sub_diag by lia. reflexivity.
Qed.

Section SortRows.

Variable argsort : list nat → list nat.
Hypothesis argsort_sorts : is_argsort argsort.

Lemma sort_rows_from (rows : list (list Conn)) :
  ∀ (done ignored : list (list Q)),
  length ignored = length rows →
  for_each
    (λ '(i, (trgs, _)) weights',
       ws ← getitem weights' i;
       sorted ← take_indices ws (argsort trgs);
       setrow weights' i sorted)
    (imap (λ i x, (length done + i, x))
          (zip ((λ r : list Conn, target <$> r) <$> rows) ignored))
    (done ++ ((λ r : list Conn, weight <$> r) <$> rows))
  = Ok (done ++ ((λ r, weight <$> permuted argsort inhabitant target r)
                   <$> rows)).
Proof.
  induction rows as [|r rows IH]; intros done ignored Hlen.
  - destruct ignored; [reflexivity|discriminate].
  - destruct ignored as [|ig ignored]; [discriminate|].
    rewrite !fmap_cons. cbn [zip zip_with]. rewrite imap_cons.
    cbn [for_each]. rewrite Nat.add_0_r.
    rewrite (getitem_Some _ _ (weight <$> r)) by apply list_lookup_middle, eq_refl.
    rewrite bind_Ok.
    rewrite (take_indices_permuted argsort argsort_sorts inhabitant target),
      bind_Ok.
    rewrite setrow_middle
      by (rewrite !length_fmap;
          apply Permutation_length, permuted_Permutation, argsort_sorts).
    rewrite bind_Ok.
    specialize (IH (done ++ [weight <$> permuted argsort inhabitant target r])
                   ignored).
    rewrite <- !app_assoc, length_app in IH. cbn [app length] in IH.
    rewrite <- IH by (simpl in Hlen; lia).
    f_equal. apply imap_ext. intros i x _. simpl. f_equal. lia.
Qed.

Lemma sort_rows_ok (rows : list (list Conn)) :
  sort_rows argsort ((λ r : list Conn, target <$> r) <$> rows)
                    ((λ r : list Conn, weight <$> r) <$> rows)
  = Ok ((λ r, weight <$> permuted argsort inhabitant target r) <$> rows).
Proof.
  apply (sort_rows_from rows [] ((λ r : list Conn, weight <$> r) <$> rows)).
  apply length_fmap.
Qed.

(** With all connections among the neurons [ids], in any order, the rows of
    the sorted [weights] are the weights from each neuron to the others, in
    the order of [ids]. *)
Lemma sorted_weights_all_to_all ids w exc_conns :
  StronglySorted lt ids →
  ids ≠ [] →
  exc_conns ≡ₚ all_to_all ids w →
  sorted_weights argsort (length ids) exc_conns
  = Ok ((λ s, w s <$> filter (λ t, s ≠ t) ids) <$> ids).
Proof.
  intros Hids Hne Hperm.
  pose proof (StronglySorted_lt_NoDup ids Hids) as Hnd.
  set (pc := permuted argsort inhabitant source exc_conns).
  assert (Hpc : pc ≡ₚ all_to_all ids w).
  { unfold pc. now rewrite permuted_Permutation. }
  assert (Hlen : length pc = length ids * (length ids - 1)).
  { rewrite Hpc. now apply length_all_to_all. }
  unfold sorted_weights.
  rewrite !(take_indices_permuted argsort argsort_sorts inhabitant source).
  fold pc. rewrite bind_Ok.
  assert (Hn : length ids ≠ 0) by (destruct ids; [contradiction|discriminate]).
  do 2 (rewrite reshape_rows_ok, !bind_Ok
          by (rewrite ?length_fmap; assumption)).
  rewrite !chunks_fmap, sort_rows_ok. f_equal.
  apply Forall2_fmap_eq.
  assert (Hrows : Forall2 (λ c s, c ≡ₚ connections_from ids w s)
                    (chunks (length ids) (length ids - 1) pc) ids).
  { apply (chunks_rows source).
    - exact Hpc.
    - apply permuted_sorted, argsort_sorts.
    - apply Forall_forall. intros s Hs. now apply length_connections_from.
    - eapply StronglySorted_impl; [|exact Hids].
      intros s1 s2 Hlt x y Hx Hy. simpl.
      apply elem_of_connections_from in Hx as [-> _].
      apply elem_of_connections_from in Hy as [-> _]. exact Hlt. }
  eapply Forall2_impl; [exact Hrows|]. clear Hrows.
  intros c s Hc. simpl.
  set (p := permuted argsort inhabitant target c).
  assert (Hp : p ≡ₚ connections_from ids w s).
  { unfold p. now rewrite permuted_Permutation. }
  assert (Htargets : target <$> p = filter (λ t, s ≠ t) ids).
  { apply (StronglySorted_unique le).
    - apply permuted_sorted, argsort_sorts.
    - apply StronglySorted_filter.
      eapply StronglySorted_impl; [|exact Hids]. intros; simpl; lia.
    - rewrite Hp, connections_from_filter, <- list_fmap_compose.
      now rewrite list_fmap_id. }
  rewrite <- Htargets, <- list_fmap_compose.
  apply Forall_fmap_ext, Forall_forall. intros x Hx. simpl.
  rewrite Hp in Hx. now apply elem_of_connections_from in Hx as [<- ->].
Qed.


End SortRows.

(** *** Two-dimensional arrays *)

Open Scope Q_scope.

Lemma getitem2_at00 (M : list (list Q)) n m i j :
  length M = n → Forall (λ r, length r = m) M →
  (i < n)%nat → (j < m)%nat →
  getitem2 M (i, j) = Ok (at00 M i j).
Proof.
  intros Hn Hm Hi Hj. unfold getitem2. simpl.
  destruct (lookup_lt_is_Some_2 M i) as [row Hrow]; [lia|].
  rewrite (getitem_Some _ _ _ Hrow), bind_Ok, (at00_row _ _ _ _ Hrow).
  apply getitem_Some, at0_lookup.
  rewrite Forall_forall in Hm.
  rewrite (Hm row) by (eapply list_elem_of_lookup_2, Hrow). exact Hj.
Qed.

Lemma gather2_at00 (M : list (list Q)) n m ps :
  length M = n → Forall (λ r, length r = m) M →
  Forall (λ p, (p.1 < n)%nat ∧ (p.2 < m)%nat) ps →
  gather2 M ps = Ok ((λ p, at00 M p.1 p.2) <$> ps).
Proof.
  intros Hn Hm Hps. apply comprehension_fmap.
  eapply Forall_impl; [exact Hps|]. intros [i j] [Hi Hj].
  now apply (getitem2_at00 M n m).
Qed.

Lemma setitem2_shape (M : list (list Q)) n m p v :
  length M = n → Forall (λ r, length r = m) M →
  length (setitem2 M p v) = n ∧ Forall (λ r, length r = m) (setitem2 M p v).
Proof.
  intros Hn Hm. unfold setitem2. rewrite length_insert. split; [exact Hn|].
  destruct (decide (p.1 < length M)%nat) as [Hi|Hi].
  - destruct (lookup_lt_is_Some_2 M p.1 Hi) as [row Hrow].
    rewrite Hrow. simpl. apply Forall_insert; [exact Hm|].
    rewrite length_insert. rewrite Forall_forall in Hm.
    apply Hm. eapply list_elem_of_lookup_2, Hrow.
  - now rewrite list_insert_ge by lia.
Qed.

Lemma setitem2_at00 (M : list (list Q)) n m p v i j :
  length M = n → Forall (λ r, length r = m) M →
  (p.1 < n)%nat → (p.2 < m)%nat →
  at00 (setitem2 M p v) i j = if decide (p = (i, j)) then v else at00 M i j.
Proof.
  intros Hn Hm Hi Hj. destruct p as [pi pj]. simpl in *.
  unfold setitem2. simpl.
  destruct (lookup_lt_is_Some_2 M pi) as [row Hrow]; [lia|].
  assert (Hlen : length row = m).
  { rewrite Forall_forall in Hm. apply Hm. eapply list_elem_of_lookup_2, Hrow. }
  rewrite Hrow. simpl. unfold at00, at0.
  destruct (decide (pi = i)) as [->|Hne].
  - rewrite list_lookup_insert_eq by lia. simpl.
    destruct (decide (pj = j)) as [->|Hnej].
    + rewrite list_lookup_insert_eq by lia.
      now rewrite decide_True.
    + rewrite list_lookup_insert_ne by exact Hnej.
      rewrite decide_False by congruence. now rewrite Hrow.
  - rewrite list_lookup_insert_ne by exact Hne.
    now rewrite decide_False by congruence.
Qed.

(** Storing the values [val p] at the positions [p] of [ps]. *)
Lemma scatter2_at00 (val : nat * nat → Q) n m ps : ∀ (M : list (list Q)),
  length M = n → Forall (λ r, length r = m) M →
  Forall (λ p, (p.1 < n)%nat ∧ (p.2 < m)%nat) ps →
  ∃ M', scatter2 M ps (val <$> ps) = Ok M' ∧
    length M' = n ∧ Forall (λ r, length r = m) M' ∧
    ∀ i j, at00 M' i j
           = if decide ((i, j) ∈ ps) then val (i, j) else at00 M i j.
Proof.
  intros M Hn Hm Hps. unfold scatter2.
  rewrite decide_True, bind_Ok by apply length_fmap.
  rewrite (gather2_at00 M n m ps Hn Hm Hps), bind_Ok.
  eexists. split; [reflexivity|].
  revert M Hn Hm. induction Hps as [|p ps [Hi Hj] _ IH]; intros M Hn Hm.
  - cbn [fmap list_fmap zip_with foldl]. split; [exact Hn|split; [exact Hm|]].
    intros i j. rewrite decide_False; [reflexivity|]. apply not_elem_of_nil.
  - rewrite fmap_cons. cbn [zip zip_with foldl fst snd].
    destruct (setitem2_shape M n m p (val p) Hn Hm) as [Hn' Hm'].
    destruct (IH _ Hn' Hm') as (Hn'' & Hm'' & Hat).
    split; [exact Hn''|split; [exact Hm''|]].
    intros i j. rewrite Hat, (setitem2_at00 M n m) by assumption.
    destruct (decide (p = (i, j))) as [->|Hne].
    + rewrite (decide_True (P := (i, j) ∈ (i, j) :: ps)) by left.
      now destruct (decide ((i, j) ∈ ps)).
    + destruct (decide ((i, j) ∈ ps)) as [Hin|Hnin].
      * now rewrite decide_True by now right.
      * rewrite decide_False; [reflexivity|].
        intros Hin. apply elem_of_cons in Hin as [Heq|Hin]; congruence.
Qed.

(** Two arrays of the same shape with the same entries are equal. *)
Lemma array2_eq (M1 M2 : list (list Q)) n m :
  length M1 = n → Forall (λ r, length r = m) M1 →
  length M2 = n → Forall (λ r, length r = m) M2 →
  (∀ i j, (i < n)%nat → (j < m)%nat → at00 M1 i j = at00 M2 i j) →
  M1 = M2.
Proof.
  intros Hn1 Hm1 Hn2 Hm2 Heq. apply list_eq. intros i.
  destruct (decide (i < n)%nat) as [Hi|Hi].
  - destruct (lookup_lt_is_Some_2 M1 i) as [r1 Hr1]; [lia|].
    destruct (lookup_lt_is_Some_2 M2 i) as [r2 Hr2]; [lia|].
    rewrite Hr1, Hr2. f_equal.
    assert (Hl1 : length r1 = m).
    { rewrite Forall_forall in Hm1. apply Hm1.
      eapply list_elem_of_lookup_2, Hr1. }
    assert (Hl2 : length r2 = m).
    { rewrite Forall_forall in Hm2. apply Hm2.
      eapply list_elem_of_lookup_2, Hr2. }
    apply list_eq. intros j.
    destruct (decide (j < m)%nat) as [Hj|Hj].
    + rewrite (at0_lookup r1 j), (at0_lookup r2 j) by lia. f_equal.
      rewrite <- (at00_row M1 i r1 j Hr1), <- (at00_row M2 i r2 j Hr2).
      now apply Heq.
    + now rewrite !lookup_ge_None_2 by lia.
  - now rewrite !lookup_ge_None_2 by lia.
Qed.

(** *** The positions of the triangles *)

Lemma elem_of_positions_where n m keep i j :
  (i, j) ∈ positions_where n m keep
  ↔ (i < n)%nat ∧ (j < m)%nat ∧ keep i j = true.
Proof.
  unfold positions_where. rewrite list_elem_of_bind. split.
  - intros (i' & Hin & Hi').
    apply list_elem_of_bind in Hin as (j' & Hin & Hj').
    destruct (keep i' j') eqn:Hk; [|now apply elem_of_nil in Hin].
    apply list_elem_of_singleton in Hin. injection Hin as -> ->.
    apply elem_of_seq in Hi', Hj'. split; [lia|split; [lia|exact Hk]].
  - intros (Hi & Hj & Hk). exists i. split; [|apply elem_of_seq; lia].
    apply list_elem_of_bind. exists j. split; [|apply elem_of_seq; lia].
    rewrite Hk. left.
Qed.

Lemma bind_ext_in {A B} (f g : A → list B) (l : list A) :
  (∀ x, x ∈ l → f x = g x) → l ≫= f = l ≫= g.
Proof.
  induction l as [|x l IH]; intros H; [reflexivity|].
  rewrite !bind_cons, (H x), IH; [reflexivity| |left].
  intros y Hy. apply H. now right.
Qed.

Lemma fmap_bind_list {A B C} (g : B → C) (f : A → list B) (l : list A) :
  g <$> (l ≫= f) = l ≫= (λ x, g <$> f x).
Proof.
  induction l as [|x l IH]; [reflexivity|].
  now rewrite !bind_cons, fmap_app, IH.
Qed.

Lemma bind_fmap_list {A B C} (g : A → B) (f : B → list C) (l : list A) :
  (g <$> l) ≫= f = l ≫= (λ x, f (g x)).
Proof.
  induction l as [|x l IH]; [reflexivity|].
  now rewrite fmap_cons, !bind_cons, IH.
Qed.

(** The upper triangle of an array with one column less, diagonal included,
    is the upper triangle above the diagonal, moved one column to the
    left. *)
Lemma triu_shift n m :
  triu_indices n 0 m = (λ p, (p.1, pred p.2)) <$> triu_indices n 1 (S m).
Proof.
  unfold triu_indices, positions_where. rewrite fmap_bind_list.
  apply bind_ext_in. intros i _. rewrite fmap_bind_list.
  rewrite <- cons_seq, bind_cons.
  replace (Z.of_nat i + 1 <=? Z.of_nat 0)%Z with false
    by (symmetry; apply Z.leb_gt; lia).
  rewrite <- fmap_S_seq, bind_fmap_list. cbn [fmap list_fmap app].
  apply bind_ext_in. intros j _.
  replace (Z.of_nat i + 1 <=? Z.of_nat (S j))%Z
    with (Z.of_nat i + 0 <=? Z.of_nat j)%Z.
  - now destruct (Z.of_nat i + 0 <=? Z.of_nat j)%Z.
  - destruct (Z.leb_spec (Z.of_nat i + 0) (Z.of_nat j));
      symmetry; [apply Z.leb_le|apply Z.leb_gt]; lia.
Qed.

(** The lower triangle below the diagonal does not reach the last column. *)
Lemma tril_narrow n m :
  (n ≤ S m)%nat → tril_indices n (-1) m = tril_indices n (-1) (S m).
Proof.
  intros Hn. unfold tril_indices, positions_where.
  apply bind_ext_in. intros i Hi. apply elem_of_seq in Hi.
  rewrite seq_S, bind_app. cbn [mbind list_bind Nat.add].
  replace (Z.of_nat m <=? Z.of_nat i + -1)%Z with false
    by (symmetry; apply Z.leb_gt; lia).
  now rewrite !app_nil_r.
Qed.

Lemma ncols_shape {A} (M : list (list A)) m :
  M ≠ [] → Forall (λ r, length r = m) M → ncols M = m.
Proof.
  intros Hne Hm. destruct M as [|r M]; [contradiction|].
  now apply Forall_cons in Hm as [Hr _].
Qed.

Lemma at00_zeros2 n m i j : at00 (zeros2 n m) i j = 0.
Proof.
  unfold at00, at0, zeros2.
  destruct (decide (i < n)%nat).
  - rewrite lookup_replicate_2 by assumption. simpl.
    destruct (decide (j < m)%nat).
    + now rewrite lookup_replicate_2 by assumption.
    + now rewrite (proj1 (lookup_replicate_None _ _ _)) by lia.
  - rewrite (proj1 (lookup_replicate_None _ _ _)) by lia. reflexivity.
Qed.

(** *** Filling the weight matrix *)

Lemma insert_diagonal_shape n (weights : list (list Q)) :
  length weights = S n → Forall (λ r, length r = n) weights →
  length (imap (λ a row, take a row ++ 0 :: drop a row) weights) = S n ∧
  Forall (λ r, length r = S n)
         (imap (λ a row, take a row ++ 0 :: drop a row) weights).
Proof.
  intros Hn Hm. split; [now rewrite length_imap|].
  apply Forall_forall. intros r Hr.
  apply list_elem_of_lookup in Hr as [a Hr].
  rewrite list_lookup_imap in Hr.
  destruct (weights !! a) as [row|] eqn:Hrow; [|discriminate].
  injection Hr as <-.
  rewrite Forall_forall in Hm.
  specialize (Hm row (list_elem_of_lookup_2 _ _ _ Hrow)).
  rewrite length_app, length_take. cbn [length]. rewrite length_drop. lia.
Qed.

Lemma at00_insert_diagonal n (weights : list (list Q)) i j :
  length weights = S n → Forall (λ r, length r = n) weights →
  (i < S n)%nat →
  at00 (imap (λ a row, take a row ++ 0 :: drop a row) weights) i j
  = if decide (j < i)%nat then at00 weights i j
    else if decide (i < j)%nat then at00 weights i (pred j)
    else 0.
Proof.
  intros Hn Hm Hi.
  destruct (lookup_lt_is_Some_2 weights i) as [row Hrow]; [lia|].
  assert (Hlen : length row = n).
  { rewrite Forall_forall in Hm. apply Hm.
    eapply list_elem_of_lookup_2, Hrow. }
  rewrite (at00_row _ i (take i row ++ 0 :: drop i row))
    by (now rewrite list_lookup_imap, Hrow).
  rewrite !(at00_row _ _ _ _ Hrow). unfold at0.
  assert (Htake : length (take i row) = i) by (rewrite length_take; lia).
  destruct (decide (j < i)%nat) as [Hlt|Hge].
  - rewrite lookup_app_l by lia. now rewrite lookup_take_lt.
  - rewrite lookup_app_r by lia. rewrite Htake.
    destruct (decide (i < j)%nat) as [Hgt|Heq].
    + replace (j - i)%nat with (S (j - i - 1)) by lia.
      change ((0 :: drop i row) !! S (j - i - 1))
        with (drop i row !! (j - i - 1)%nat).
      rewrite lookup_drop. do 2 f_equal. lia.
    + now replace (j - i)%nat with 0%nat by lia.
Qed.

(** The two triangles of [weights] are stored on both sides of a diagonal of
    zeros: a zero is inserted into row [a] at position [a]. *)
Lemma fill_weight_matrix_ok N (weights : list (list Q)) :
  N ≠ 0%nat → length weights = N →
  Forall (λ r, length r = (N - 1)%nat) weights →
  fill_weight_matrix N weights
  = Ok (imap (λ a row, take a row ++ 0 :: drop a row) weights).
Proof.
  intros HN Hn Hm. destruct N as [|n]; [contradiction|]. clear HN.
  replace (S n - 1)%nat with n in Hm by lia.
  assert (Hzn : length (zeros2 (S n) (S n)) = S n)
    by apply length_replicate.
  assert (Hzm : Forall (λ r, length r = S n) (zeros2 (S n) (S n))).
  { apply Forall_replicate, length_replicate. }
  assert (Hwne : weights ≠ []) by (destruct weights; discriminate).
  unfold fill_weight_matrix, triu_indices_from, tril_indices_from, nrows.
  rewrite Hzn, Hn, (ncols_shape (zeros2 (S n) (S n)) (S n)),
    (ncols_shape weights n); [|assumption|assumption|discriminate|assumption].
  rewrite triu_shift.
  rewrite (gather2_at00 weights (S n) n
             ((λ p, (p.1, pred p.2)) <$> triu_indices (S n) 1 (S n))),
    bind_Ok; [|assumption|assumption|].
  2:{ apply Forall_forall. intros p Hp.
      apply list_elem_of_fmap in Hp as ([i j] & -> & Hp).
      apply elem_of_positions_where in Hp as (Hi & Hj & Hk).
      apply Z.leb_le in Hk. simpl. lia. }
  rewrite <- list_fmap_compose.
  destruct (scatter2_at00
              ((λ p, at00 weights p.1 p.2) ∘ (λ p, (p.1, pred p.2)))
              (S n) (S n) (triu_indices (S n) 1 (S n)) (zeros2 (S n) (S n)))
    as (M1 & -> & Hn1 & Hm1 & Hat1); [assumption|assumption| |].
  { apply Forall_forall. intros [i j] Hp.
    apply elem_of_positions_where in Hp as (Hi & Hj & _). now split. }
  rewrite bind_Ok, Hn1, (ncols_shape M1 (S n));
    [|destruct M1; discriminate|assumption].
  rewrite (tril_narrow (S n) n) by lia.
  rewrite (gather2_at00 weights (S n) n (tril_indices (S n) (-1) (S n))),
    bind_Ok; [|assumption|assumption|].
  2:{ apply Forall_forall. intros [i j] Hp.
      apply elem_of_positions_where in Hp as (Hi & Hj & Hk).
      apply Z.leb_le in Hk. simpl. lia. }
  destruct (scatter2_at00 (λ p, at00 weights p.1 p.2)
              (S n) (S n) (tril_indices (S n) (-1) (S n)) M1)
    as (M2 & -> & Hn2 & Hm2 & Hat2); [assumption|assumption| |].
  { apply Forall_forall. intros [i j] Hp.
    apply elem_of_positions_where in Hp as (Hi & Hj & _). now split. }
  f_equal.
  destruct (insert_diagonal_shape n weights Hn Hm) as [Hn3 Hm3].
  apply (array2_eq _ _ (S n) (S n)); try assumption.
  intros i j Hi Hj.
  rewrite Hat2, Hat1, at00_zeros2, (at00_insert_diagonal n) by assumption.
  unfold tril_indices, triu_indices.
  destruct (decide (j < i)%nat) as [Hlt|Hge].
  - rewrite decide_True; [reflexivity|].
    apply elem_of_positions_where.
    split; [lia|split; [lia|apply Z.leb_le; lia]].
  - rewrite decide_False.
    2:{ intros Hp. apply elem_of_positions_where in Hp as (_ & _ & Hk).
        apply Z.leb_le in Hk. lia. }
    destruct (decide (i < j)%nat) as [Hgt|Heq].
    + rewrite decide_True; [reflexivity|].
      apply elem_of_positions_where.
      split; [lia|split; [lia|apply Z.leb_le; lia]].
    + rewrite decide_False; [reflexivity|].
      intros Hp. apply elem_of_positions_where in Hp as (_ & _ & Hk).
      apply Z.leb_le in Hk. lia.
Qed.

(** *** The rows of the weight matrix *)

Lemma row_insert_diagonal (w : nat → nat → Q) pre s post :
  s ∉ pre → s ∉ post →
  take (length pre) (w s <$> filter (λ t, s ≠ t) (pre ++ s :: post))
  ++ 0 :: drop (length pre) (w s <$> filter (λ t, s ≠ t) (pre ++ s :: post))
  = (λ t, if decide (s = t) then 0 else w s t) <$> (pre ++ s :: post).
Proof.
  intros Hpre Hpost.
  assert (Hother : ∀ l : list nat, s ∉ l →
            (λ t, if decide (s = t) then 0 else w s t) <$> l = w s <$> l).
  { intros l Hl. apply Forall_fmap_ext, Forall_forall. intros t Ht.
    rewrite decide_False; [reflexivity|]. intros ->. contradiction. }
  assert (Hkeep : ∀ l : list nat, s ∉ l → filter (λ t, s ≠ t) l = l).
  { intros l Hl. apply filter_all, Forall_forall. intros t Ht ->.
    contradiction. }
  rewrite filter_app, filter_cons_False, !Hkeep by tauto.
  rewrite !fmap_app, fmap_cons, decide_True, !Hother by tauto.
  rewrite take_app_length', drop_app_length' by now rewrite length_fmap.
  reflexivity.
Qed.

Lemma insert_diagonal_weights (w : nat → nat → Q) ids :
  NoDup ids →
  imap (λ a row, take a row ++ 0 :: drop a row)
       ((λ s, w s <$> filter (λ t, s ≠ t) ids) <$> ids)
  = weights_of ids w.
Proof.
  intros Hnd. unfold weights_of. apply list_eq. intros a.
  rewrite list_lookup_imap, !list_lookup_fmap.
  destruct (ids !! a) as [s|] eqn:Hs; [|reflexivity]. simpl. f_equal.
  pose proof (take_drop_middle ids a s Hs) as Hids.
  assert (Ha : length (take a ids) = a).
  { apply length_take_le. apply lookup_lt_Some in Hs. lia. }
  remember (take a ids) as pre eqn:Epre.
  remember (drop (S a) ids) as post eqn:Epost.
  clear Epre Epost Hs. subst ids a.
  apply NoDup_app in Hnd as (_ & Hpre & Hpost).
  apply NoDup_cons in Hpost as [Hpost _].
  apply row_insert_diagonal; [|exact Hpost].
  intros Hin. apply (Hpre s Hin). left.
Qed.

(** *** Arrays given entry by entry *)

Lemma replicate_fmap_seq {A} (x : A) n j :
  replicate n x = (λ _, x) <$> seq j n.
Proof.
  revert j. induction n as [|n IH]; intros j; [reflexivity|].
  cbn [replicate seq]. rewrite fmap_cons. f_equal. apply IH.
Qed.

Lemma ones2_grid n : ones2 n n = grid n (λ _ _, 1).
Proof.
  unfold ones2, grid.
  rewrite (replicate_fmap_seq (replicate n 1) n 0).
  now rewrite (replicate_fmap_seq 1 n 0).
Qed.

Lemma zip_with_grid (op : Q → Q → Q) n f g :
  zip_with (zip_with op) (grid n f) (grid n g)
  = grid n (λ i j, op (f i j) (g i j)).
Proof.
  unfold grid. rewrite zip_with_fmap_l, zip_with_fmap_r, zip_with_diag.
  apply list_fmap_ext. intros _ i _.
  now rewrite zip_with_fmap_l, zip_with_fmap_r, zip_with_diag.
Qed.

Lemma fmap_grid (h : Q → Q) n f :
  (λ row : list Q, h <$> row) <$> grid n f = grid n (λ i j, h (f i j)).
Proof.
  unfold grid. rewrite <- list_fmap_compose.
  apply list_fmap_ext. intros _ i _. simpl.
  now rewrite <- list_fmap_compose.
Qed.

Lemma init_w_matrix_grid n w0 :
  init_w_matrix n w0
  = grid n (λ i j, (1 - (if decide (i = j) then 1 else 0)) * w0).
Proof.
  unfold init_w_matrix. rewrite ones2_grid.
  change (identity n) with (grid n (λ i j, if decide (i = j) then 1 else 0)).
  now rewrite zip_with_grid, fmap_grid.
Qed.

Lemma weights_of_fmap (g : nat → nat) (l : list nat) w :
  weights_of (g <$> l) w
  = (λ i, (λ j, if decide (g i = g j) then 0 else w (g i) (g j)) <$> l) <$> l.
Proof.
  unfold weights_of. rewrite <- list_fmap_compose.
  apply list_fmap_ext. intros _ i _. simpl.
  now rewrite <- list_fmap_compose.
Qed.

Lemma weights_of_grid ids w :
  weights_of ids w
  = grid (length ids)
      (λ i j, if decide (default 0%nat (ids !! i) = default 0%nat (ids !! j))
              then 0
              else w (default 0%nat (ids !! i)) (default 0%nat (ids !! j))).
Proof.
  rewrite <- (fmap_lookup_seq 0%nat ids) at 1. apply weights_of_fmap.
Qed.

Lemma same_entries_grid n f g :
  (∀ i j, (i < n)%nat → (j < n)%nat → f i j == g i j) →
  same_entries (grid n f) (grid n g).
Proof.
  intros H. unfold same_entries, grid.
  apply Forall2_fmap, Forall_Forall2_diag, Forall_forall. intros i Hi.
  apply Forall2_fmap, Forall_Forall2_diag, Forall_forall. intros j Hj.
  apply elem_of_seq in Hi, Hj. apply H; lia.
Qed.

Lemma lookup_default_inj (ids : list nat) i j :
  NoDup ids → (i < length ids)%nat → (j < length ids)%nat →
  default 0%nat (ids !! i) = default 0%nat (ids !! j) → i = j.
Proof.
  intros Hnd Hi Hj.
  destruct (lookup_lt_is_Some_2 ids i Hi) as [s Hs].
  destruct (lookup_lt_is_Some_2 ids j Hj) as [t Ht].
  rewrite Hs, Ht. simpl. intros ->. exact (NoDup_lookup ids i j t Hnd Hs Ht).
Qed.

(** *** One sorting function *)

#[global] Instance key_le_total keys : Total (key_le keys).
Proof. intros i j. unfold key_le. lia. Qed.

Lemma merge_argsort_sorts : is_argsort merge_argsort.
Proof.
  intros keys. unfold sorts, merge_argsort. split.
  - apply merge_sort_Permutation.
  - apply (Sorted_fmap _ (key_le keys) le); [intros i j H; exact H|].
    apply Sorted_merge_sort, _.
Qed.

(** *** The cell *)

(** X10: when the connections are all the connections among the neurons
    [ids], without autapses and listed in any order, and the node ids in [ids]
    ascend, the cell returns as [weight_matrix] the weights from neuron to
    neuron in the order of [ids] with zeros on the diagonal, whichever of the
    possible results [np.argsort] returns for equal keys; [init_w_matrix] is
    [w_exc_exc] off the diagonal and zero on it, and [diff_weight_matrix] is
    the weight minus [w_exc_exc] off the diagonal and zero on it. *)
Theorem weight_matrices_all_to_all argsort ids w w0 exc_conns :
  is_argsort argsort →
  StronglySorted lt ids →
  ids ≠ [] →
  exc_conns ≡ₚ all_to_all ids w →
  ∃ init diff,
    weight_matrices argsort (length ids) w0 exc_conns
    = Ok (weights_of ids w, init, diff) ∧
    same_entries init (weights_of ids (λ _ _, w0)) ∧
    same_entries diff (weights_of ids (λ s t, w s t - w0)).
Proof.
  intros Hsort Hids Hne Hperm.
  pose proof (StronglySorted_lt_NoDup ids Hids) as Hnd.
  unfold weight_matrices.
  rewrite (sorted_weights_all_to_all argsort Hsort ids w exc_conns Hids Hne
             Hperm), bind_Ok.
  rewrite fill_weight_matrix_ok, bind_Ok, insert_diagonal_weights;
    [|exact Hnd|destruct ids; [contradiction|discriminate]|apply length_fmap|].
  2:{ apply Forall_forall. intros r Hr.
      apply list_elem_of_fmap in Hr as (s & -> & Hs).
      rewrite length_fmap. now apply length_filter_ne. }
  eexists _, _. split; [reflexivity|].
  assert (Hdiag : ∀ i j, (i < length ids)%nat → (j < length ids)%nat →
            default 0%nat (ids !! i) = default 0%nat (ids !! j) ↔ i = j).
  { intros i j Hi Hj. split; [now apply lookup_default_inj|now intros ->]. }
  split.
  - rewrite init_w_matrix_grid, weights_of_grid. apply same_entries_grid.
    intros i j Hi Hj. specialize (Hdiag i j Hi Hj).
    destruct (decide (i = j)), (decide (default 0%nat (ids !! i)
                                        = default 0%nat (ids !! j)));
      try tauto; ring.
  - rewrite init_w_matrix_grid, !weights_of_grid, zip_with_grid.
    apply same_entries_grid.
    intros i j Hi Hj. specialize (Hdiag i j Hi Hj).
    destruct (decide (i = j)), (decide (default 0%nat (ids !! i)
                                        = default 0%nat (ids !! j)));
      try tauto; ring.
Qed.

Lemma weight_matrices_all_to_all_witness :
  let w := λ s t : nat, inject_Z (Z.of_nat (10 * s + t)) in
  ∃ init diff,
    weight_matrices merge_argsort 3 w_exc_exc (reverse (all_to_all [4; 7; 9]%nat w))
    = Ok ([[0; 47; 49]; [74; 0; 79]; [94; 97; 0]], init, diff) ∧
    same_entries init (weights_of [4; 7; 9]%nat (λ _ _, w_exc_exc)) ∧
    same_entries diff (weights_of [4; 7; 9]%nat (λ s t, w s t - w_exc_exc)).
Proof.
  intros w.
  apply (weight_matrices_all_to_all merge_argsort [4; 7; 9]%nat w w_exc_exc
           (reverse (all_to_all [4; 7; 9]%nat w))).
  - exact merge_argsort_sorts.
  - repeat constructor; lia.
  - discriminate.
  - apply reverse_Permutation.
Defined.

(** X11: the cell raises [ValueError] when the number of connections is not
    [N_exc * (N_exc - 1)], for instance when the neurons are also connected
    to themselves, and when there are no neurons. *)
Theorem weight_matrices_wrong_count argsort N w0 exc_conns :
  is_argsort argsort →
  N = 0%nat ∨ length exc_conns ≠ (N * (N - 1))%nat →
  weight_matrices argsort N w0 exc_conns = Raise ValueError.
Proof.
  intros Hsort HN. unfold weight_matrices, sorted_weights.
  rewrite !(take_indices_permuted argsort Hsort inhabitant source), bind_Ok.
  destruct HN as [->|HN]; [reflexivity|].
  rewrite reshape_rows_Raise; [reflexivity|].
  rewrite length_fmap.
  now rewrite (Permutation_length (permuted_Permutation argsort Hsort _ _ _)).
Qed.

Lemma weight_matrices_wrong_count_witness :
  weight_matrices merge_argsort 2 w_exc_exc
    [ {| source := 1; target := 1; weight := 1 |};
      {| source := 1; target := 2; weight := 1 |};
      {| source := 2; target := 1; weight := 1 |};
      {| source := 2; target := 2; weight := 1 |} ]
  = Raise ValueError.
Proof.
  apply (weight_matrices_wrong_count merge_argsort 2 w_exc_exc).
  - exact merge_argsort_sorts.
  - right. simpl. lia.
Defined.

(** X12: for every array [weights] of [N_exc] rows and [N_exc - 1] columns
    the filled [weight_matrix] has [N_exc] rows and columns; below the
    diagonal it has the entries of [weights] at the same position, above the
    diagonal the entries of [weights] one column to the left, and on the
    diagonal zeros. *)
Theorem fill_weight_matrix_entries N (weights : list (list Q)) :
  N ≠ 0%nat → length weights = N →
  Forall (λ r, length r = (N - 1)%nat) weights →
  ∃ weight_matrix,
    fill_weight_matrix N weights = Ok weight_matrix ∧
    length weight_matrix = N ∧
    Forall (λ r, length r = N) weight_matrix ∧
    ∀ a b, (a < N)%nat → (b < N)%nat →
      getitem2 weight_matrix (a, b)
      = if decide (b < a)%nat then getitem2 weights (a, b)
        else if decide (a < b)%nat then getitem2 weights (a, pred b)
        else Ok 0.
Proof.
  intros HN Hn Hm. rewrite (fill_weight_matrix_ok N weights HN Hn Hm).
  eexists. split; [reflexivity|].
  destruct N as [|n]; [contradiction|].
  replace (S n - 1)%nat with n in Hm by lia.
  destruct (insert_diagonal_shape n weights Hn Hm) as [Hn' Hm'].
  split; [exact Hn'|split; [exact Hm'|]].
  intros a b Ha Hb.
  rewrite (getitem2_at00 _ (S n) (S n)) by assumption.
  rewrite (at00_insert_diagonal n) by assumption.
  destruct (decide (b < a)%nat) as [Hlt|Hge].
  - symmetry. apply (getitem2_at00 weights (S n) n); [assumption..|lia].
  - destruct (decide (a < b)%nat) as [Hgt|Heq]; [|reflexivity].
    symmetry. apply (getitem2_at00 weights (S n) n); [assumption..|lia].
Qed.

Lemma fill_weight_matrix_entries_witness :
  ∃ weight_matrix,
    fill_weight_matrix 3 [[12; 13]; [21; 23]; [31; 32]] = Ok weight_matrix ∧
    length weight_matrix = 3%nat ∧
    Forall (λ r, length r = 3%nat) weight_matrix ∧
    ∀ a b, (a < 3)%nat → (b < 3)%nat →
      getitem2 weight_matrix (a, b)
      = if decide (b < a)%nat
        then getitem2 [[12; 13]; [21; 23]; [31; 32]] (a, b)
        else if decide (a < b)%nat
        then getitem2 [[12; 13]; [21; 23]; [31; 32]] (a, pred b)
        else Ok 0.
Proof.
  apply (fill_weight_matrix_entries 3 [[12; 13]; [21; 23]; [31; 32]]).
  - discriminate.
  - reflexivity.
  - repeat constructor.
Defined.

End ClopathWeightsFacts.
